(** * The chunker of [src/ingestion/chunker.py] and the text analysis of
    [src/ingestion/parser.py]

    A shallow embedding of [HalachicChunker], of the language detector and
    the title extractor of [BookParser], and of the pieces of the Python
    runtime they rely on ([str] methods, the [re] patterns in use, the
    division of two integers), followed by the properties of the chunking
    pipeline and of the two parser functions.

    Python's [str] is a sequence of Unicode code points, so a text is a list
    of code points; Python's [int] is [Z]. *)

From Equations Require Import Equations.
From Stdlib Require Import String Ascii.
From Stdlib Require Import List ZArith NArith Bool Arith Lia Permutation Sorted.
Import ListNotations.

(* [length], [concat] and [++] are those of lists throughout. *)
Abbreviation length := Datatypes.length.
Abbreviation concat := List.concat.

Set Implicit Arguments.
Open Scope Z_scope.

(* ===================================================================== *)
(** ** Python strings *)
(* ===================================================================== *)

Module PyStr.

Definition char := N.
Definition str := list char.

(** An ASCII literal as a Python string. *)
Fixpoint lit (s : string) : str :=
  match s with
  | EmptyString => []
  | String a s' => N_of_ascii a :: lit s'
  end.

Definition NL : char := 10%N.
Definition SPACE : char := 32%N.
Definition DOT : char := 46%N.

Definition in_range (lo hi c : char) : bool := (lo <=? c)%N && (c <=? hi)%N.

(** [str.isspace] on one code point ([Py_UNICODE_ISSPACE]); [str.split],
    [str.strip] and the pattern [\s] all use this set. *)
Definition isspace (c : char) : bool :=
  in_range 9%N 13%N c || in_range 28%N 32%N c || (c =? 133)%N || (c =? 160)%N
  || (c =? 5760)%N || in_range 8192%N 8202%N c || (c =? 8232)%N
  || (c =? 8233)%N || (c =? 8239)%N || (c =? 8287)%N || (c =? 12288)%N.

Definition str_eqb (a b : str) : bool :=
  if list_eq_dec N.eq_dec a b then true else false.

(** [len(s)] *)
Definition len (s : str) : Z := Z.of_nat (length s).

(** [s.lstrip(chars)] and [s.rstrip(chars)], the set of characters given
    as a predicate. *)
Fixpoint lstrip_by (p : char -> bool) (s : str) : str :=
  match s with
  | [] => []
  | c :: s' => if p c then lstrip_by p s' else s
  end.

Fixpoint rstrip_by (p : char -> bool) (s : str) : str :=
  match s with
  | [] => []
  | c :: s' =>
      match rstrip_by p s' with
      | [] => if p c then [] else [c]
      | r => c :: r
      end
  end.

(** [s.strip()] *)
Definition strip (s : str) : str := rstrip_by isspace (lstrip_by isspace s).

(** [s.split()]: the maximal runs of non-whitespace characters. *)
Fixpoint split (s : str) : list str :=
  match s with
  | [] => []
  | c :: s' =>
      if isspace c then split s'
      else match s' with
           | [] => [[c]]
           | c' :: _ =>
               if isspace c' then [c] :: split s'
               else match split s' with
                    | w :: ws => (c :: w) :: ws
                    | [] => [[c]]
                    end
           end
  end.

(** [sep.join(ws)] *)
Fixpoint join (sep : str) (ws : list str) : str :=
  match ws with
  | [] => []
  | [w] => w
  | w :: ws' => w ++ sep ++ join sep ws'
  end.

(** Index normalisation of a slice bound: negative bounds count from the
    end, and the result is clamped to [0, len]. *)
Definition norm_index {A} (l : list A) (i : Z) : nat :=
  let n := Z.of_nat (length l) in
  Z.to_nat (if i <? 0 then Z.max (i + n) 0 else Z.min i n).

(** [l[lo:hi]] *)
Definition slice {A} (l : list A) (lo hi : Z) : list A :=
  let a := norm_index l lo in
  let b := norm_index l hi in
  firstn (b - a) (skipn a l).

Fixpoint starts_with (sub s : str) : bool :=
  match sub, s with
  | [], _ => true
  | _ :: _, [] => false
  | a :: sub', b :: s' => (a =? b)%N && starts_with sub' s'
  end.

Fixpoint find_at (sub s : str) (i : nat) : option nat :=
  if starts_with sub s then Some i
  else match s with
       | [] => None
       | _ :: s' => find_at sub s' (S i)
       end.

(** [s.find(sub, start)]: the lowest index at or after [start] where
    [sub] occurs, or -1. *)
Definition find (s sub : str) (start : Z) : Z :=
  let n := Z.of_nat (length s) in
  let st := if start <? 0 then Z.max (start + n) 0 else start in
  if n <? st then -1
  else match find_at sub (skipn (Z.to_nat st) s) (Z.to_nat st) with
       | Some i => Z.of_nat i
       | None => -1
       end.

End PyStr.
Import PyStr.

(* ===================================================================== *)
(** ** The fragment of [re] used by the chunker *)
(* ===================================================================== *)

Module Re.

(** The patterns of the chunker are sequences of anchors and of greedy
    repetitions of a one-character class; a literal character is a class
    repeated exactly once.  Groups only matter for [match.group(n)],
    [n > 0], which the chunker never reads. *)
Inductive atom :=
| Bol                                   (* ^ under re.MULTILINE *)
| Eol                                   (* $ under re.MULTILINE *)
| Rep (cls : char -> bool) (lo : nat) (hi : option nat).

Definition pattern := list atom.

Definition chr (c : char) : char -> bool := fun x => (x =? c)%N.
Definition Lit (c : char) : atom := Rep (chr c) 1 (Some 1%nat).
Definition Star cls : atom := Rep cls 0 None.
Definition Plus cls : atom := Rep cls 1 None.
Definition Opt cls : atom := Rep cls 0 (Some 1%nat).
Definition Between cls lo hi : atom := Rep cls lo (Some hi).

(** [^] holds at the start of the text and after every newline. *)
Definition at_bol (prev : option char) : bool :=
  match prev with
  | None => true
  | Some c => (c =? NL)%N
  end.

(** [$] holds at the end of the text and before every newline. *)
Definition at_eol (rest : str) : bool :=
  match rest with
  | [] => true
  | c :: _ => (c =? NL)%N
  end.

Definition more (hi : option nat) : bool :=
  match hi with
  | None => true
  | Some (S _) => true
  | Some O => false
  end.

Definition dec (hi : option nat) : option nat :=
  match hi with
  | None => None
  | Some h => Some (pred h)
  end.

(** A greedy repetition: take one more character when the class and the
    upper bound allow it and the rest of the pattern then matches;
    otherwise stop here, if the lower bound is reached.  [k] matches the
    rest of the pattern; the result is the number of characters matched
    from the current position. *)
Fixpoint rep (cls : char -> bool) (lo : nat) (hi : option nat)
    (k : option char -> str -> option nat)
    (prev : option char) (s : str) : option nat :=
  let stop := match lo with O => k prev s | S _ => None end in
  match s with
  | c :: s' =>
      if cls c && more hi then
        match rep cls (pred lo) (dec hi) k (Some c) s' with
        | Some n => Some (S n)
        | None => stop
        end
      else stop
  | [] => stop
  end.

(** [pattern.match] at the current position: [prev] is the character
    before it, [s] the text from it on. *)
Fixpoint match_here (p : pattern) : option char -> str -> option nat :=
  match p with
  | [] => fun _ _ => Some O
  | Bol :: p' => fun prev s => if at_bol prev then match_here p' prev s else None
  | Eol :: p' => fun prev s => if at_eol s then match_here p' prev s else None
  | Rep cls lo hi :: p' => rep cls lo hi (match_here p')
  end.

(** The scan of [pattern.finditer]: try each position from left to right;
    after a match, resume at its end.  [skip] counts the characters still
    inside the last match.  Each result is (start, length).  (The patterns
    of the chunker never match the empty string, see [nonempty_match]: no
    match is empty and none starts at the end of the text.) *)
Fixpoint scan (p : pattern) (prev : option char) (pos : nat) (skip : nat)
    (s : str) : list (nat * nat) :=
  match s with
  | [] => []
  | c :: s' =>
      match skip with
      | S j => scan p (Some c) (S pos) j s'
      | O =>
          match match_here p prev s with
          | Some n => (pos, n) :: scan p (Some c) (S pos) (pred n) s'
          | None => scan p (Some c) (S pos) O s'
          end
      end
  end.

Definition finditer (p : pattern) (text : str) : list (nat * nat) :=
  scan p None O O text.

(** [match.group()] *)
Definition group (text : str) (m : nat * nat) : str :=
  firstn (snd m) (skipn (fst m) text).

(** The pieces of [re.split]: the text between consecutive matches. *)
Fixpoint pieces (text : str) (last : nat) (ms : list (nat * nat)) : list str :=
  match ms with
  | [] => [skipn last text]
  | (st, n) :: ms' =>
      firstn (st - last) (skipn last text) :: pieces text (st + n) ms'
  end.

(** [re.split(p, text)] for a pattern without groups. *)
Definition split (p : pattern) (text : str) : list str :=
  pieces text O (finditer p text).

End Re.

(* ===================================================================== *)
(** ** Exceptions *)
(* ===================================================================== *)

Inductive exn := IndexError | KeyError.

(** The outcome of a call that may raise. *)
Inductive exc (A : Type) :=
| Ok (a : A)
| Raise (e : exn).
Arguments Ok {A} a.
Arguments Raise {A} e.

Definition bind {A B} (m : exc A) (k : A -> exc B) : exc B :=
  match m with
  | Ok a => k a
  | Raise e => Raise e
  end.

Notation "x <- m ;; k" := (bind m (fun x => k))
  (at level 61, m at next level, right associativity).

(** A loop body run over a list, stopping at the first exception. *)
Fixpoint map_exc {A B} (f : A -> exc B) (l : list A) : exc (list B) :=
  match l with
  | [] => Ok []
  | x :: l' => y <- f x ;; ys <- map_exc f l' ;; Ok (y :: ys)
  end.

(* ===================================================================== *)
(** ** [src/config.py] and [src/models] *)
(* ===================================================================== *)

(** [class ChunkingConfig(BaseModel)]: four [int] fields with defaults and
    no validator. *)
Record ChunkingConfig := {
  target_tokens : Z;
  max_tokens : Z;
  min_tokens : Z;
  overlap_tokens : Z
}.

Definition default {A} (d : A) (o : option A) : A :=
  match o with
  | Some a => a
  | None => d
  end.

(** [ChunkingConfig(target_tokens=.., max_tokens=.., min_tokens=..,
    overlap_tokens=..)]; an omitted keyword is [None] here.  The arguments
    are integers already, so pydantic's type validation has nothing to
    reject, and the class declares no other check. *)
Definition ChunkingConfig_init (target max_ min_ overlap : option Z)
  : exc ChunkingConfig :=
  Ok {| target_tokens := default 450 target;
        max_tokens := default 800 max_;
        min_tokens := default 50 min_;
        overlap_tokens := default 50 overlap |}.

(** The configurations the specification calls valid. *)
Definition valid_config (c : ChunkingConfig) : Prop :=
  0 < target_tokens c /\ 0 < max_tokens c /\ 0 < min_tokens c
  /\ 0 < overlap_tokens c
  /\ min_tokens c <= target_tokens c <= max_tokens c
  /\ overlap_tokens c < target_tokens c.

(** A marker: the dict built by [_detect_sections] with the keys "type",
    "title", "position" and "level". *)
Module Marker.
Record t := {
  type : str;
  title : str;
  position : Z;
  level : Z
}.
End Marker.

(** [class Section(BaseModel)] of [models/parsed.py].  The scalar fields are
    kept apart from [subsections], so that the same record describes a
    section object on the heap (whose subsections are references) and a node
    of the finished tree. *)
Module Sec.
Record fields := {
  section_type : str;
  title : str;
  text : str;
  char_start : Z;
  char_end : Z;
  level : Z
}.

#[local] Unset Elimination Schemes.
Inductive tree := Node (f : fields) (subsections : list tree).
#[local] Set Elimination Schemes.

Definition data (s : tree) : fields := let (f, _) := s in f.
Definition subsections (s : tree) : list tree := let (_, l) := s in l.
End Sec.

(** [class ParsedBook(BaseModel)] *)
Record ParsedBook := {
  title : str;
  author : str;
  language : str;
  raw_text : str;
  sections : list Sec.tree;
  source_path : str;
  file_format : str
}.

(** [class Chunk(BaseModel)] of [models/chunk.py].  The field [id], a fresh
    uuid4 for every object, is left out: nothing in the chunker reads it. *)
Module Chunk.
Record t := {
  text : str;
  book_id : str;
  book_title : str;
  book_author : str;
  section_path : str;
  section_type : str;
  chunk_index : Z;
  total_chunks_in_section : Z;
  language : str;
  char_start : Z;
  char_end : Z;
  token_count : Z
}.

(** The constructor call of the chunker: [chunk_index] and
    [total_chunks_in_section] take their defaults 0 and 1. *)
Definition new (text book_id book_title book_author section_path
    section_type language : str) (char_start char_end token_count : Z) : t :=
  {| text := text; book_id := book_id; book_title := book_title;
     book_author := book_author; section_path := section_path;
     section_type := section_type; chunk_index := 0;
     total_chunks_in_section := 1; language := language;
     char_start := char_start; char_end := char_end;
     token_count := token_count |}.

(** The two assignments of [_assign_indices] to one chunk object. *)
Definition set_indices (c : t) (i total : Z) : t :=
  {| text := text c; book_id := book_id c; book_title := book_title c;
     book_author := book_author c; section_path := section_path c;
     section_type := section_type c; chunk_index := i;
     total_chunks_in_section := total; language := language c;
     char_start := char_start c; char_end := char_end c;
     token_count := token_count c |}.
End Chunk.

(** What the chunker takes from the Python runtime and this development
    leaves abstract: the double-precision expression
    [int(pos / len(words) * len(text))] of the sliding window, as a function
    of [pos], [len(words)] and [len(text)], and the string [str(uuid4())]. *)
Class Host := {
  float_offset : Z -> Z -> Z -> Z;
  uuid4_str : str
}.

(* ===================================================================== *)
(** ** [src/ingestion/chunker.py] *)
(* ===================================================================== *)

(** The class of the Hebrew letters alef (U+05D0) to tav (U+05EA). *)
Definition heb (c : char) : bool := in_range 1488%N 1514%N c.

(** The class of the double quote, gershayim (U+05F4) and geresh (U+05F3). *)
Definition geresh (c : char) : bool :=
  (c =? 34)%N || (c =? 1524)%N || (c =? 1523)%N.

(** The heading words perek, siman and seif, in Hebrew letters. *)
Definition word_perek : list char := [1508; 1512; 1511]%N.
Definition word_siman : list char := [1505; 1497; 1502; 1503]%N.
Definition word_seif : list char := [1505; 1506; 1497; 1507]%N.
Definition SAMEKH : char := 1505%N.
Definition QOF : char := 1511%N.

(** The five patterns, all compiled with [re.MULTILINE]:
    perek        ^\s*<perek>\s+[alef-tav]{1,4}\s*$
    siman        ^\s*<siman>\s+[alef-tav]{1,4}
    seif         ^\s*<seif>\s+[alef-tav]{1,4}
    halacha      ^\s*\.?([alef-tav]{1,3})\.\s*$
    siman_katan  samekh [quote gershayim geresh]{1,2} qof \s+[alef-tav]{1,4} *)

Definition pat_perek : Re.pattern :=
  [Re.Bol; Re.Star isspace] ++ map Re.Lit word_perek
  ++ [Re.Plus isspace; Re.Between heb 1 4; Re.Star isspace; Re.Eol].
Definition pat_siman : Re.pattern :=
  [Re.Bol; Re.Star isspace] ++ map Re.Lit word_siman
  ++ [Re.Plus isspace; Re.Between heb 1 4].
Definition pat_seif : Re.pattern :=
  [Re.Bol; Re.Star isspace] ++ map Re.Lit word_seif
  ++ [Re.Plus isspace; Re.Between heb 1 4].
Definition pat_halacha : Re.pattern :=
  [Re.Bol; Re.Star isspace; Re.Opt (Re.chr DOT); Re.Between heb 1 3;
   Re.Lit DOT; Re.Star isspace; Re.Eol].
Definition pat_siman_katan : Re.pattern :=
  [Re.Lit SAMEKH; Re.Between geresh 1 2; Re.Lit QOF; Re.Plus isspace;
   Re.Between heb 1 4].

Definition s_perek := lit "perek".
Definition s_siman := lit "siman".
Definition s_seif := lit "seif".
Definition s_halacha := lit "halacha".
Definition s_siman_katan := lit "siman_katan".
Definition s_paragraph := lit "paragraph".

(** The dict [STRUCTURE_PATTERNS], in insertion order. *)
Definition STRUCTURE_PATTERNS : list (str * Re.pattern) :=
  [(s_perek, pat_perek); (s_siman, pat_siman); (s_seif, pat_seif);
   (s_halacha, pat_halacha); (s_siman_katan, pat_siman_katan)].

(** The dict [HIERARCHY_LEVELS]. *)
Definition HIERARCHY_LEVELS : list (str * Z) :=
  [(s_perek, 0); (s_siman, 1); (s_halacha, 2); (s_seif, 3);
   (s_siman_katan, 4); (s_paragraph, 5)].

(** [d[k]] *)
Fixpoint getitem {V} (d : list (str * V)) (k : str) : exc V :=
  match d with
  | [] => Raise KeyError
  | (k', v) :: d' => if str_eqb k' k then Ok v else getitem d' k
  end.

Definition estimate_tokens (text : str) : Z := Z.of_nat (length (split text)).

(** [match.group().strip().rstrip(".").lstrip(".").strip()] *)
Definition marker_title (g : str) : str :=
  strip (lstrip_by (Re.chr DOT) (rstrip_by (Re.chr DOT) (strip g))).

(** The markers of one pattern, in the order [finditer] yields them. *)
Definition markers_of (text : str) (entry : str * Re.pattern)
  : exc (list Marker.t) :=
  let (section_type, pattern) := entry in
  map_exc (fun m =>
             lv <- getitem HIERARCHY_LEVELS section_type ;;
             Ok {| Marker.type := section_type;
                   Marker.title := marker_title (Re.group text m);
                   Marker.position := Z.of_nat (fst m);
                   Marker.level := lv |})
          (Re.finditer pattern text).

(** [markers.sort(key=lambda m: m["position"])]: the sort is stable. *)
Fixpoint insert_marker (m : Marker.t) (l : list Marker.t) : list Marker.t :=
  match l with
  | [] => [m]
  | x :: l' =>
      if Marker.position m <=? Marker.position x then m :: l
      else x :: insert_marker m l'
  end.

Definition sort_markers (l : list Marker.t) : list Marker.t :=
  fold_right insert_marker [] l.

(** *** The section tree

    [_build_section_tree] keeps every new [Section] in two places, the list
    it is attached to and the stack, and later appends to the
    [subsections] of a section reached through the stack.  The sections are
    therefore objects on a heap: a reference is an index into the heap, and
    the [subsections] of an object is a list of references. *)

Definition obj := (Sec.fields * list nat)%type.
Definition heap := list obj.

Record build_state := {
  objs : heap;
  roots : list nat;
  stack : list nat        (* top of the stack first *)
}.

Definition level_at (h : heap) (r : nat) : option Z :=
  option_map (fun o : obj => Sec.level (fst o)) (nth_error h r).

(** [while stack and stack[-1].level >= level: stack.pop()] *)
Fixpoint pop_stack (h : heap) (level : Z) (st : list nat) : list nat :=
  match st with
  | [] => []
  | top :: st' =>
      match level_at h top with
      | Some l => if l >=? level then pop_stack h level st' else st
      | None => st
      end
  end.

(** [objs[r].subsections.append(child)] *)
Fixpoint append_subsection (h : heap) (r child : nat) : heap :=
  match h, r with
  | [], _ => []
  | (f, subs) :: h', O => (f, subs ++ [child]) :: h'
  | o :: h', S r' => o :: append_subsection h' r' child
  end.

(** One iteration of the loop of [_build_section_tree], for a marker and
    the end of its text range. *)
Definition build_step (text : str) (marker : Marker.t) (end_ : Z)
    (s : build_state) : build_state :=
  let start := Marker.position marker in
  let section_text := strip (slice text start end_) in
  let level := Marker.level marker in
  let section :=
    {| Sec.section_type := Marker.type marker;
       Sec.title := Marker.title marker;
       Sec.text := section_text;
       Sec.char_start := start;
       Sec.char_end := end_;
       Sec.level := level |} in
  let ref := length (objs s) in
  let h := objs s ++ [(section, [])] in
  let st := pop_stack h level (stack s) in
  match st with
  | top :: _ =>
      {| objs := append_subsection h top ref; roots := roots s;
         stack := ref :: st |}
  | [] =>
      {| objs := h; roots := roots s ++ [ref]; stack := ref :: st |}
  end.

(** The loop over [enumerate(markers)]: the text of a marker ends at the
    position of the next one, or at the end of the text. *)
Fixpoint build_loop (text : str) (markers : list Marker.t) (s : build_state)
  : build_state :=
  match markers with
  | [] => s
  | marker :: rest =>
      let end_ := match rest with
                  | next :: _ => Marker.position next
                  | [] => len text
                  end in
      build_loop text rest (build_step text marker end_ s)
  end.

(** The trees of the objects [i], [i+1], ... of a heap whose first object
    is number [i].  A reference held by an object points to a later object
    (see [heap_levels] and [trees_represent]), so the trees are built from
    the last object backwards. *)
Fixpoint trees_from (i : nat) (h : heap) : list Sec.tree :=
  match h with
  | [] => []
  | (f, subs) :: h' =>
      let later := trees_from (S i) h' in
      let child r :=
        if (i <? r)%nat then
          match nth_error later (r - S i) with
          | Some t => [t]
          | None => []
          end
        else [] in
      Sec.Node f (flat_map child subs) :: later
  end.

(** The tree an object reference stands for. *)
Definition deref (h : heap) (r : nat) : list Sec.tree :=
  match nth_error (trees_from 0 h) r with
  | Some t => [t]
  | None => []
  end.

(** [roots = []] and [stack = []], on an empty heap. *)
Definition build_init : build_state :=
  {| objs := []; roots := []; stack := [] |}.

Definition _build_section_tree (markers : list Marker.t) (text : str)
  : list Sec.tree :=
  let s := build_loop text markers build_init in
  flat_map (deref (objs s)) (roots s).


(** The first loop of [_detect_sections]: the markers of all patterns, in
    the order of the pattern table. *)
Definition detect_markers (text : str) : exc (list Marker.t) :=
  found <- map_exc (markers_of text) STRUCTURE_PATTERNS ;; Ok (concat found).

Definition _detect_sections (text : str) : exc (list Sec.tree) :=
  markers <- detect_markers text ;;
  match markers with
  | [] => Ok []
  | _ :: _ => Ok (_build_section_tree (sort_markers markers) text)
  end.

(** *** The class [HalachicChunker] *)

Section HalachicChunker.

Context {host : Host}.

(** [self._config] *)
Variable _config : ChunkingConfig.

(** The metadata every helper passes on unchanged. *)
Variables book_id book_title book_author language : str.

Definition _build_section_path (parent_path : str) (section : Sec.fields)
  : str :=
  match parent_path with
  | [] => Sec.title section
  | _ :: _ => parent_path ++ lit " > " ++ Sec.title section
  end.

(** The window of the sliding-window loop that starts at word [pos]:
    [chunk_words[0]] raises on an empty window; otherwise the window is
    one chunk. *)
Definition window_chunk (text : str) (section_path section_type : str)
    (char_offset : Z) (words : list str) (pos end_ : Z) : exc Chunk.t :=
  let chunk_words := slice words pos end_ in
  let chunk_text := join [SPACE] chunk_words in
  match chunk_words with
  | [] => Raise IndexError
  | _ :: _ =>
      let n := Z.of_nat (length words) in
      let char_start := char_offset + float_offset pos n (len text) in
      let char_end := char_offset + float_offset end_ n (len text) in
      Ok (Chunk.new chunk_text book_id book_title book_author section_path
            section_type language char_start char_end
            (Z.of_nat (length chunk_words)))
  end.

(** [while pos < len(words): ...; if end >= len(words): break; pos += step] *)
Equations? window_loop (text : str) (section_path section_type : str)
    (char_offset : Z) (words : list str) (pos : Z) : exc (list Chunk.t)
    by wf (Z.to_nat (Z.of_nat (length words) - pos)) lt :=
  window_loop text section_path section_type char_offset words pos
    with Z_lt_dec pos (Z.of_nat (length words)) => {
    | right _ => Ok [];
    | left _ =>
        let target := target_tokens _config in
        let overlap := overlap_tokens _config in
        let step := Z.max (target - overlap) 1 in
        let end_ := Z.min (pos + target) (Z.of_nat (length words)) in
        c <- window_chunk text section_path section_type char_offset
               words pos end_ ;;
        if end_ >=? Z.of_nat (length words) then Ok [c]
        else
          rest <- window_loop text section_path section_type char_offset
                    words (pos + step) ;;
          Ok (c :: rest) }.
Proof. lia. Qed.

Definition _sliding_window_chunks (text : str)
    (section_path section_type : str) (char_offset : Z)
  : exc (list Chunk.t) :=
  let words := split text in
  match words with
  | [] => Ok []
  | _ :: _ =>
      if Z.of_nat (length words) <=? max_tokens _config then
        Ok [Chunk.new (strip text) book_id book_title book_author
              section_path section_type language char_offset
              (char_offset + len text) (Z.of_nat (length words))]
      else window_loop text section_path section_type char_offset words 0
  end.

(** The branch of [_chunk_sections] for a leaf section. *)
Definition leaf_chunks (section_path : str) (section : Sec.fields)
  : exc (list Chunk.t) :=
  let section_text := Sec.text section in
  let token_count := estimate_tokens section_text in
  if token_count <=? max_tokens _config then
    match strip section_text with
    | _ :: _ =>
        Ok [Chunk.new section_text book_id book_title book_author
              section_path (Sec.section_type section) language
              (Sec.char_start section) (Sec.char_end section) token_count]
    | [] => Ok []
    end
  else
    _sliding_window_chunks section_text section_path
      (Sec.section_type section) (Sec.char_start section).

(** The body of the loop of [_chunk_sections] for one section: the
    recursive call on its subsections, or the leaf branch. *)
Fixpoint chunk_section (parent_path : str) (section : Sec.tree)
  : exc (list Chunk.t) :=
  match section with
  | Sec.Node f subs =>
      let section_path := _build_section_path parent_path f in
      match subs with
      | _ :: _ =>
          r <- map_exc (chunk_section section_path) subs ;; Ok (concat r)
      | [] => leaf_chunks section_path f
      end
  end.

Definition _chunk_sections (sections : list Sec.tree) (parent_path : str)
  : exc (list Chunk.t) :=
  r <- map_exc (chunk_section parent_path) sections ;; Ok (concat r).

(** The pattern of [re.split(r"\n\s*\n", text)]. *)
Definition pat_blank_line : Re.pattern :=
  [Re.Lit NL; Re.Star isspace; Re.Lit NL].

(** The loop of [_chunk_by_paragraphs] over the paragraphs still to do,
    from the cursor [current_pos]. *)
Fixpoint paragraph_loop (text : str) (section_path : str) (char_offset : Z)
    (paragraphs : list str) (current_pos : Z) : exc (list Chunk.t) :=
  match paragraphs with
  | [] => Ok []
  | para :: rest =>
      let para_stripped := strip para in
      match para_stripped with
      | [] =>
          paragraph_loop text section_path char_offset rest
            (current_pos + len para + 1)
      | _ :: _ =>
          let found := find text para current_pos in
          let para_start := if found =? -1 then current_pos else found in
          let para_end := para_start + len para in
          let token_count := estimate_tokens para_stripped in
          cs <- (if token_count >? max_tokens _config then
                   _sliding_window_chunks para_stripped section_path
                     s_paragraph (char_offset + para_start)
                 else
                   Ok [Chunk.new para_stripped book_id book_title
                         book_author section_path s_paragraph language
                         (char_offset + para_start)
                         (char_offset + para_end) token_count]) ;;
          more <- paragraph_loop text section_path char_offset rest
                    para_end ;;
          Ok (cs ++ more)
      end
  end.

Definition _chunk_by_paragraphs (text : str) (section_path : str)
    (char_offset : Z) : exc (list Chunk.t) :=
  paragraph_loop text section_path char_offset
    (Re.split pat_blank_line text) 0.

End HalachicChunker.

(** The test of [_merge_small_chunks] on the last merged chunk [prev] and
    the next chunk. *)
Definition mergeable (_config : ChunkingConfig) (prev chunk : Chunk.t) : bool :=
  (Chunk.token_count prev <? min_tokens _config)
  && (Chunk.token_count prev + Chunk.token_count chunk <=? max_tokens _config)
  && str_eqb (Chunk.section_path prev) (Chunk.section_path chunk).

(** The chunk that replaces [merged[-1]]. *)
Definition merge_pair (prev chunk : Chunk.t) : Chunk.t :=
  Chunk.new (Chunk.text prev ++ [NL; NL] ++ Chunk.text chunk)
    (Chunk.book_id prev) (Chunk.book_title prev) (Chunk.book_author prev)
    (Chunk.section_path prev) (Chunk.section_type prev) (Chunk.language prev)
    (Chunk.char_start prev) (Chunk.char_end chunk)
    (Chunk.token_count prev + Chunk.token_count chunk).

(** The loop of [_merge_small_chunks].  Only the last element of [merged]
    is ever read or replaced, so the loop is written on [prev = merged[-1]]
    and the chunks still to come; the result is [merged] from [prev] on. *)
Fixpoint merge_loop (_config : ChunkingConfig) (prev : Chunk.t)
    (chunks : list Chunk.t) : list Chunk.t :=
  match chunks with
  | [] => [prev]
  | chunk :: rest =>
      if mergeable _config prev chunk
      then merge_loop _config (merge_pair prev chunk) rest
      else prev :: merge_loop _config chunk rest
  end.

Definition _merge_small_chunks (_config : ChunkingConfig)
    (chunks : list Chunk.t) : list Chunk.t :=
  match chunks with
  | [] => []
  | first :: rest => merge_loop _config first rest
  end.

(** *** The index assigner

    [_assign_indices] returns nothing: it assigns to fields of the chunk
    objects, which it reaches through the lists of the dict [groups].  The
    chunk objects live on a heap, and the argument [chunks] is a list of
    references; the result is the heap after the assignments. *)

Definition chunk_heap := list Chunk.t.

(** [groups.setdefault(key, []).append(r)], the dict in insertion order. *)
Fixpoint setdefault_append (groups : list (str * list nat)) (key : str)
    (r : nat) : list (str * list nat) :=
  match groups with
  | [] => [(key, [r])]
  | (k, l) :: groups' =>
      if str_eqb k key then (k, l ++ [r]) :: groups'
      else (k, l) :: setdefault_append groups' key r
  end.

Definition group_chunks (h : chunk_heap) (chunks : list nat)
  : list (str * list nat) :=
  fold_left (fun groups r =>
               match nth_error h r with
               | Some c => setdefault_append groups (Chunk.section_path c) r
               | None => groups
               end)
            chunks [].

(** An assignment to the object at reference [r]. *)
Fixpoint update (h : chunk_heap) (r : nat) (f : Chunk.t -> Chunk.t)
  : chunk_heap :=
  match h, r with
  | [], _ => []
  | c :: h', O => f c :: h'
  | c :: h', S r' => c :: update h' r' f
  end.

(** [for i, chunk in enumerate(path_chunks): chunk.chunk_index = i;
    chunk.total_chunks_in_section = total], from index [i] on. *)
Fixpoint number_group (total : Z) (i : Z) (path_chunks : list nat)
    (h : chunk_heap) : chunk_heap :=
  match path_chunks with
  | [] => h
  | r :: rest =>
      number_group total (i + 1) rest
        (update h r (fun c => Chunk.set_indices c i total))
  end.

Definition _assign_indices (h : chunk_heap) (chunks : list nat) : chunk_heap :=
  fold_left (fun h' group =>
               number_group (Z.of_nat (length (snd group))) 0 (snd group) h')
            (group_chunks h chunks) h.

(** The chunk objects a list of references stands for. *)
Definition read_chunks (h : chunk_heap) (chunks : list nat) : list Chunk.t :=
  flat_map (fun r => match nth_error h r with
                     | Some c => [c]
                     | None => []
                     end) chunks.

(** [self._assign_indices(chunks)] for a list of distinct objects, the k-th
    element being object number k: the list the caller holds afterwards. *)
Definition assign_in_place (chunks : list Chunk.t) : list Chunk.t :=
  let refs := seq 0 (length chunks) in
  read_chunks (_assign_indices chunks refs) refs.

(** [book_id or str(uuid4())]: [None] and the empty string are falsy. *)
Definition effective_book_id {host : Host} (book_id : option str) : str :=
  match book_id with
  | Some ((_ :: _) as b) => b
  | _ => uuid4_str
  end.

(** [HalachicChunker.chunk].  The chunks that reach [_assign_indices] are
    distinct objects: each was built by its own constructor call. *)
Definition chunk {host : Host} (_config : ChunkingConfig)
    (parsed_book : ParsedBook) (book_id : option str) : exc (list Chunk.t) :=
  let effective_book_id := effective_book_id book_id in
  let text := raw_text parsed_book in
  match strip text with
  | [] => Ok []
  | _ :: _ =>
      sections <- _detect_sections text ;;
      chunks <- match sections with
                | _ :: _ =>
                    _chunk_sections _config effective_book_id
                      (title parsed_book) (author parsed_book)
                      (language parsed_book) sections []
                | [] =>
                    _chunk_by_paragraphs _config effective_book_id
                      (title parsed_book) (author parsed_book)
                      (language parsed_book) text [] 0
                end ;;
      let chunks := _merge_small_chunks _config chunks in
      Ok (assign_in_place chunks)
  end.

(* ===================================================================== *)
(** ** Python floats *)
(* ===================================================================== *)

(** The parser divides two integers and compares the quotient with a
    literal.  A finite double is a dyadic number; it is kept as a mantissa
    and an exponent, and compared by value. *)
Module Float.

(** The double [mant * 2 ^ exp]. *)
Record t := { mant : Z; exp : Z }.

Definition compare (x y : t) : comparison :=
  let e := Z.min (exp x) (exp y) in
  (mant x * 2 ^ (exp x - e) ?= mant y * 2 ^ (exp y - e)).

(** [x > y] and [x < y] *)
Definition gtb (x y : t) : bool :=
  match compare x y with
  | Gt => true
  | _ => false
  end.

Definition ltb (x y : t) : bool :=
  match compare x y with
  | Lt => true
  | _ => false
  end.

(** The integer nearest to [n / d], for [d > 0]; a tie goes to the even
    one. *)
Definition round_half_even (n d : Z) : Z :=
  let q := n / d in
  let r := n mod d in
  match 2 * r ?= d with
  | Lt => q
  | Gt => q + 1
  | Eq => if Z.even q then q else q + 1
  end.

(** The exponent [k] with [2 ^ k <= a / b < 2 ^ (k + 1)], for positive [a]
    and [b]. *)
Definition binade (a b : Z) : Z :=
  let k := Z.log2 a - Z.log2 b in
  let reached :=
    if 0 <=? k then b * 2 ^ k <=? a else b <=? a * 2 ^ (- k) in
  if reached then k else k - 1.

Inductive exn := ZeroDivisionError | OverflowError.

(** The outcome of an expression that may raise an arithmetic error. *)
Inductive outcome (A : Type) :=
| Val (a : A)
| Err (e : exn).
Arguments Val {A} a.
Arguments Err {A} e.

Definition bind {A B} (m : outcome A) (k : A -> outcome B) : outcome B :=
  match m with
  | Val a => k a
  | Err e => Err e
  end.

(** [a / b] on two [int]s: the exact quotient rounded to the nearest
    double, ties to even, with 53 significant bits (fewer below
    [2 ^ -1022], where the doubles are the multiples of [2 ^ -1074]). *)
Definition true_divide (a b : Z) : outcome t :=
  if b =? 0 then Err ZeroDivisionError
  else if a =? 0 then Val {| mant := 0; exp := 0 |}
  else
    let n := Z.abs a in
    let d := Z.abs b in
    let e := Z.max (binade n d - 52) (-1074) in
    let m := if 0 <=? e then round_half_even n (d * 2 ^ e)
             else round_half_even (n * 2 ^ (- e)) d in
    if (0 <=? e) && (2 ^ 1024 <=? m * 2 ^ e) then Err OverflowError
    else Val {| mant := Z.sgn a * Z.sgn b * m; exp := e |}.

(** The literals [0.6], [0.4] and [0.5]: the doubles nearest to 6/10, to
    4/10 and to 1/2. *)
Definition lit_0_6 : t := {| mant := 5404319552844595; exp := -53 |}.
Definition lit_0_4 : t := {| mant := 7205759403792794; exp := -54 |}.
Definition lit_0_5 : t := {| mant := 1; exp := -1 |}.

(** The double nearest to [m * 2 ^ e], ties to even; [None] when that is
    beyond the largest double (the result is an infinity). *)
Definition nearest (m e : Z) : option t :=
  if m =? 0 then Some {| mant := 0; exp := 0 |}
  else
    let a := Z.abs m in
    let e' := Z.max (Z.log2 a + e - 52) (-1074) in
    let r := if e' <=? e then a * 2 ^ (e - e')
             else round_half_even a (2 ^ (e' - e)) in
    if (0 <=? e') && (2 ^ 1024 <=? r * 2 ^ e') then None
    else Some {| mant := Z.sgn m * r; exp := e' |}.

(** The conversion of an [int] operand to a double. *)
Definition of_int (n : Z) : outcome t :=
  match nearest n 0 with
  | Some x => Val x
  | None => Err OverflowError
  end.

(** [x * y]; [None] is an infinity. *)
Definition mul (x y : t) : option t :=
  nearest (mant x * mant y) (exp x + exp y).

(** The integer part of a double, towards zero. *)
Definition to_int (x : t) : Z :=
  if 0 <=? exp x then mant x * 2 ^ exp x
  else Z.quot (mant x) (2 ^ (- exp x)).

(** [int(a / b * c)] on three [int]s; [int] raises OverflowError on an
    infinity. *)
Definition int_of_scaled (a b c : Z) : outcome Z :=
  bind (true_divide a b) (fun q =>
  bind (of_int c) (fun y =>
  match mul q y with
  | Some p => Val (to_int p)
  | None => Err OverflowError
  end)).

End Float.

(* ===================================================================== *)
(** ** [src/ingestion/parser.py] *)
(* ===================================================================== *)

(** What the parser reads of a [pathlib.Path]. *)
Module Path.
Record t := { stem : str }.
End Path.

(** [sep.split] with a one-character separator: the pieces between the
    occurrences of the separator, empty pieces included. *)
Fixpoint split_on (sep : char) (s : str) : list str :=
  match s with
  | [] => [[]]
  | c :: s' =>
      if (c =? sep)%N then [] :: split_on sep s'
      else match split_on sep s' with
           | w :: ws => (c :: w) :: ws
           | [] => [[c]]
           end
  end.

(** [re.findall(pattern, text)] for a pattern without groups. *)
Definition findall (p : Re.pattern) (text : str) : list str :=
  map (Re.group text) (Re.finditer p text).

(** The classes of the code points U+0590 to U+05FF (the Hebrew block) and
    of the letters a to z and A to Z, and their union. *)
Definition hebrew_block (c : char) : bool := in_range 1424%N 1535%N c.
Definition latin (c : char) : bool :=
  in_range 97%N 122%N c || in_range 65%N 90%N c.
Definition alpha (c : char) : bool := hebrew_block c || latin c.

(** A pattern of one character class. *)
Definition one_of (cls : char -> bool) : Re.pattern :=
  [Re.Rep cls 1 (Some 1%nat)].

Definition s_he := lit "he".
Definition s_en := lit "en".
Definition s_mixed := lit "mixed".

Definition _detect_language (text : str) : Float.outcome str :=
  match strip text with
  | [] => Float.Val s_he
  | _ :: _ =>
      let hebrew_count :=
        Z.of_nat (length (findall (one_of hebrew_block) text)) in
      let latin_count := Z.of_nat (length (findall (one_of latin) text)) in
      let total := hebrew_count + latin_count in
      if total =? 0 then Float.Val s_he
      else
        Float.bind (Float.true_divide hebrew_count total)
          (fun hebrew_ratio =>
             if Float.gtb hebrew_ratio Float.lit_0_6 then Float.Val s_he
             else if Float.ltb hebrew_ratio Float.lit_0_4 then Float.Val s_en
             else Float.Val s_mixed)
  end.

(** The loop of [_extract_title_from_text] over the first lines: the first
    line that makes a title, if any. *)
Fixpoint title_loop (lines : list str) : Float.outcome (option str) :=
  match lines with
  | [] => Float.Val None
  | line :: rest =>
      let stripped := strip line in
      match stripped with
      | _ :: _ =>
          if len stripped <=? 100 then
            let alpha_chars :=
              Z.of_nat (length (findall (one_of alpha) stripped)) in
            if alpha_chars >? 0 then
              Float.bind
                (Float.true_divide alpha_chars (Z.max (len stripped) 1))
                (fun ratio =>
                   if Float.gtb ratio Float.lit_0_5
                   then Float.Val (Some stripped)
                   else title_loop rest)
            else title_loop rest
          else title_loop rest
      | [] => title_loop rest
      end
  end.

Definition _extract_title_from_text (text : str) (file_path : Path.t)
  : Float.outcome str :=
  match strip text with
  | [] => Float.Val (Path.stem file_path)
  | _ :: _ =>
      let lines := split_on NL (strip text) in
      Float.bind (title_loop (slice lines 0 5))
        (fun found =>
           match found with
           | Some title => Float.Val title
           | None => Float.Val (Path.stem file_path)
           end)
  end.

(* ===================================================================== *)
(** ** Vocabulary of the properties *)
(* ===================================================================== *)

(** *** Words and whitespace *)

(** A word: non-empty and free of whitespace. *)
Definition is_word (w : str) : Prop :=
  w <> [] /\ Forall (fun c => isspace c = false) w.

(** The text starts with whitespace, or is empty. *)
Definition space_headed (s : str) : Prop :=
  match s with
  | [] => True
  | c :: _ => isspace c = true
  end.

(** The words of a chunk list: the words of each text, in order. *)
Definition chunk_words (chunks : list Chunk.t) : list str :=
  concat (map (fun c => split (Chunk.text c)) chunks).

(** [l1] is [l2] with some elements left out: the elements of [l1] occur
    in [l2] in the same order. *)
Inductive subseq {A : Type} : list A -> list A -> Prop :=
| subseq_nil l : subseq [] l
| subseq_take x l1 l2 : subseq l1 l2 -> subseq (x :: l1) (x :: l2)
| subseq_skip x l1 l2 : subseq l1 l2 -> subseq l1 (x :: l2).

(** The words of the leaf sections of a forest, in document order. *)
Definition leaf_words (leaf_list : list Sec.fields) : list str :=
  concat (map (fun f => split (Sec.text f)) leaf_list).

(** The token count of the chunk is the word count of its text. *)
Definition counted (c : Chunk.t) : Prop :=
  Chunk.token_count c = estimate_tokens (Chunk.text c).

(** *** Patterns and markers *)

(** The character before a position of the text, if any. *)
Definition char_before (text : str) (pos : nat) : option char :=
  match pos with
  | O => None
  | S k => nth_error text k
  end.

(** [pattern.match(text, st)] *)
Definition match_at (p : Re.pattern) (text : str) (st : nat) : option nat :=
  Re.match_here p (char_before text st) (skipn st text).

(** Matches of a pattern inside the text, from left to right, each starting
    at or after the end of the one before; the first at or after [last]. *)
Fixpoint chain (p : Re.pattern) (text : str) (last : nat)
    (ms : list (nat * nat)) : Prop :=
  match ms with
  | [] => True
  | (st, n) :: ms' =>
      (last <= st)%nat /\ (st < length text)%nat
      /\ match_at p text st = Some n /\ chain p text (st + n) ms'
  end.

(** The atom consumes whitespace only. *)
Definition space_atom (a : Re.atom) : Prop :=
  match a with
  | Re.Rep cls _ _ => forall c, cls c = true -> isspace c = true
  | _ => True
  end.

(** The least number of characters a pattern can match. *)
Fixpoint min_len (p : Re.pattern) : nat :=
  match p with
  | [] => O
  | Re.Rep _ lo _ :: p' => (lo + min_len p')%nat
  | _ :: p' => min_len p'
  end.


(** [STRUCTURE_PATTERNS] with the level [HIERARCHY_LEVELS] gives each key. *)
Definition pattern_table : list (str * Z * Re.pattern) :=
  [(s_perek, 0, pat_perek); (s_siman, 1, pat_siman); (s_seif, 3, pat_seif);
   (s_halacha, 2, pat_halacha); (s_siman_katan, 4, pat_siman_katan)].

(** The marker of one match. *)
Definition marker_of (text : str) (section_type : str) (level : Z)
    (m : nat * nat) : Marker.t :=
  {| Marker.type := section_type;
     Marker.title := marker_title (Re.group text m);
     Marker.position := Z.of_nat (fst m);
     Marker.level := level |}.

(** *** The section heap and the section trees *)

(** The level and the subsections of the object behind a reference. *)
Definition lvl (h : heap) (r : nat) : Z :=
  match nth_error h r with
  | Some o => Sec.level (fst o)
  | None => 0
  end.

Definition subs_at (h : heap) (r : nat) : list nat :=
  match nth_error h r with
  | Some o => snd o
  | None => []
  end.

(** On the heap every subsection lies at a level strictly greater than its
    parent's, and was created after it. *)
Definition heap_levels (h : heap) : Prop :=
  forall p c, In c (subs_at h p) -> (p < c < length h)%nat /\ lvl h p < lvl h c.

(** The levels on the stack strictly decrease from the top down. *)
Definition stack_sorted (h : heap) (st : list nat) : Prop :=
  StronglySorted (fun a b => lvl h b < lvl h a) st.

(** The states the loop of [_build_section_tree] goes through. *)
Inductive reachable (text : str) : build_state -> Prop :=
| reach_init : reachable text build_init
| reach_step marker end_ s :
    reachable text s -> reachable text (build_step text marker end_ s).

(** What the loop maintains. *)
Definition build_inv (s : build_state) : Prop :=
  Forall (fun r => (r < length (objs s))%nat) (stack s)
  /\ stack_sorted (objs s) (stack s)
  /\ heap_levels (objs s).

(** The tree one sees from a reference by following the references of the
    heap: the fields of the object, over the trees of its subsections. *)
#[local] Unset Elimination Schemes.
Inductive represents (h : heap) : nat -> Sec.tree -> Prop :=
| represents_node r f subs ts :
    nth_error h r = Some (f, subs) ->
    Forall2 (represents h) subs ts ->
    represents h r (Sec.Node f ts).
#[local] Set Elimination Schemes.

(** In the tree every subsection lies at a level strictly greater than its
    parent's. *)
Fixpoint levels_increase (s : Sec.tree) : Prop :=
  match s with
  | Sec.Node f subs =>
      (fix all (l : list Sec.tree) : Prop :=
         match l with
         | [] => True
         | x :: l' =>
             (Sec.level f < Sec.level (Sec.data x) /\ levels_increase x)
             /\ all l'
         end) subs
  end.

(** The leaf sections of a tree, in document order. *)
Fixpoint leaves (s : Sec.tree) : list Sec.fields :=
  match s with
  | Sec.Node f [] => [f]
  | Sec.Node f subs => flat_map leaves subs
  end.

#[local] Unset Implicit Arguments.

(** Induction on section trees, with the property known for every
    subsection. *)
Fixpoint tree_induction (P : Sec.tree -> Prop)
    (step : forall f subs, Forall P subs -> P (Sec.Node f subs))
    (s : Sec.tree) : P s :=
  match s with
  | Sec.Node f subs =>
      step f subs
        ((fix all (l : list Sec.tree) : Forall P l :=
            match l with
            | [] => Forall_nil P
            | x :: l' => Forall_cons x (tree_induction P step x) (all l')
            end) subs)
  end.

#[local] Set Implicit Arguments.

(** *** The merge pass and the indices *)

(** No two neighbours of the list pass the merge test. *)
Fixpoint no_mergeable_neighbours (_config : ChunkingConfig)
    (chunks : list Chunk.t) : Prop :=
  match chunks with
  | a :: (b :: _) as rest =>
      mergeable _config a b = false /\ no_mergeable_neighbours _config rest
  | _ => True
  end.

(** The larger of the window size and the single-chunk bound: the most
    tokens a chunk can carry when the configuration is not known to be
    valid.  It is [max_tokens] when [target_tokens <= max_tokens]. *)
Definition ceiling (c : ChunkingConfig) : Z :=
  Z.max (target_tokens c) (max_tokens c).

(** The chunk carries the section path [p]. *)
Definition same_path (p : str) (c : Chunk.t) : bool :=
  str_eqb (Chunk.section_path c) p.

(** The number of chunks of a list that carry the path [p]. *)
Definition count_path (p : str) (chunks : list Chunk.t) : nat :=
  length (filter (same_path p) chunks).

(** A chunk without its two index fields. *)
Definition forget_indices (c : Chunk.t) : Chunk.t := Chunk.set_indices c 0 1.

(** The numbering the index contract describes: each chunk gets the number
    of earlier chunks with its path, and the size of its group. *)
Fixpoint numbered (seen all rest : list Chunk.t) : list Chunk.t :=
  match rest with
  | [] => []
  | c :: rest' =>
      let p := Chunk.section_path c in
      Chunk.set_indices c (Z.of_nat (count_path p seen))
        (Z.of_nat (count_path p all))
      :: numbered (seen ++ [c]) all rest'
  end.

(** The entry of the dict [groups] for a key, [[]] when there is none. *)
Fixpoint group_of (groups : list (str * list nat)) (key : str) : list nat :=
  match groups with
  | [] => []
  | (k, l) :: groups' => if str_eqb k key then l else group_of groups' key
  end.

(** The object behind the reference carries the path [p]. *)
Definition on_path (h : chunk_heap) (p : str) (r : nat) : bool :=
  match nth_error h r with
  | Some c => same_path p c
  | None => false
  end.

(** The body of the first loop of [_assign_indices]. *)
Definition group_step (h : chunk_heap) (groups : list (str * list nat))
    (r : nat) : list (str * list nat) :=
  match nth_error h r with
  | Some c => setdefault_append groups (Chunk.section_path c) r
  | None => groups
  end.

(** The second loop of [_assign_indices], over the values of [groups]. *)
Definition number_groups (groups : list (str * list nat)) (h : chunk_heap)
  : chunk_heap :=
  fold_left (fun h' group =>
               number_group (Z.of_nat (length (snd group))) 0 (snd group) h')
            groups h.

(** *** Configurations *)

(** The bounds the specification wants a constructor to reject: a bound
    that is not positive, or [max_tokens < min_tokens]. *)
Definition rejected_bounds (c : ChunkingConfig) : Prop :=
  target_tokens c <= 0 \/ max_tokens c <= 0 \/ min_tokens c <= 0
  \/ overlap_tokens c <= 0 \/ max_tokens c < min_tokens c.

(** *** Runs of merged chunks *)

(** The sum of the token counts of a chunk list. *)
Definition total_tokens (chunks : list Chunk.t) : Z :=
  fold_right Z.add 0 (map Chunk.token_count chunks).

(** What the merge pass makes of a run of consecutive chunks: a run of one
    chunk is that chunk; a longer run becomes a new chunk whose text is the
    texts joined by a blank line, whose range goes from the start of the
    first to the end of the last, whose token count is the sum, and which
    takes the other fields from the first.  All chunks of a run carry the
    section path of the result. *)
Definition merged_from (run : list Chunk.t) (m : Chunk.t) : Prop :=
  match run with
  | [] => False
  | [c] => m = c
  | first :: _ :: _ =>
      m = Chunk.new (join [NL; NL] (map Chunk.text run))
            (Chunk.book_id first) (Chunk.book_title first)
            (Chunk.book_author first) (Chunk.section_path first)
            (Chunk.section_type first) (Chunk.language first)
            (Chunk.char_start first) (Chunk.char_end (last run first))
            (total_tokens run)
  end
  /\ Forall (fun c => Chunk.section_path c = Chunk.section_path m) run.

(** *** Windows *)

(** [step = max(target - overlap, 1)] *)
Definition window_step (c : ChunkingConfig) : Z :=
  Z.max (target_tokens c - overlap_tokens c) 1.

(** The metadata of a book on a chunk. *)
Definition carries (book_id : str) (parsed_book : ParsedBook) (c : Chunk.t)
  : Prop :=
  Chunk.book_id c = book_id
  /\ Chunk.book_title c = title parsed_book
  /\ Chunk.book_author c = author parsed_book
  /\ Chunk.language c = language parsed_book.

(** *** The sections of a marker list *)

(** The sections of a tree, each before its subsections (document order). *)
Fixpoint nodes (s : Sec.tree) : list Sec.fields :=
  match s with
  | Sec.Node f subs => f :: flat_map nodes subs
  end.

(** The [Section] the loop of [_build_section_tree] constructs for a marker
    whose text range ends at [end_]. *)
Definition section_of (text : str) (marker : Marker.t) (end_ : Z)
  : Sec.fields :=
  {| Sec.section_type := Marker.type marker;
     Sec.title := Marker.title marker;
     Sec.text := strip (slice text (Marker.position marker) end_);
     Sec.char_start := Marker.position marker;
     Sec.char_end := end_;
     Sec.level := Marker.level marker |}.

(** The sections of a marker list, one per marker and in marker order: the
    range of each ends where the next marker starts, the last at the end of
    the text. *)
Fixpoint sections_of (text : str) (markers : list Marker.t)
  : list Sec.fields :=
  match markers with
  | [] => []
  | marker :: rest =>
      section_of text marker
        (match rest with
         | next :: _ => Marker.position next
         | [] => len text
         end)
      :: sections_of text rest
  end.

(** The objects [lo], ..., [e - 1] of the heap are the objects [refs] and
    their descendants, laid out in document order: each object is followed
    by the blocks of its subsections, one after the other. *)
Inductive spans (h : heap) : nat -> list nat -> nat -> Prop :=
| spans_nil lo : spans h lo [] lo
| spans_cons lo m e cs :
    (lo < length h)%nat ->
    spans h (S lo) (subs_at h lo) m ->
    spans h m cs e ->
    spans h lo (lo :: cs) e.

(** The stack, top first, runs up a chain of last subsections. *)
Fixpoint spine (h : heap) (st : list nat) : Prop :=
  match st with
  | c :: ((p :: _) as st') =>
      (p < c)%nat /\ (exists l, subs_at h p = l ++ [c]) /\ spine h st'
  | _ => True
  end.

(** The bottom of the stack is the last root. *)
Definition rooted (rs st : list nat) : Prop :=
  match st with
  | [] => True
  | _ :: _ => exists l, rs = l ++ [last st O]
  end.

(** The layout the loop of [_build_section_tree] maintains. *)
Definition tiled (s : build_state) : Prop :=
  spans (objs s) 0 (roots s) (length (objs s))
  /\ spine (objs s) (stack s)
  /\ rooted (roots s) (stack s).

(** *** The attachment rule, on trees

    The rule of the section tree in the words of its description, without
    heap or stack: the open sections of a forest are its last tree, the
    last subsection of that tree, and so on down the chain of last
    subsections. *)

(** [on_last g d l] replaces the last element [x] of [l] by the list
    [g x]; the empty list becomes [d]. *)
Fixpoint on_last {A} (g : A -> list A) (d : list A) (l : list A) : list A :=
  match l with
  | [] => d
  | x :: l' =>
      match l' with
      | [] => g x
      | _ :: _ => x :: on_last g d l'
      end
  end.

(** The new section [f] meets the open section [t], the last tree of its
    list: when [t] lies at a strictly lower level, [f] goes on to the
    subsections of [t], and becomes the last of them unless a deeper open
    section takes it; otherwise [f] becomes the tree after [t]. *)
Fixpoint attach (f : Sec.fields) (t : Sec.tree) : list Sec.tree :=
  match t with
  | Sec.Node g subs =>
      if Sec.level g <? Sec.level f
      then [Sec.Node g (on_last (attach f) [Sec.Node f []] subs)]
      else [t; Sec.Node f []]
  end.

(** The forest after the new section [f] is attached as the last
    subsection of the deepest open section of strictly lower level, or as
    the last root when there is none.  (Down the chain of the open sections
    the levels strictly increase, so the open sections of strictly lower
    level are the first ones of the chain; the rule goes down from the
    last root and stops below the last of them.) *)
Definition attach_section (f : Sec.fields) (forest : list Sec.tree)
  : list Sec.tree :=
  on_last (attach f) [Sec.Node f []] forest.

(** The forest that attaching the sections one after the other gives. *)
Definition attach_all (secs : list Sec.fields) : list Sec.tree :=
  fold_left (fun forest f => attach_section f forest) secs [].

(** On the heap: [path] is the chain of the open sections of the
    references [rs], from the last of [rs] down to an object without
    subsections. *)
Fixpoint open_chain (h : heap) (rs : list nat) (path : list nat) : Prop :=
  match path with
  | [] => rs = []
  | r :: path' =>
      (exists l, rs = l ++ [r]) /\ open_chain h (subs_at h r) path'
  end.

(** The consecutive text ranges of a section list meet, and the last one
    ends at [end_]. *)
Fixpoint tiles (secs : list Sec.fields) (end_ : Z) : Prop :=
  match secs with
  | [] => True
  | a :: rest =>
      match rest with
      | [] => Sec.char_end a = end_
      | b :: _ => Sec.char_end a = Sec.char_start b /\ tiles rest end_
      end
  end.

(** The marker positions do not decrease along the list. *)
Fixpoint ascending (l : list Marker.t) : Prop :=
  match l with
  | a :: rest =>
      match rest with
      | [] => True
      | b :: _ => Marker.position a <= Marker.position b /\ ascending rest
      end
  | [] => True
  end.

(** The atom consumes at least one character, and only characters that
    are neither whitespace nor a dot. *)
Definition solid_atom (a : Re.atom) : Prop :=
  match a with
  | Re.Rep cls (S _) _ =>
      forall c, cls c = true -> isspace c = false /\ c <> DOT
  | _ => False
  end.

(** The leaf sections of a tree, each with the titles of the sections on
    the way to it, from the root down; [titles] are those above the tree. *)
Fixpoint leaf_paths (titles : list str) (s : Sec.tree)
  : list (list str * Sec.fields) :=
  match s with
  | Sec.Node f [] => [(titles ++ [Sec.title f], f)]
  | Sec.Node f subs =>
      flat_map (leaf_paths (titles ++ [Sec.title f])) subs
  end.

(** The text of the section is not blank. *)
Definition has_text (f : Sec.fields) : bool :=
  match strip (Sec.text f) with
  | [] => false
  | _ :: _ => true
  end.

(** The chunk carries the character range and the text of the section. *)
Definition chunk_of_section (f : Sec.fields) (c : Chunk.t) : Prop :=
  Chunk.char_start c = Sec.char_start f
  /\ Chunk.char_end c = Sec.char_end f
  /\ Chunk.text c = Sec.text f
  /\ Chunk.section_type c = Sec.section_type f.

(** The text of the chunk is the stripped text of its character range,
    taken relative to [offset], and the range lies in the text. *)
Definition located (text : str) (offset : Z) (c : Chunk.t) : Prop :=
  0 <= Chunk.char_start c - offset <= Chunk.char_end c - offset
  /\ Chunk.char_end c - offset <= len text
  /\ Chunk.text c
     = strip (slice text (Chunk.char_start c - offset)
                (Chunk.char_end c - offset)).

(** *** Vocabulary of the parser properties *)

(** The number of characters of a class in a text. *)
Definition count (cls : char -> bool) (s : str) : Z :=
  Z.of_nat (length (filter cls s)).

(** The language by the share of Hebrew letters among the [h] Hebrew and
    [l] Latin letters: Hebrew above three fifths, and also when there is no
    letter; English below two fifths. *)
Definition language_of_counts (h l : Z) : str :=
  if h + l =? 0 then s_he
  else if 3 * (h + l) <? 5 * h then s_he
  else if 5 * h <? 2 * (h + l) then s_en
  else s_mixed.

(** The line makes a title: stripped, it is not empty, has at most 100
    characters, and more than half of them are letters. *)
Definition title_line (line : str) : bool :=
  let s := strip line in
  match s with
  | [] => false
  | _ :: _ => (len s <=? 100) && (len s <? 2 * count alpha s)
  end.

(** *** Concrete inputs *)

(** A host for evaluating the chunker on concrete inputs: the offsets are
    computed in doubles, as [int(pos / len(words) * len(text))] does (the
    expression raises only for [len(words) = 0] or beyond the range of the
    doubles, which the window loop does not reach), and the uuid is a fixed
    one. *)
Definition example_host : Host :=
  {| float_offset := fun pos n l =>
       match Float.int_of_scaled pos n l with
       | Float.Val z => z
       | Float.Err _ => 0
       end;
     uuid4_str := lit "00000000-0000-4000-8000-000000000000" |}.

(** A book with the given raw text. *)
Definition example_book (raw : str) : ParsedBook :=
  {| title := lit "Book"; author := lit "Author"; language := lit "he";
     raw_text := raw; sections := []; source_path := lit "/book.txt";
     file_format := lit "txt" |}.

(** The default configuration. *)
Definition default_config : ChunkingConfig :=
  {| target_tokens := 450; max_tokens := 800; min_tokens := 50;
     overlap_tokens := 50 |}.

(** A small valid configuration. *)
Definition small_config : ChunkingConfig :=
  {| target_tokens := 3; max_tokens := 4; min_tokens := 2;
     overlap_tokens := 1 |}.

(** The letter alef. *)
Definition ALEF : char := 1488%N.

(** A text with one siman heading and a line of body. *)
Definition siman_text : str :=
  word_siman ++ [SPACE; ALEF; NL] ++ lit "body of the siman".

(** A chunk with the given text, path and token count. *)
Definition plain_chunk (text path : str) (tokens : Z) : Chunk.t :=
  Chunk.new text (lit "id") (lit "Book") (lit "Author") path s_paragraph
    (lit "he") 0 0 tokens.

(** A text without structural markers: two paragraphs. *)
Definition plain_text : str :=
  lit "first paragraph" ++ [NL; NL] ++ lit "second one".

(** A text of seven words. *)
Definition seven_words : str := lit "a b c d e f g".

(** A configuration with [target_tokens = 0]. *)
Definition zero_target_config : ChunkingConfig :=
  {| target_tokens := 0; max_tokens := 2; min_tokens := 1;
     overlap_tokens := 0 |}.

(** The list a call returned, [[]] for a call that raised. *)
Definition returned {A} (r : exc (list A)) : list A :=
  match r with
  | Ok l => l
  | Raise _ => []
  end.

(** The k-th chunk of a list. *)
Definition chunk_at (cs : list Chunk.t) (k : nat) : Chunk.t :=
  nth k cs (plain_chunk [] [] 0).

(** *** The inputs of [tests/test_chunker.py] *)

(** [s * n] *)
Fixpoint times (s : str) (n : nat) : str :=
  match n with
  | O => []
  | S k => s ++ times s k
  end.

(** [sub in s] *)
Definition contains (s sub : str) : bool := negb (find s sub 0 =? -1).

(** [any(p(c) for c in chunks)] and [all(p(c) for c in chunks)] on the
    result of a call that returned; an exception fails the test. *)
Definition any_chunk (p : Chunk.t -> bool) (r : exc (list Chunk.t)) : bool :=
  match r with
  | Ok chunks => existsb p chunks
  | Raise _ => false
  end.

Definition all_chunks (p : Chunk.t -> bool) (r : exc (list Chunk.t)) : bool :=
  match r with
  | Ok chunks => forallb p chunks
  | Raise _ => false
  end.

(** [sub in c.section_path] *)
Definition path_has (sub : str) (c : Chunk.t) : bool :=
  contains (Chunk.section_path c) sub.

(** [len(chunks)], -1 for an exception. *)
Definition count_chunks (r : exc (list Chunk.t)) : Z :=
  match r with
  | Ok chunks => Z.of_nat (length chunks)
  | Raise _ => -1
  end.

(** [chunker.chunk(_make_parsed_book(text))] with the default
    configuration. *)
Definition test_chunk (text : str) : exc (list Chunk.t) :=
  chunk (host := example_host) default_config (example_book text) None.

(** The word shalom. *)
Definition t_shalom : str :=
  [1513; 1500; 1493; 1501]%N.

(** A Hebrew sentence of six words. *)
Definition t_sentence : str :=
  [1499; 1500; 32; 1488; 1491; 1501; 32; 1495; 1497; 1497; 1489; 32; 1500;
  1489; 1512; 1498; 32; 1489; 1512; 1499; 1514; 32; 1492; 1504; 1492; 1504;
  1497; 1503]%N.

(** Two English and two Hebrew words. *)
Definition t_mixed : str :=
  [72; 101; 108; 108; 111; 32; 1513; 1500; 1493; 1501; 32; 87; 111; 114;
  108; 100; 32; 1506; 1493; 1500; 1501]%N.

(** The heading siman alef. *)
Definition t_siman_a : str :=
  [1505; 1497; 1502; 1503; 32; 1488]%N.

(** The heading siman bet. *)
Definition t_siman_b : str :=
  [1505; 1497; 1502; 1503; 32; 1489]%N.

(** The heading seif alef. *)
Definition t_seif_a : str :=
  [1505; 1506; 1497; 1507; 32; 1488]%N.

(** The heading seif bet. *)
Definition t_seif_b : str :=
  [1505; 1506; 1497; 1507; 32; 1489]%N.

(** The heading perek alef. *)
Definition t_perek_a : str :=
  [1508; 1512; 1511; 32; 1488]%N.

(** The heading perek bet. *)
Definition t_perek_b : str :=
  [1508; 1512; 1511; 32; 1489]%N.

(** The path of seif alef under siman alef. *)
Definition t_path_siman_seif : str :=
  [1505; 1497; 1502; 1503; 32; 1488; 32; 62; 32; 1505; 1506; 1497; 1507; 32;
  1488]%N.

(** The repeated unit of test_detects_siman_boundaries, first half. *)
Definition t_unit_siman_seif_1 : str :=
  [1505; 1497; 1502; 1503; 32; 1488; 10; 1505; 1506; 1497; 1507; 32; 1488;
  10; 1514; 1493; 1499; 1503; 32; 1512; 1488; 1513; 1493; 1503; 32; 1513;
  1500; 32; 1505; 1506; 1497; 1507; 32; 1488; 32]%N.

(** The repeated unit of test_detects_siman_boundaries, second half. *)
Definition t_unit_siman_seif_2 : str :=
  [10; 10; 1505; 1497; 1502; 1503; 32; 1489; 10; 1505; 1506; 1497; 1507; 32;
  1488; 10; 1514; 1493; 1499; 1503; 32; 1513; 1504; 1497; 32; 1513; 1500;
  32; 1505; 1506; 1497; 1507; 32; 1488; 32]%N.

(** The repeated unit of test_detects_seif_within_siman, first half. *)
Definition t_unit_seif_a : str :=
  [1505; 1497; 1502; 1503; 32; 1488; 10; 1505; 1506; 1497; 1507; 32; 1488;
  10; 1514; 1493; 1499; 1503; 32; 1513; 1500; 32; 1505; 1506; 1497; 1507;
  32; 1488; 32; 1506; 1501; 32; 1502; 1505; 1508; 1497; 1511; 32; 1502;
  1497; 1500; 1497; 1501; 32; 1499; 1491; 1497; 32; 1500; 1497; 1510; 1493;
  1512; 32; 1495; 1500; 1511; 32]%N.

(** The repeated unit of test_detects_seif_within_siman, second half. *)
Definition t_unit_seif_b : str :=
  [10; 1505; 1506; 1497; 1507; 32; 1489; 10; 1514; 1493; 1499; 1503; 32;
  1513; 1500; 32; 1505; 1506; 1497; 1507; 32; 1489; 32; 1506; 1501; 32;
  1502; 1505; 1508; 1497; 1511; 32; 1502; 1497; 1500; 1497; 1501; 32; 1499;
  1491; 1497; 32; 1500; 1497; 1510; 1493; 1512; 32; 1495; 1500; 1511; 32]%N.

(** The repeated unit of test_section_path_hierarchy. *)
Definition t_unit_hierarchy : str :=
  [1505; 1497; 1502; 1503; 32; 1488; 10; 1505; 1506; 1497; 1507; 32; 1488;
  10; 1514; 1493; 1499; 1503; 32; 1492; 1500; 1499; 1514; 1497; 32; 1495;
  1513; 1493; 1489; 32; 1502; 1488; 1491; 32; 1489; 1504; 1493; 1513; 1488;
  32; 1489; 1512; 1499; 1493; 1514; 32; 1492; 1504; 1492; 1504; 1497; 1503;
  32]%N.

(** The repeated unit of test_siman_katan_detection, first half. *)
Definition t_unit_katan_a : str :=
  [1505; 1497; 1502; 1503; 32; 1488; 10; 1505; 34; 1511; 32; 1488; 10; 1489;
  1497; 1488; 1493; 1512; 32; 1512; 1488; 1513; 1493; 1503; 32; 1513; 1500;
  32; 1492; 1492; 1500; 1499; 1492; 32; 1489; 1506; 1504; 1497; 1497; 1504;
  1497; 32; 1489; 1512; 1499; 1493; 1514; 32]%N.

(** The repeated unit of test_siman_katan_detection, second half. *)
Definition t_unit_katan_b : str :=
  [10; 1505; 34; 1511; 32; 1489; 10; 1489; 1497; 1488; 1493; 1512; 32; 1513;
  1504; 1497; 32; 1513; 1500; 32; 1492; 1492; 1500; 1499; 1492; 32; 1489;
  1506; 1504; 1497; 1497; 1504; 1497; 32; 1489; 1512; 1499; 1493; 1514; 32;
  1492; 1504; 1492; 1504; 1497; 1503; 32]%N.

(** The abbreviation of siman katan. *)
Definition t_katan : str :=
  [1505; 34; 1511]%N.

(** Qof, a space, alef. *)
Definition t_qof_alef : str :=
  [1511; 32; 1488]%N.

(** The repeated unit of test_perek_as_top_level, first half. *)
Definition t_unit_perek_a : str :=
  [1508; 1512; 1511; 32; 1488; 10; 1514; 1493; 1499; 1503; 32; 1513; 1500;
  32; 1508; 1512; 1511; 32; 1512; 1488; 1513; 1493; 1503; 32; 1506; 1501;
  32; 1502; 1505; 1508; 1497; 1511; 32; 1502; 1497; 1500; 1497; 1501; 32;
  1500; 1489; 1491; 1493; 1511; 32; 1488; 1514; 32; 1492; 1495; 1500; 1493;
  1511; 1492; 32]%N.

(** The repeated unit of test_perek_as_top_level, second half. *)
Definition t_unit_perek_b : str :=
  [10; 1508; 1512; 1511; 32; 1489; 10; 1514; 1493; 1499; 1503; 32; 1513;
  1500; 32; 1508; 1512; 1511; 32; 1513; 1504; 1497; 32; 1506; 1501; 32;
  1502; 1505; 1508; 1497; 1511; 32; 1502; 1497; 1500; 1497; 1501; 32; 1500;
  1489; 1491; 1493; 1511; 32; 1488; 1514; 32; 1492; 1495; 1500; 1493; 1511;
  1492; 32]%N.

(** The text of test_merges_small_paragraphs. *)
Definition t_small_paragraphs : str :=
  [1502; 1497; 1500; 1492; 32; 1488; 1495; 1514; 32; 1508; 1492; 10; 10;
  1502; 1497; 1500; 1492; 32; 1513; 1504; 1497; 1497; 1492; 32; 1508; 1492;
  10; 10; 1502; 1497; 1500; 1492; 32; 1513; 1500; 1497; 1513; 1497; 1514;
  32; 1508; 1492]%N.

(** The word of the long texts, with its space. *)
Definition t_word : str :=
  [1502; 1497; 1500; 1492; 32]%N.

(** The text of test_single_short_section. *)
Definition t_short_section : str :=
  [1505; 1497; 1502; 1503; 32; 1488; 10; 1514; 1493; 1499; 1503; 32; 1511;
  1510; 1512]%N.

(** The text of test_whitespace_only. *)
Definition t_whitespace : str :=
  [32; 32; 32; 10; 10; 32; 32; 32; 9; 32; 32]%N.

(** The repeated unit of test_book_id_can_be_injected. *)
Definition t_unit_injected : str :=
  [1505; 1497; 1502; 1503; 32; 1488; 10; 1514; 1493; 1499; 1503; 32]%N.

(** The repeated unit of test_splits_on_double_newline, first half. *)
Definition t_unit_para_1 : str :=
  [1508; 1505; 1511; 1492; 32; 1512; 1488; 1513; 1493; 1504; 1492; 32; 1506;
  1501; 32; 1502; 1505; 1508; 1497; 1511; 32; 1502; 1497; 1500; 1497; 1501;
  32]%N.

(** The repeated unit of test_splits_on_double_newline, second half. *)
Definition t_unit_para_2 : str :=
  [1508; 1505; 1511; 1492; 32; 1513; 1504; 1497; 1497; 1492; 32; 1506; 1501;
  32; 1502; 1505; 1508; 1497; 1511; 32; 1502; 1497; 1500; 1497; 1501; 32]%N.

(** *** The inputs of [tests/test_parser.py] *)

(** The text of test_hebrew_text. *)
Definition t_lang_hebrew : str :=
  [1513; 1500; 1493; 1501; 32; 1506; 1493; 1500; 1501; 32; 1489; 1512;
  1493; 1498; 32; 1492; 1489; 1488]%N.

(** The text of test_mixed_text. *)
Definition t_lang_mixed : str :=
  [1513; 1500; 1493; 1501; 32; 72; 101; 108; 108; 111; 32; 1506; 1493;
  1500; 1501; 32; 87; 111; 114; 108; 100]%N.

(** The text of test_title_from_first_line. *)
Definition t_title_text : str :=
  [1502; 1504; 1495; 1514; 32; 1488; 1497; 1513; 10; 1492; 1500; 1499;
  1493; 1514; 32; 1489; 1512; 1499; 1493; 1514]%N.

(** The text of test_title_from_first_line, the expected title. *)
Definition t_title_line : str :=
  [1502; 1504; 1495; 1514; 32; 1488; 1497; 1513]%N.

(* ===================================================================== *)
(** ** Facts about Python strings *)
(* ===================================================================== *)

Section StrFacts.

Lemma split_cons (c : char) (s : str) :
  split (c :: s) =
  if isspace c then split s
  else match s with
       | [] => [[c]]
       | c' :: _ =>
           if isspace c' then [c] :: split s
           else match split s with
                | w :: ws => (c :: w) :: ws
                | [] => [[c]]
                end
       end.
Proof. destruct s; reflexivity. Qed.

Lemma split_nil_space_headed (s : str) : split s = [] -> space_headed s.
Proof.
  destruct s as [|c s']; simpl; [easy|].
  destruct (isspace c) eqn:Hc; [easy|].
  destruct s' as [|c' s'']; [discriminate|].
  destruct (isspace c'); [discriminate|].
  destruct (split (c' :: s'')); discriminate.
Qed.

Lemma split_all_space (s : str) :
  Forall (fun c => isspace c = true) s -> split s = [].
Proof.
  induction 1 as [|c s' Hc _ IH]; simpl; [easy|]. now rewrite Hc.
Qed.

Lemma split_nil_all_space (s : str) :
  split s = [] -> Forall (fun c => isspace c = true) s.
Proof.
  induction s as [|c s' IH]; intros Hs; [constructor|].
  pose proof (split_nil_space_headed _ Hs) as Hc. simpl in Hc.
  simpl in Hs. rewrite Hc in Hs. constructor; auto.
Qed.

(** Splitting a concatenation at a place where whitespace begins. *)
Lemma split_app (a b : str) :
  space_headed b -> split (a ++ b) = split a ++ split b.
Proof.
  intros Hb. induction a as [|c a' IH]; [reflexivity|].
  change ((c :: a') ++ b) with (c :: (a' ++ b)).
  cbn [split]. rewrite IH.
  destruct (isspace c) eqn:Hc; [reflexivity|].
  destruct a' as [|c' a'']; cbn [app].
  - destruct b as [|c' b']; [reflexivity|].
    simpl in Hb. rewrite Hb. reflexivity.
  - destruct (isspace c') eqn:Hc'; [reflexivity|].
    destruct (split (c' :: a'')) as [|w ws] eqn:Hw.
    + apply split_nil_space_headed in Hw. simpl in Hw. congruence.
    + reflexivity.
Qed.

Lemma split_cons_space (c : char) (s : str) :
  isspace c = true -> split (c :: s) = split s.
Proof. intros Hc. simpl. now rewrite Hc. Qed.

(** The separator of [_merge_small_chunks] keeps the words apart. *)
Lemma split_blank_line (a b : str) :
  split (a ++ [NL; NL] ++ b) = split a ++ split b.
Proof. rewrite split_app; [reflexivity | reflexivity]. Qed.

Lemma split_lstrip (s : str) : split (lstrip_by isspace s) = split s.
Proof.
  induction s as [|c s' IH]; [reflexivity|].
  cbn [lstrip_by]. destruct (isspace c) eqn:Hc.
  - now rewrite IH, split_cons_space.
  - reflexivity.
Qed.

Lemma rstrip_head (p : char -> bool) (c : char) (s r : str) (x : char) :
  rstrip_by p (c :: s) = x :: r -> x = c.
Proof.
  cbn [rstrip_by]. destruct (rstrip_by p s); [destruct (p c)|]; congruence.
Qed.

Lemma split_rstrip (s : str) : split (rstrip_by isspace s) = split s.
Proof.
  induction s as [|c s' IH]; [reflexivity|].
  cbn [rstrip_by].
  destruct (rstrip_by isspace s') as [|x r] eqn:Hr.
  - symmetry in IH. change (split []) with (@nil str) in IH.
    pose proof (split_nil_space_headed _ IH) as Hh.
    destruct (isspace c) eqn:Hc.
    + now rewrite split_cons_space.
    + cbn [split]. rewrite Hc, IH.
      destruct s' as [|c' s'']; [reflexivity|].
      simpl in Hh. now rewrite Hh.
  - destruct s' as [|c' s'']; [discriminate|].
    apply rstrip_head in Hr. subst x.
    rewrite (split_cons c (c' :: r)), (split_cons c (c' :: s'')).
    now rewrite IH.
Qed.

Lemma split_strip (s : str) : split (strip s) = split s.
Proof. unfold strip. now rewrite split_rstrip, split_lstrip. Qed.

Lemma strip_nil_split (s : str) : strip s = [] <-> split s = [].
Proof.
  split; intros Hs.
  - now rewrite <- split_strip, Hs.
  - unfold strip. apply split_nil_all_space in Hs.
    assert (Hl : lstrip_by isspace s = []).
    { induction Hs as [|c s' Hc _ IH]; [reflexivity|]. simpl. now rewrite Hc. }
    now rewrite Hl.
Qed.

Lemma split_word (w : str) : is_word w -> split w = [w].
Proof.
  intros [Hne Hw]. induction Hw as [|c w' Hc Hw' IH]; [easy|].
  cbn [split]. rewrite Hc. destruct w' as [|c' w'']; [reflexivity|].
  inversion Hw' as [|? ? Hc' _]; subst. rewrite Hc'.
  rewrite IH; [reflexivity | discriminate].
Qed.

(** [split] returns words. *)
Lemma split_words (s : str) : Forall is_word (split s).
Proof.
  induction s as [|c s' IH]; [constructor|].
  cbn [split]. destruct (isspace c) eqn:Hc; [exact IH|].
  assert (H1 : is_word [c]) by (split; [discriminate | now constructor]).
  destruct s' as [|c' s'']; [now constructor|].
  destruct (isspace c') eqn:Hc'; [now constructor|].
  destruct (split (c' :: s'')) as [|w ws]; [now constructor|].
  inversion IH as [|? ? [_ Hw] Hws]; subst.
  constructor; [|exact Hws].
  split; [discriminate | now constructor].
Qed.

(** Joining words with a space and splitting again gives the words. *)
Lemma split_join (ws : list str) :
  Forall is_word ws -> split (join [SPACE] ws) = ws.
Proof.
  induction 1 as [|w ws' Hw Hws IH]; [reflexivity|].
  destruct ws' as [|w2 ws2].
  - simpl. now apply split_word.
  - change (join [SPACE] (w :: w2 :: ws2))
      with (w ++ [SPACE] ++ join [SPACE] (w2 :: ws2)).
    rewrite split_app by reflexivity.
    rewrite split_word by exact Hw.
    cbn [app]. rewrite split_cons_space by reflexivity.
    now rewrite IH.
Qed.

Lemma Forall_slice {A} (P : A -> Prop) (l : list A) (lo hi : Z) :
  Forall P l -> Forall P (slice l lo hi).
Proof.
  intros Hl. unfold slice.
  set (a := norm_index l lo). set (n := (norm_index l hi - a)%nat).
  rewrite <- (firstn_skipn a l) in Hl. apply Forall_app in Hl as [_ Hl].
  rewrite <- (firstn_skipn n (skipn a l)) in Hl.
  now apply Forall_app in Hl as [Hl _].
Qed.

Lemma length_slice {A} (l : list A) (lo hi : Z) :
  0 <= lo <= hi -> hi <= Z.of_nat (length l) ->
  Z.of_nat (length (slice l lo hi)) = hi - lo.
Proof.
  intros Hlo Hhi. unfold slice, norm_index.
  destruct (Z.ltb_spec lo 0); [lia|].
  destruct (Z.ltb_spec hi 0); [lia|].
  rewrite length_firstn, length_skipn. lia.
Qed.

End StrFacts.

(* ===================================================================== *)
(** ** The small-chunk merger *)
(* ===================================================================== *)

Section MergeFacts.

Variable _config : ChunkingConfig.

Lemma str_eqb_eq (a b : str) : str_eqb a b = true <-> a = b.
Proof. unfold str_eqb. destruct (list_eq_dec N.eq_dec a b); split; congruence. Qed.

Lemma str_eqb_refl (a : str) : str_eqb a a = true.
Proof. now apply str_eqb_eq. Qed.

Lemma mergeable_true (a b : Chunk.t) :
  mergeable _config a b = true <->
  Chunk.token_count a < min_tokens _config
  /\ Chunk.token_count a + Chunk.token_count b <= max_tokens _config
  /\ Chunk.section_path a = Chunk.section_path b.
Proof.
  unfold mergeable. rewrite !andb_true_iff, Z.ltb_lt, Z.leb_le, str_eqb_eq.
  tauto.
Qed.

Lemma merge_loop_words (chunks : list Chunk.t) : forall prev,
  chunk_words (merge_loop _config prev chunks)
  = split (Chunk.text prev) ++ chunk_words chunks.
Proof.
  induction chunks as [|c rest IH]; intros prev; cbn [merge_loop].
  - reflexivity.
  - destruct (mergeable _config prev c).
    + rewrite IH. cbn [merge_pair Chunk.new Chunk.text].
      rewrite split_blank_line. unfold chunk_words. cbn [map concat].
      now rewrite app_assoc.
    + unfold chunk_words in *. cbn [map concat]. now rewrite <- IH.
Qed.

(** A property of chunks that merging two chunks keeps is kept by the
    merge pass. *)
Lemma merge_loop_Forall (P : Chunk.t -> Prop) :
  (forall a b, P a -> P b -> mergeable _config a b = true ->
               P (merge_pair a b)) ->
  forall chunks prev, P prev -> Forall P chunks ->
                      Forall P (merge_loop _config prev chunks).
Proof.
  intros Hstep. induction chunks as [|c rest IH]; intros prev Hp Hall;
    cbn [merge_loop].
  - now constructor.
  - inversion Hall as [|? ? Hc Hrest]; subst.
    destruct (mergeable _config prev c) eqn:Hm.
    + apply IH; auto.
    + constructor; auto.
Qed.

Lemma merge_Forall (P : Chunk.t -> Prop) :
  (forall a b, P a -> P b -> mergeable _config a b = true ->
               P (merge_pair a b)) ->
  forall chunks, Forall P chunks ->
                 Forall P (_merge_small_chunks _config chunks).
Proof.
  intros Hstep [|c rest] Hall; [constructor|].
  inversion Hall; subst. now apply merge_loop_Forall.
Qed.

(** The head of what the loop returns carries the path of [prev] and at
    least its tokens, and no two neighbours of the result can merge. *)
Lemma merge_loop_neighbours (chunks : list Chunk.t) : forall prev,
  Forall (fun c => 0 <= Chunk.token_count c) chunks ->
  exists r rs,
    merge_loop _config prev chunks = r :: rs
    /\ Chunk.section_path r = Chunk.section_path prev
    /\ Chunk.token_count prev <= Chunk.token_count r
    /\ no_mergeable_neighbours _config (r :: rs).
Proof.
  induction chunks as [|c rest IH]; intros prev Hall; cbn [merge_loop].
  - exists prev, []. cbn. repeat split; lia.
  - inversion Hall as [|? ? Hc Hrest]; subst.
    destruct (mergeable _config prev c) eqn:Hm.
    + destruct (IH (merge_pair prev c) Hrest) as (r & rs & -> & Hp & Ht & Hn).
      exists r, rs. cbn in Hp, Ht. repeat split; auto; lia.
    + destruct (IH c Hrest) as (r & rs & -> & Hp & Ht & Hn).
      exists prev, (r :: rs). repeat split; auto; try lia.
      destruct (mergeable _config prev r) eqn:Hm'; [|reflexivity].
      apply mergeable_true in Hm' as (H1 & H2 & H3).
      assert (mergeable _config prev c = true); [|congruence].
      apply mergeable_true. repeat split; [lia | lia | congruence].
Qed.

Lemma merge_loop_fixed (chunks : list Chunk.t) : forall prev,
  no_mergeable_neighbours _config (prev :: chunks) ->
  merge_loop _config prev chunks = prev :: chunks.
Proof.
  induction chunks as [|c rest IH]; intros prev Hn; cbn [merge_loop].
  - reflexivity.
  - destruct Hn as [Hm Hn]. rewrite Hm. now rewrite IH.
Qed.

Lemma merge_fixed (chunks : list Chunk.t) :
  no_mergeable_neighbours _config chunks ->
  _merge_small_chunks _config chunks = chunks.
Proof. destruct chunks; [reflexivity|]. apply merge_loop_fixed. Qed.

Lemma merge_words (chunks : list Chunk.t) :
  chunk_words (_merge_small_chunks _config chunks) = chunk_words chunks.
Proof.
  destruct chunks as [|c rest]; [reflexivity|].
  cbn [_merge_small_chunks]. now rewrite merge_loop_words.
Qed.

End MergeFacts.

(** C10. The merge pass never loses or reorders content: the words of the
    chunks it returns, concatenated in order, are exactly the words of the
    chunks it was given, concatenated in order. *)
Theorem merge_preserves_words (_config : ChunkingConfig)
    (chunks : list Chunk.t) :
  chunk_words (_merge_small_chunks _config chunks) = chunk_words chunks.
Proof. apply merge_words. Qed.

(** C8, as stated, fails: nothing keeps a token count from being negative,
    and with the valid configuration of target, maximum and minimum 3 the
    three chunks of one section path with the token counts 2, 2 and -1
    are merged into chunks of 2 and 1 tokens; merging these again gives one
    chunk of 3 tokens.  The output of the first pass has two neighbours
    that pass the merge test. *)
Lemma merge_not_idempotent :
  let cfg := {| target_tokens := 3; max_tokens := 3; min_tokens := 3;
                overlap_tokens := 1 |} in
  let chunks := [plain_chunk (lit "a b") [] 2; plain_chunk (lit "c d") [] 2;
                 plain_chunk (lit "e") [] (-1)] in
  valid_config cfg
  /\ map Chunk.token_count (_merge_small_chunks cfg chunks) = [2; 1]
  /\ map Chunk.token_count
       (_merge_small_chunks cfg (_merge_small_chunks cfg chunks)) = [3]
  /\ _merge_small_chunks cfg (_merge_small_chunks cfg chunks)
     <> _merge_small_chunks cfg chunks
  /\ ~ no_mergeable_neighbours cfg (_merge_small_chunks cfg chunks).
Proof.
  cbn zeta. split; [unfold valid_config; cbn; lia|].
  split; [reflexivity|]. split; [reflexivity|].
  split; [vm_compute; discriminate|].
  vm_compute. intros [H _]. discriminate.
Qed.

(** C8, amended.  The small-chunk merger is idempotent on chunks whose
    token counts are counts (not negative): merging its own output returns
    that output unchanged, and in the output no two neighbours share a
    section path while the earlier one is below [min_tokens] and both
    together fit [max_tokens]. *)
Theorem merge_idempotent (_config : ChunkingConfig) (chunks : list Chunk.t) :
  Forall (fun c => 0 <= Chunk.token_count c) chunks ->
  _merge_small_chunks _config (_merge_small_chunks _config chunks)
  = _merge_small_chunks _config chunks
  /\ no_mergeable_neighbours _config (_merge_small_chunks _config chunks)
  /\ (forall i a b,
         nth_error (_merge_small_chunks _config chunks) i = Some a ->
         nth_error (_merge_small_chunks _config chunks) (S i) = Some b ->
         ~ (Chunk.section_path a = Chunk.section_path b
            /\ Chunk.token_count a < min_tokens _config
            /\ Chunk.token_count a + Chunk.token_count b
               <= max_tokens _config)).
Proof.
  intros Hall.
  assert (Hn : no_mergeable_neighbours _config
                 (_merge_small_chunks _config chunks)).
  { destruct chunks as [|c rest]; [exact I|].
    inversion Hall; subst. cbn [_merge_small_chunks].
    destruct (merge_loop_neighbours _config c (chunks := rest))
      as (r & rs & -> & _ & _ & Hn); auto. }
  split; [now apply merge_fixed|]. split; [exact Hn|].
  revert Hn. generalize (_merge_small_chunks _config chunks) as l.
  intros l Hn i. revert l Hn.
  induction i as [|i IH]; intros l Hn a b Ha Hb;
    destruct l as [|x l]; cbn in Ha; try discriminate;
    destruct l as [|y l]; cbn in Hb; try discriminate.
  - injection Ha as <-. injection Hb as <-.
    destruct Hn as [Hm _]. intros (H1 & H2 & H3).
    assert (mergeable _config x y = true); [|congruence].
    now apply mergeable_true.
  - destruct Hn as [_ Hn]. exact (IH (y :: l) Hn a b Ha Hb).
Qed.

(* ===================================================================== *)
(** ** The index assigner *)
(* ===================================================================== *)

Section IndexFacts.

Lemma length_update (h : chunk_heap) (f : Chunk.t -> Chunk.t) : forall r,
  length (update h r f) = length h.
Proof.
  induction h as [|c h' IH]; intros [|r]; cbn; auto.
Qed.

Lemma nth_error_update (h : chunk_heap) (f : Chunk.t -> Chunk.t) :
  forall r r',
    nth_error (update h r f) r'
    = if (r =? r')%nat then option_map f (nth_error h r')
      else nth_error h r'.
Proof.
  induction h as [|c h' IH]; intros r r'.
  - destruct r'; cbn; destruct (r =? _)%nat; destruct r; reflexivity.
  - destruct r, r'; cbn; auto.
Qed.

Lemma NoDup_app_disjoint {A} (l1 l2 : list A) (a : A) :
  NoDup (l1 ++ l2) -> In a l1 -> In a l2 -> False.
Proof.
  induction l1 as [|x l1 IH]; intros Hnd H1 H2; [easy|].
  inversion Hnd as [|? ? Hx Hnd']; subst.
  destruct H1 as [->|H1]; [|now apply IH].
  apply Hx, in_or_app. now right.
Qed.

Lemma number_group_other (total : Z) (l : list nat) : forall i h r,
  ~ In r l -> nth_error (number_group total i l h) r = nth_error h r.
Proof.
  induction l as [|r0 l' IH]; intros i h r Hr; cbn [number_group]; auto.
  rewrite IH by (intros Hin; apply Hr; now right).
  rewrite nth_error_update.
  destruct (Nat.eqb_spec r0 r); [|reflexivity].
  exfalso. apply Hr. now left.
Qed.

Lemma number_group_member (total : Z) (l : list nat) : forall i h j r,
  NoDup l -> nth_error l j = Some r ->
  nth_error (number_group total i l h) r
  = option_map (fun c => Chunk.set_indices c (i + Z.of_nat j) total)
      (nth_error h r).
Proof.
  induction l as [|r0 l' IH]; intros i h j r Hnd Hj.
  - now destruct j.
  - inversion Hnd as [|? ? Hnotin Hnd']; subst. cbn [number_group].
    destruct j as [|j]; cbn in Hj.
    + injection Hj as <-.
      rewrite number_group_other by exact Hnotin.
      rewrite nth_error_update, Nat.eqb_refl.
      now rewrite Z.add_0_r.
    + rewrite (IH _ _ j r Hnd' Hj). rewrite nth_error_update.
      destruct (Nat.eqb_spec r0 r) as [->|_].
      * exfalso. apply Hnotin. eapply nth_error_In; eauto.
      * now replace (i + 1 + Z.of_nat j) with (i + Z.of_nat (S j)) by lia.
Qed.

Lemma number_groups_other (groups : list (str * list nat)) : forall h r,
  ~ In r (concat (map snd groups)) ->
  nth_error (number_groups groups h) r = nth_error h r.
Proof.
  induction groups as [|g gs IH]; intros h r Hr; cbn; auto.
  cbn in Hr. unfold number_groups in IH. rewrite IH.
  - apply number_group_other. intros Hin. apply Hr, in_or_app. now left.
  - intros Hin. apply Hr, in_or_app. now right.
Qed.

Lemma number_groups_member (groups : list (str * list nat)) :
  forall h g j r,
    NoDup (concat (map snd groups)) ->
    In g groups -> nth_error (snd g) j = Some r ->
    nth_error (number_groups groups h) r
    = option_map (fun c => Chunk.set_indices c (Z.of_nat j)
                             (Z.of_nat (length (snd g))))
        (nth_error h r).
Proof.
  induction groups as [|g0 gs IH]; intros h g j r Hnd Hg Hj; [easy|].
  cbn in Hnd. cbn [number_groups fold_left].
  pose proof (NoDup_app_remove_l _ _ Hnd) as Hnd_gs.
  pose proof (NoDup_app_remove_r _ _ Hnd) as Hnd_g0.
  destruct Hg as [<-|Hg].
  - fold (number_groups gs). rewrite number_groups_other.
    + now rewrite (number_group_member _ 0 h j Hnd_g0 Hj).
    + intros Hin. apply nth_error_In in Hj.
      exact (NoDup_app_disjoint _ _ _ Hnd Hj Hin).
  - fold (number_groups gs). rewrite (IH _ g j r Hnd_gs Hg Hj).
    rewrite number_group_other; [reflexivity|].
    intros Hin. apply nth_error_In in Hj.
    assert (Hin' : In r (concat (map snd gs))).
    { apply in_concat. exists (snd g). split; [now apply in_map|exact Hj]. }
    exact (NoDup_app_disjoint _ _ _ Hnd Hin Hin').
Qed.

End IndexFacts.

Section GroupFacts.

Lemma str_eqb_neq (a b : str) : str_eqb a b = false <-> a <> b.
Proof. unfold str_eqb. destruct (list_eq_dec N.eq_dec a b); split; congruence. Qed.

Lemma group_of_setdefault (groups : list (str * list nat)) (k k' : str)
    (r : nat) :
  group_of (setdefault_append groups k r) k'
  = if str_eqb k k' then group_of groups k ++ [r] else group_of groups k'.
Proof.
  induction groups as [|[k0 l] gs IH]; cbn [setdefault_append group_of].
  - destruct (str_eqb k k'); reflexivity.
  - destruct (str_eqb k0 k) eqn:E0; cbn [group_of].
    + apply str_eqb_eq in E0. subst k0.
      destruct (str_eqb k k'); reflexivity.
    + rewrite IH. destruct (str_eqb k0 k') eqn:E1; [|reflexivity].
      apply str_eqb_eq in E1. subst k'. now rewrite (proj2 (str_eqb_neq k k0))
        by (apply str_eqb_neq in E0; congruence).
Qed.

Lemma keys_setdefault (groups : list (str * list nat)) (k k' : str) (r : nat) :
  In k' (map fst (setdefault_append groups k r))
  <-> k' = k \/ In k' (map fst groups).
Proof.
  induction groups as [|[k0 l] gs IH]; cbn [setdefault_append map fst In].
  - intuition.
  - destruct (str_eqb k0 k) eqn:E0; cbn [map fst In].
    + apply str_eqb_eq in E0. subst k0. intuition.
    + rewrite IH. intuition.
Qed.

Lemma keys_NoDup_setdefault (groups : list (str * list nat)) (k : str)
    (r : nat) :
  NoDup (map fst groups) -> NoDup (map fst (setdefault_append groups k r)).
Proof.
  induction groups as [|[k0 l] gs IH]; intros Hnd;
    cbn [setdefault_append map fst].
  - repeat constructor. easy.
  - inversion Hnd as [|? ? Hk0 Hnd']; subst.
    destruct (str_eqb k0 k) eqn:E0; cbn [map fst].
    + now constructor.
    + constructor; [|now apply IH].
      rewrite keys_setdefault. intros [->|Hin]; [|easy].
      now rewrite str_eqb_refl in E0.
Qed.

Lemma refs_setdefault (groups : list (str * list nat)) (k : str) (r : nat) :
  Permutation (concat (map snd (setdefault_append groups k r)))
              (concat (map snd groups) ++ [r]).
Proof.
  induction groups as [|[k0 l] gs IH]; cbn [setdefault_append map snd concat].
  - reflexivity.
  - destruct (str_eqb k0 k); cbn [map snd concat].
    + rewrite <- !app_assoc. apply Permutation_app_head, Permutation_app_comm.
    + rewrite <- app_assoc. now apply Permutation_app_head.
Qed.

Lemma group_of_entry (groups : list (str * list nat)) (k : str)
    (l : list nat) :
  NoDup (map fst groups) -> In (k, l) groups -> group_of groups k = l.
Proof.
  induction groups as [|[k0 l0] gs IH]; intros Hnd Hin; [easy|].
  inversion Hnd as [|? ? Hk0 Hnd']; subst. cbn [group_of].
  destruct Hin as [E|Hin].
  - injection E as -> ->. now rewrite str_eqb_refl.
  - destruct (str_eqb k0 k) eqn:E0; [|now apply IH].
    apply str_eqb_eq in E0. subst k0. exfalso. apply Hk0.
    change k with (fst (k, l)). now apply in_map.
Qed.

Variable h : chunk_heap.

Lemma group_fold_members (refs : list nat) : forall groups k,
  group_of (fold_left (group_step h) refs groups) k
  = group_of groups k ++ filter (on_path h k) refs.
Proof.
  induction refs as [|r rest IH]; intros groups k; cbn [fold_left filter].
  - now rewrite app_nil_r.
  - rewrite IH. remember (on_path h k r) as b eqn:Hb.
    unfold on_path in Hb. unfold group_step.
    destruct (nth_error h r) as [c|]; subst b; [|reflexivity].
    rewrite group_of_setdefault. unfold same_path.
    destruct (str_eqb (Chunk.section_path c) k) eqn:E; [|reflexivity].
    apply str_eqb_eq in E. subst k. now rewrite <- app_assoc.
Qed.

Lemma group_fold_keys (refs : list nat) : forall groups,
  NoDup (map fst groups) ->
  NoDup (map fst (fold_left (group_step h) refs groups)).
Proof.
  induction refs as [|r rest IH]; intros groups Hnd; cbn [fold_left]; auto.
  apply IH. unfold group_step. destruct (nth_error h r); auto.
  now apply keys_NoDup_setdefault.
Qed.

Lemma group_fold_refs (refs : list nat) : forall groups,
  (forall r, In r refs -> (r < length h)%nat) ->
  Permutation (concat (map snd (fold_left (group_step h) refs groups)))
              (concat (map snd groups) ++ refs).
Proof.
  induction refs as [|r rest IH]; intros groups Hv; cbn [fold_left].
  - now rewrite app_nil_r.
  - rewrite IH by (intros; apply Hv; now right).
    unfold group_step.
    destruct (nth_error h r) as [c|] eqn:E.
    + rewrite refs_setdefault, <- app_assoc. reflexivity.
    + apply nth_error_None in E. specialize (Hv r (or_introl eq_refl)). lia.
Qed.

(** What [_assign_indices] leaves in the object behind the [k]-th
    reference of a list of distinct references. *)
Lemma assign_indices_at (refs : list nat) (k r : nat) (c : Chunk.t) :
  NoDup refs ->
  (forall r, In r refs -> (r < length h)%nat) ->
  nth_error refs k = Some r ->
  nth_error h r = Some c ->
  let p := Chunk.section_path c in
  nth_error (_assign_indices h refs) r
  = Some (Chunk.set_indices c
            (Z.of_nat (length (filter (on_path h p) (firstn k refs))))
            (Z.of_nat (length (filter (on_path h p) refs)))).
Proof.
  intros Hnd Hv Hk Hc p.
  change (_assign_indices h refs)
    with (number_groups (fold_left (group_step h) refs []) h).
  set (G := fold_left (group_step h) refs []).
  assert (HG : Permutation (concat (map snd G)) refs)
    by (apply (group_fold_refs refs [] Hv)).
  assert (HndG : NoDup (concat (map snd G))).
  { eapply Permutation_NoDup; [symmetry; exact HG | exact Hnd]. }
  assert (Hin : In r (concat (map snd G))).
  { eapply Permutation_in; [symmetry; exact HG|].
    eapply nth_error_In; eauto. }
  apply in_concat in Hin as (l & Hl & Hrl).
  apply in_map_iff in Hl as ([key l'] & El & Hg). cbn in El. subst l'.
  assert (Hmem : l = filter (on_path h key) refs).
  { rewrite <- (group_of_entry G key l); auto.
    - unfold G. now rewrite group_fold_members.
    - apply group_fold_keys. constructor. }
  assert (Hkey : key = p).
  { rewrite Hmem in Hrl. apply filter_In in Hrl as [_ Hon].
    unfold on_path in Hon. rewrite Hc in Hon.
    apply str_eqb_eq in Hon. now subst p. }
  subst key.
  assert (Hj : nth_error l (length (filter (on_path h p) (firstn k refs)))
               = Some r).
  { rewrite Hmem.
    rewrite <- (firstn_skipn_middle _ _ Hk) at 1.
    rewrite filter_app. cbn [filter].
    assert (Hon : on_path h p r = true).
    { unfold on_path. rewrite Hc. apply str_eqb_refl. }
    rewrite Hon, nth_error_app2 by lia. now rewrite Nat.sub_diag. }
  rewrite (number_groups_member G h (p, l) _ HndG Hg Hj).
  rewrite Hc. cbn [option_map snd]. now rewrite Hmem.
Qed.

End GroupFacts.

Section FreshHeapFacts.

Lemma length_number_group (total : Z) (l : list nat) : forall i h,
  length (number_group total i l h) = length h.
Proof.
  induction l as [|r l' IH]; intros i h; cbn [number_group]; auto.
  now rewrite IH, length_update.
Qed.

Lemma length_assign_indices (h : chunk_heap) (refs : list nat) :
  length (_assign_indices h refs) = length h.
Proof.
  unfold _assign_indices. generalize (group_chunks h refs) as groups.
  intros groups. revert h.
  induction groups as [|g gs IH]; intros h; cbn [fold_left]; auto.
  now rewrite IH, length_number_group.
Qed.

Lemma read_chunks_from (h : chunk_heap) : forall pre,
  read_chunks (pre ++ h) (seq (length pre) (length h)) = h.
Proof.
  induction h as [|c h' IH]; intros pre; [reflexivity|].
  cbn [length seq read_chunks flat_map].
  rewrite nth_error_app2, Nat.sub_diag by lia. cbn [nth_error app].
  f_equal. specialize (IH (pre ++ [c])).
  rewrite <- app_assoc, length_app, Nat.add_1_r in IH. exact IH.
Qed.

Lemma read_chunks_all (h : chunk_heap) :
  read_chunks h (seq 0 (length h)) = h.
Proof. exact (read_chunks_from h []). Qed.

Lemma skipn_nth_error {A} (l : list A) : forall a c,
  nth_error l a = Some c -> skipn a l = c :: skipn (S a) l.
Proof.
  induction l as [|x l' IH]; intros [|a] c Hc; try discriminate.
  - cbn in Hc. now injection Hc as ->.
  - cbn in Hc. cbn [skipn]. now apply IH.
Qed.

Lemma firstn_seq (k : nat) : forall a n,
  (k <= n)%nat -> firstn k (seq a n) = seq a k.
Proof.
  induction k as [|k IH]; intros a [|n] Hk; try reflexivity; [lia|].
  cbn [seq firstn]. f_equal. apply IH. lia.
Qed.

(** Counting the references of a path in a range of a heap is counting
    the chunks of that path in the range. *)
Lemma count_seq (h : chunk_heap) (p : str) (n : nat) : forall a,
  (a + n <= length h)%nat ->
  length (filter (on_path h p) (seq a n))
  = count_path p (firstn n (skipn a h)).
Proof.
  induction n as [|n IH]; intros a Ha; [reflexivity|].
  destruct (nth_error h a) as [c|] eqn:Hc.
  2:{ apply nth_error_None in Hc. lia. }
  rewrite (skipn_nth_error _ _ Hc). cbn [seq firstn filter].
  unfold count_path. cbn [filter]. unfold on_path at 1. rewrite Hc.
  specialize (IH (S a)). unfold count_path in IH.
  destruct (same_path p c); cbn [length]; rewrite IH by lia; reflexivity.
Qed.

Lemma count_path_app (p : str) (l1 l2 : list Chunk.t) :
  count_path p (l1 ++ l2) = (count_path p l1 + count_path p l2)%nat.
Proof. unfold count_path. now rewrite filter_app, length_app. Qed.

Lemma numbered_nth (all rest : list Chunk.t) : forall seen k,
  nth_error (numbered seen all rest) k
  = option_map
      (fun c => Chunk.set_indices c
                  (Z.of_nat (count_path (Chunk.section_path c)
                               (seen ++ firstn k rest)))
                  (Z.of_nat (count_path (Chunk.section_path c) all)))
      (nth_error rest k).
Proof.
  induction rest as [|c rest' IH]; intros seen k.
  - now destruct k.
  - destruct k as [|k]; cbn [numbered nth_error firstn option_map].
    + now rewrite app_nil_r.
    + rewrite IH. now rewrite <- app_assoc.
Qed.

Lemma length_numbered (all rest : list Chunk.t) : forall seen,
  length (numbered seen all rest) = length rest.
Proof.
  induction rest as [|c rest' IH]; intros seen; cbn; auto.
Qed.

(** On distinct objects the index assigner computes the numbering. *)
Lemma assign_in_place_numbered (chunks : list Chunk.t) :
  assign_in_place chunks = numbered [] chunks chunks.
Proof.
  unfold assign_in_place.
  set (refs := seq 0 (length chunks)).
  assert (Hlen : length (_assign_indices chunks refs) = length chunks)
    by apply length_assign_indices.
  unfold refs at 2. rewrite <- Hlen, read_chunks_all.
  apply nth_error_ext. intros k.
  rewrite numbered_nth. cbn [app].
  destruct (nth_error chunks k) as [c|] eqn:Hc; cbn [option_map].
  - assert (Hk : (k < length chunks)%nat)
      by (apply nth_error_Some; congruence).
    assert (Hr : nth_error refs k = Some k).
    { unfold refs. rewrite nth_error_seq.
      destruct (Nat.ltb_spec k (length chunks)); [reflexivity | lia]. }
    rewrite (@assign_indices_at chunks refs k k c); auto.
    + unfold refs. rewrite firstn_seq by lia.
      rewrite !count_seq by lia. cbn [skipn].
      now rewrite firstn_all.
    + apply seq_NoDup.
    + intros r Hin. apply in_seq in Hin. lia.
  - apply nth_error_None. apply nth_error_None in Hc. lia.
Qed.

End FreshHeapFacts.

Section NumberingFacts.

Variable all : list Chunk.t.

Lemma numbered_forget (rest : list Chunk.t) : forall seen,
  map forget_indices (numbered seen all rest) = map forget_indices rest.
Proof.
  induction rest as [|c rest' IH]; intros seen; cbn [numbered map].
  - reflexivity.
  - now rewrite IH.
Qed.

Lemma numbered_count (p : str) (rest : list Chunk.t) : forall seen,
  count_path p (numbered seen all rest) = count_path p rest.
Proof.
  unfold count_path.
  induction rest as [|c rest' IH]; intros seen; cbn [numbered filter].
  - reflexivity.
  - change (same_path p (Chunk.set_indices c _ _)) with (same_path p c).
    destruct (same_path p c); cbn [length]; now rewrite IH.
Qed.

Lemma numbered_indices (p : str) (rest : list Chunk.t) : forall seen,
  map Chunk.chunk_index (filter (same_path p) (numbered seen all rest))
  = map Z.of_nat (seq (count_path p seen) (count_path p rest)).
Proof.
  induction rest as [|c rest' IH]; intros seen; cbn [numbered filter].
  - reflexivity.
  - change (same_path p (Chunk.set_indices c _ _)) with (same_path p c).
    assert (Hcons : count_path p (c :: rest')
                    = ((if same_path p c then 1 else 0)
                       + count_path p rest')%nat).
    { unfold count_path. cbn [filter]. now destruct (same_path p c). }
    assert (Hseen : count_path p (seen ++ [c])
                    = (count_path p seen
                       + (if same_path p c then 1 else 0))%nat).
    { rewrite count_path_app. f_equal. unfold count_path. cbn [filter].
      now destruct (same_path p c). }
    rewrite Hcons. destruct (same_path p c) eqn:E; cbn [map];
      rewrite IH, Hseen.
    + apply str_eqb_eq in E. rewrite E.
      cbn [Chunk.chunk_index Chunk.set_indices Nat.add seq map].
      now rewrite Nat.add_1_r.
    + now rewrite Nat.add_0_r.
Qed.

Lemma numbered_totals (rest : list Chunk.t) : forall seen,
  Forall (fun c => Chunk.total_chunks_in_section c
                   = Z.of_nat (count_path (Chunk.section_path c) all))
         (numbered seen all rest).
Proof.
  induction rest as [|c rest' IH]; intros seen; cbn [numbered];
    constructor; auto.
Qed.

End NumberingFacts.

(** C9. After the index assigner has run on a chunk list: the chunks and
    their order are unchanged but for the two index fields; in every group
    of chunks with one section path the [chunk_index] values are 0, 1, ...,
    size - 1 in list order, so without duplicates or gaps; and every chunk's
    [total_chunks_in_section] is the size of its group. *)
Theorem assign_indices_contract (chunks : list Chunk.t) :
  let out := assign_in_place chunks in
  map forget_indices out = map forget_indices chunks
  /\ (forall p,
         map Chunk.chunk_index (filter (same_path p) out)
         = map Z.of_nat (seq 0 (count_path p out)))
  /\ Forall (fun c => Chunk.total_chunks_in_section c
                      = Z.of_nat (count_path (Chunk.section_path c) out))
            out.
Proof.
  cbn zeta. rewrite assign_in_place_numbered. repeat split.
  - apply numbered_forget.
  - intros p. rewrite numbered_indices, numbered_count. reflexivity.
  - eapply Forall_impl; [|apply numbered_totals].
    intros c Hc. now rewrite numbered_count.
Qed.

(* ===================================================================== *)
(** ** The sliding-window splitter *)
(* ===================================================================== *)

Section SubseqFacts.

Context {A : Type}.

Lemma subseq_refl (l : list A) : subseq l l.
Proof. induction l; constructor; auto. Qed.

Lemma subseq_app (a a' b b' : list A) :
  subseq a a' -> subseq b b' -> subseq (a ++ b) (a' ++ b').
Proof.
  intros Ha Hb. induction Ha as [l|x l1 l2 _ IH|x l1 l2 _ IH]; cbn [app].
  - induction l as [|y l IH]; [exact Hb | now constructor].
  - now constructor.
  - now constructor.
Qed.

Lemma subseq_tail (x : A) (l m : list A) : subseq (x :: l) m -> subseq l m.
Proof.
  induction m as [|y m IH]; intros H; inversion H; subst.
  - now constructor.
  - constructor. auto.
Qed.

Lemma subseq_drop (pre l m : list A) : subseq (pre ++ l) m -> subseq l m.
Proof.
  induction pre as [|x pre IH]; cbn [app]; [auto|].
  intros H. apply IH. eapply subseq_tail; eauto.
Qed.

Lemma subseq_incl (l m : list A) : subseq l m -> incl l m.
Proof.
  induction 1 as [l|x l1 l2 _ IH|x l1 l2 _ IH]; intros y Hy.
  - destruct Hy.
  - destruct Hy as [<-|Hy]; [now left | right; auto].
  - right. auto.
Qed.

End SubseqFacts.

Section SliceFacts.

Context {A : Type}.

Lemma slice_within (l : list A) (lo hi : Z) :
  0 <= lo -> lo <= hi -> hi <= Z.of_nat (length l) ->
  slice l lo hi
  = firstn (Z.to_nat hi - Z.to_nat lo) (skipn (Z.to_nat lo) l).
Proof.
  intros Hlo Hhi Hlen. unfold slice, norm_index.
  destruct (Z.ltb_spec lo 0); [lia|].
  destruct (Z.ltb_spec hi 0); [lia|].
  now rewrite !Z.min_l by lia.
Qed.

Lemma slice_to_end (l : list A) (lo : Z) :
  0 <= lo <= Z.of_nat (length l) ->
  slice l lo (Z.of_nat (length l)) = skipn (Z.to_nat lo) l.
Proof.
  intros Hlo. rewrite slice_within by lia.
  apply firstn_all2. rewrite length_skipn. lia.
Qed.

Lemma skipn_suffix (l : list A) (a b : nat) :
  (b <= a)%nat -> skipn b l = firstn (a - b) (skipn b l) ++ skipn a l.
Proof.
  intros Hab. rewrite <- (firstn_skipn (a - b) (skipn b l)) at 1.
  f_equal. rewrite skipn_skipn. f_equal. lia.
Qed.

End SliceFacts.

Section WindowFacts.

Context {host : Host}.
Variable _config : ChunkingConfig.
Variables book_id book_title book_author language : str.
Variables (text section_path section_type : str) (char_offset : Z).

Lemma window_chunk_inv (words : list str) (pos end_ : Z) (c : Chunk.t) :
  window_chunk book_id book_title book_author language text section_path
    section_type char_offset words pos end_ = Ok c ->
  Chunk.text c = join [SPACE] (slice words pos end_)
  /\ Chunk.token_count c = Z.of_nat (length (slice words pos end_))
  /\ slice words pos end_ <> []
  /\ Chunk.section_path c = section_path
  /\ Chunk.section_type c = section_type.
Proof.
  unfold window_chunk.
  destruct (slice words pos end_) as [|w ws] eqn:E; [discriminate|].
  intros [= <-]. cbn. repeat split. discriminate.
Qed.

Lemma window_chunk_ok (words : list str) (pos end_ : Z) :
  slice words pos end_ <> [] ->
  exists c,
    window_chunk book_id book_title book_author language text section_path
      section_type char_offset words pos end_ = Ok c.
Proof.
  unfold window_chunk. destruct (slice words pos end_); [easy|].
  intros _. eexists. reflexivity.
Qed.

Lemma estimate_join (ws : list str) :
  Forall is_word ws ->
  estimate_tokens (join [SPACE] ws) = Z.of_nat (length ws).
Proof. intros Hw. unfold estimate_tokens. now rewrite split_join. Qed.

(** Whatever the configuration, a window that is emitted carries its
    exact word count, the path and the type it was given. *)
Lemma window_loop_counts (words : list str) (pos : Z) :
  Forall is_word words ->
  forall cs,
    window_loop _config book_id book_title book_author language text
      section_path section_type char_offset words pos = Ok cs ->
    Forall (fun c => Chunk.token_count c = estimate_tokens (Chunk.text c)
                     /\ 0 < Chunk.token_count c
                     /\ Chunk.section_path c = section_path
                     /\ Chunk.section_type c = section_type) cs.
Proof.
  intros Hw.
  funelim (window_loop _config book_id book_title book_author language
             text section_path section_type char_offset words pos);
    intros cs Hcs.
  - destruct (window_chunk _ _ _ _ _ _ _ _ _ _ _) as [c|e] eqn:Ec;
      [|discriminate].
    cbn [bind] in Hcs.
    pose proof (window_chunk_inv _ _ _ Ec) as (Ht & Hn & Hne & Hp & Hty).
    assert (Hc : Chunk.token_count c = estimate_tokens (Chunk.text c)
                 /\ 0 < Chunk.token_count c
                 /\ Chunk.section_path c = section_path
                 /\ Chunk.section_type c = section_type).
    { rewrite Ht, Hn, estimate_join by (now apply Forall_slice).
      repeat split; auto.
      destruct (slice words pos _); [easy | cbn; lia]. }
    destruct (_ >=? _).
    + injection Hcs as <-. now constructor.
    + destruct (window_loop _ _ _ _ _ _ _ _ _ _ _) as [rest|e] eqn:Er;
        [|discriminate].
      injection Hcs as <-. constructor; [exact Hc|].
      eapply H; eauto.
  - injection Hcs as <-. constructor.
Qed.

(** With a positive target the loop returns, and no window is larger
    than the target. *)
Lemma window_loop_valid (words : list str) (pos : Z) :
  0 < target_tokens _config -> 0 <= pos ->
  exists cs,
    window_loop _config book_id book_title book_author language text
      section_path section_type char_offset words pos = Ok cs
    /\ Forall (fun c => Chunk.token_count c <= target_tokens _config) cs.
Proof.
  intros Ht.
  funelim (window_loop _config book_id book_title book_author language
             text section_path section_type char_offset words pos);
    intros Hpos.
  - set (n := Z.of_nat (length words)) in *.
    set (e := Z.min (pos + target_tokens _config) n) in *.
    assert (Hlen : Z.of_nat (length (slice words pos e)) = e - pos)
      by (apply length_slice; lia).
    destruct (window_chunk_ok words pos e) as [c Ec].
    { intros E. rewrite E in Hlen. cbn in Hlen. lia. }
    rewrite Ec. cbn [bind].
    pose proof (window_chunk_inv _ _ _ Ec) as (_ & Hn & _).
    assert (Hc : Chunk.token_count c <= target_tokens _config) by lia.
    destruct (e >=? n).
    + exists [c]. split; [reflexivity | now constructor].
    + destruct (H c Ht) as (rest & -> & Hrest); [lia|].
      exists (c :: rest). split; [reflexivity | now constructor].
  - exists []. split; [reflexivity | constructor].
Qed.

(** With a positive target and an overlap that is not negative the
    windows leave no word out: the words from [pos] on occur, in order, in
    the windows. *)
Lemma window_loop_cover (words : list str) (pos : Z) :
  0 < target_tokens _config -> 0 <= overlap_tokens _config ->
  Forall is_word words -> 0 <= pos ->
  forall cs,
    window_loop _config book_id book_title book_author language text
      section_path section_type char_offset words pos = Ok cs ->
    subseq (skipn (Z.to_nat pos) words) (chunk_words cs).
Proof.
  intros Ht Ho Hw.
  funelim (window_loop _config book_id book_title book_author language
             text section_path section_type char_offset words pos);
    intros Hpos cs Hcs.
  - set (n := Z.of_nat (length words)) in *.
    set (e := Z.min (pos + target_tokens _config) n) in *.
    destruct (window_chunk _ _ _ _ _ _ _ _ _ _ _) as [c|ex] eqn:Ec;
      [|discriminate].
    cbn [bind] in Hcs.
    pose proof (window_chunk_inv _ _ _ Ec) as (Htx & _).
    assert (Hcw : split (Chunk.text c) = slice words pos e).
    { rewrite Htx. apply split_join. now apply Forall_slice. }
    destruct (Z.geb_spec e n) as [Hge|Hlt].
    + injection Hcs as <-. unfold chunk_words. cbn [map concat].
      rewrite Hcw, app_nil_r.
      replace e with n by lia. unfold n.
      rewrite slice_to_end by lia. apply subseq_refl.
    + destruct (window_loop _ _ _ _ _ _ _ _ _ _ _) as [rest|ex] eqn:Er;
        [|discriminate].
      injection Hcs as <-. unfold chunk_words. cbn [map concat].
      fold (chunk_words rest). rewrite Hcw.
      rewrite slice_within by lia.
      pose proof (skipn_suffix words (a := Z.to_nat e) (b := Z.to_nat pos)
                    ltac:(lia)) as Hsuf.
      rewrite Hsuf at 1. clear Hsuf.
      apply subseq_app; [apply subseq_refl|].
      set (p' := pos + Z.max (target_tokens _config - overlap_tokens _config) 1)
        in *.
      assert (Hrest : subseq (skipn (Z.to_nat p') words) (chunk_words rest)).
      { eapply (H c Ht Ho Hw); [lia | reflexivity]. }
      rewrite (skipn_suffix words (a := Z.to_nat e) (b := Z.to_nat p'))
        in Hrest by lia.
      eapply subseq_drop; eauto.
  - injection Hcs as <-.
    rewrite skipn_all2 by lia. constructor.
Qed.

End WindowFacts.

(* ===================================================================== *)
(** ** The chunk assembler *)
(* ===================================================================== *)

Section ExcFacts.

Context {A B : Type}.
Variable f : A -> exc B.

Lemma map_exc_inv (l : list A) : forall ys,
  map_exc f l = Ok ys -> Forall2 (fun x y => f x = Ok y) l ys.
Proof.
  induction l as [|x l' IH]; intros ys H; cbn in H.
  - injection H as <-. constructor.
  - destruct (f x) as [y|] eqn:Ex; [|discriminate]. cbn in H.
    destruct (map_exc f l') as [ys'|]; [|discriminate]. cbn in H.
    injection H as <-. constructor; auto.
Qed.

Lemma map_exc_total (l : list A) :
  Forall (fun x => exists y, f x = Ok y) l -> exists ys, map_exc f l = Ok ys.
Proof.
  induction 1 as [|x l' [y Hy] _ [ys IH]]; cbn.
  - now exists [].
  - rewrite Hy, IH. cbn. now eexists.
Qed.

End ExcFacts.

Lemma Forall_concat {A} (P : A -> Prop) (ls : list (list A)) :
  Forall (Forall P) ls -> Forall P (concat ls).
Proof.
  induction 1; cbn; [constructor | now apply Forall_app].
Qed.

Section AssemblerFacts.

Context {host : Host}.
Variable _config : ChunkingConfig.
Variables book_id book_title book_author language : str.

Let sliding := _sliding_window_chunks _config book_id book_title
                 book_author language.
Let leaf := leaf_chunks _config book_id book_title book_author language.
Let section := chunk_section _config book_id book_title book_author
                 language.
Let paragraphs := paragraph_loop _config book_id book_title book_author
                    language.

Lemma estimate_strip (text : str) :
  estimate_tokens (strip text) = estimate_tokens text.
Proof. unfold estimate_tokens. now rewrite split_strip. Qed.

(** *** The sliding-window splitter as a whole *)

Lemma sliding_counted (text path type : str) (offset : Z) (cs : list Chunk.t) :
  sliding text path type offset = Ok cs ->
  Forall (fun c => counted c /\ Chunk.section_path c = path
                   /\ Chunk.section_type c = type) cs.
Proof.
  unfold sliding, _sliding_window_chunks.
  destruct (split text) as [|w ws] eqn:Ew.
  - intros [= <-]. constructor.
  - destruct (_ <=? _).
    + intros [= <-]. repeat constructor. unfold counted. cbn.
      rewrite estimate_strip. unfold estimate_tokens. now rewrite Ew.
    + intros Hcs. eapply window_loop_counts in Hcs.
      * eapply Forall_impl; [|exact Hcs]. cbn. intros c. tauto.
      * rewrite <- Ew. apply split_words.
Qed.

Lemma sliding_bounded (text path type : str) (offset : Z) :
  0 < target_tokens _config ->
  exists cs,
    sliding text path type offset = Ok cs
    /\ Forall (fun c => Chunk.token_count c <= ceiling _config) cs.
Proof.
  intros Ht. unfold sliding, _sliding_window_chunks, ceiling.
  destruct (split text) as [|w ws] eqn:Ew.
  - exists []. split; [reflexivity | constructor].
  - destruct (Z.leb_spec (Z.of_nat (length (w :: ws))) (max_tokens _config)).
    + eexists. split; [reflexivity|]. repeat constructor. cbn. cbn in *. lia.
    + destruct (window_loop_valid _config book_id book_title book_author
                  language text path type offset (w :: ws) (pos := 0))
        as (cs & Hcs & Hb); [lia | lia|].
      exists cs. split; [exact Hcs|].
      eapply Forall_impl; [|exact Hb]. cbn. intros c. lia.
Qed.

Lemma sliding_cover (text path type : str) (offset : Z) (cs : list Chunk.t) :
  0 < target_tokens _config -> 0 <= overlap_tokens _config ->
  sliding text path type offset = Ok cs ->
  subseq (split text) (chunk_words cs).
Proof.
  intros Ht Ho. unfold sliding, _sliding_window_chunks.
  destruct (split text) as [|w ws] eqn:Ew.
  - intros _. constructor.
  - destruct (_ <=? _).
    + intros [= <-]. unfold chunk_words. cbn.
      rewrite split_strip, Ew, app_nil_r. apply subseq_refl.
    + intros Hcs. apply window_loop_cover in Hcs; auto; [|lia].
      rewrite <- Ew. apply split_words.
Qed.

(** *** Leaf sections *)

Lemma leaf_counted (path : str) (f : Sec.fields) (cs : list Chunk.t) :
  leaf path f = Ok cs -> Forall counted cs.
Proof.
  unfold leaf, leaf_chunks. destruct (_ <=? _).
  - destruct (strip (Sec.text f)); intros [= <-]; repeat constructor.
  - intros Hcs. apply sliding_counted in Hcs.
    eapply Forall_impl; [|exact Hcs]. cbn. tauto.
Qed.

Lemma leaf_bounded (path : str) (f : Sec.fields) :
  0 < target_tokens _config ->
  exists cs,
    leaf path f = Ok cs
    /\ Forall (fun c => Chunk.token_count c <= ceiling _config) cs.
Proof.
  intros Ht. unfold leaf, leaf_chunks.
  destruct (Z.leb_spec (estimate_tokens (Sec.text f)) (max_tokens _config)).
  - destruct (strip (Sec.text f)); eexists; (split; [reflexivity|]);
      repeat constructor. unfold ceiling. cbn. lia.
  - now apply sliding_bounded.
Qed.

Lemma leaf_cover (path : str) (f : Sec.fields) (cs : list Chunk.t) :
  0 < target_tokens _config -> 0 <= overlap_tokens _config ->
  leaf path f = Ok cs -> subseq (split (Sec.text f)) (chunk_words cs).
Proof.
  intros Ht Ho. unfold leaf, leaf_chunks. destruct (_ <=? _).
  - destruct (strip (Sec.text f)) eqn:Es; intros [= <-].
    + apply strip_nil_split in Es. rewrite Es. constructor.
    + unfold chunk_words. cbn. rewrite app_nil_r. apply subseq_refl.
  - now apply sliding_cover.
Qed.

(** *** Section trees *)

Lemma section_unfold (path : str) (f : Sec.fields) (subs : list Sec.tree) :
  section path (Sec.Node f subs)
  = match subs with
    | _ :: _ =>
        r <- map_exc (section (_build_section_path path f)) subs ;;
        Ok (concat r)
    | [] => leaf (_build_section_path path f) f
    end.
Proof. destruct subs; reflexivity. Qed.

Lemma section_Forall (P : Chunk.t -> Prop) :
  (forall path f cs, leaf path f = Ok cs -> Forall P cs) ->
  forall s path cs, section path s = Ok cs -> Forall P cs.
Proof.
  intros Hleaf s. induction s as [f subs IH] using tree_induction.
  intros path cs. rewrite section_unfold.
  destruct subs as [|s1 subs']; [apply Hleaf|].
  set (sp := _build_section_path path f). clearbody sp.
  destruct (map_exc (section sp) (s1 :: subs')) as [r|] eqn:Er;
    [|discriminate].
  intros [= <-]. apply Forall_concat.
  apply map_exc_inv in Er.
  revert IH Er. generalize (s1 :: subs') as l0. intros l0 IH Er.
  revert IH.
  induction Er as [|x y l r' Hx _ IHr]; intros IH; constructor.
  - inversion IH as [|? ? IHx IHl]; subst. exact (IHx _ _ Hx).
  - apply IHr. now inversion IH.
Qed.

Lemma section_total :
  (forall path f, exists cs, leaf path f = Ok cs) ->
  forall s path, exists cs, section path s = Ok cs.
Proof.
  intros Hleaf s. induction s as [f subs IH] using tree_induction.
  intros path. rewrite section_unfold.
  destruct subs as [|s1 subs']; [apply Hleaf|].
  set (sp := _build_section_path path f). clearbody sp.
  destruct (map_exc_total (section sp) (l := s1 :: subs')) as [r ->].
  - eapply Forall_impl; [|exact IH]. cbn. auto.
  - cbn. now eexists.
Qed.

Lemma chunk_words_app (a b : list Chunk.t) :
  chunk_words (a ++ b) = chunk_words a ++ chunk_words b.
Proof. unfold chunk_words. now rewrite map_app, concat_app. Qed.

Lemma leaf_words_app (a b : list Sec.fields) :
  leaf_words (a ++ b) = leaf_words a ++ leaf_words b.
Proof. unfold leaf_words. now rewrite map_app, concat_app. Qed.

(** The chunks of a list of sections cover the leaves of the sections when
    the chunks of each section cover its leaves. *)
Lemma map_section_cover (path : str) (l : list Sec.tree)
    (r : list (list Chunk.t)) :
  Forall (fun s => forall path cs,
              section path s = Ok cs ->
              subseq (leaf_words (leaves s)) (chunk_words cs)) l ->
  Forall2 (fun s cs => section path s = Ok cs) l r ->
  subseq (leaf_words (flat_map leaves l)) (chunk_words (concat r)).
Proof.
  intros IH Er. revert IH.
  induction Er as [|x y l' r' Hx _ IHr]; intros IH; cbn [flat_map concat].
  - constructor.
  - inversion IH as [|? ? IHx IHl]; subst.
    rewrite leaf_words_app, chunk_words_app.
    apply subseq_app; [exact (IHx _ _ Hx) | exact (IHr IHl)].
Qed.

(** With a positive target and an overlap that is not negative, the chunks
    of a section cover the words of its leaves, in document order. *)
Lemma section_cover (s : Sec.tree) :
  0 < target_tokens _config -> 0 <= overlap_tokens _config ->
  forall path cs,
    section path s = Ok cs ->
    subseq (leaf_words (leaves s)) (chunk_words cs).
Proof.
  intros Ht Ho.
  induction s as [f subs IH] using tree_induction.
  intros path cs. rewrite section_unfold.
  destruct subs as [|s1 subs'].
  - intros Hcs. apply leaf_cover in Hcs; auto.
    unfold leaf_words. cbn. now rewrite app_nil_r.
  - set (sp := _build_section_path path f). clearbody sp.
    destruct (map_exc (section sp) (s1 :: subs')) as [r|] eqn:Er;
      [|discriminate].
    intros [= <-]. apply map_exc_inv in Er.
    change (leaves (Sec.Node f (s1 :: subs')))
      with (flat_map leaves (s1 :: subs')).
    eapply map_section_cover; eauto.
Qed.

End AssemblerFacts.

Section ParagraphFacts.

Context {host : Host}.
Variable _config : ChunkingConfig.
Variables book_id book_title book_author language : str.
Variables (text section_path : str) (char_offset : Z).

Let paragraphs := paragraph_loop _config book_id book_title book_author
                    language text section_path char_offset.

Lemma paragraphs_Forall (P : Chunk.t -> Prop) :
  (forall t o cs,
      _sliding_window_chunks _config book_id book_title book_author
        language t section_path s_paragraph o = Ok cs -> Forall P cs) ->
  (forall t cs ce,
      estimate_tokens t <= max_tokens _config ->
      P (Chunk.new t book_id book_title book_author section_path
           s_paragraph language cs ce (estimate_tokens t))) ->
  forall paras pos cs, paragraphs paras pos = Ok cs -> Forall P cs.
Proof.
  intros Hs Hd. unfold paragraphs.
  induction paras as [|para rest IH]; intros pos cs; cbn [paragraph_loop].
  - intros [= <-]. constructor.
  - destruct (strip para) as [|c0 sp] eqn:Es; [apply IH|].
    destruct (Z.gtb_spec (estimate_tokens (c0 :: sp)) (max_tokens _config)).
    + destruct (_sliding_window_chunks _ _ _ _ _ _ _ _ _) as [w|] eqn:Ew;
        [|discriminate]. cbn [bind].
      destruct (paragraph_loop _ _ _ _ _ _ _ _ _ _) as [more|] eqn:Em;
        [|discriminate]. cbn [bind].
      intros [= <-]. apply Forall_app. split; eauto.
    + cbn [bind].
      destruct (paragraph_loop _ _ _ _ _ _ _ _ _ _) as [more|] eqn:Em;
        [|discriminate]. cbn [bind].
      intros [= <-]. constructor; eauto.
Qed.

Lemma paragraphs_bounded :
  0 < target_tokens _config ->
  forall paras pos,
  exists cs,
    paragraphs paras pos = Ok cs
    /\ Forall (fun c => Chunk.token_count c <= ceiling _config) cs.
Proof.
  intros Ht. unfold paragraphs.
  induction paras as [|para rest IH]; intros pos; cbn [paragraph_loop].
  - exists []. split; [reflexivity | constructor].
  - destruct (strip para) as [|c0 sp] eqn:Es; [apply IH|].
    destruct (Z.gtb_spec (estimate_tokens (c0 :: sp)) (max_tokens _config)).
    + match goal with
      | |- context [_sliding_window_chunks ?c ?b ?t ?a ?l ?x ?p ?ty ?o] =>
          destruct (sliding_bounded c b t a l x p ty o Ht)
            as (w & -> & Hw)
      end.
      cbn [bind].
      match goal with
      | |- context [paragraph_loop _ _ _ _ _ _ _ _ rest ?q] =>
          destruct (IH q) as (more & -> & Hm)
      end.
      cbn [bind]. eexists. split; [reflexivity|]. now apply Forall_app.
    + cbn [bind].
      match goal with
      | |- context [paragraph_loop _ _ _ _ _ _ _ _ rest ?q] =>
          destruct (IH q) as (more & -> & Hm)
      end.
      cbn [bind]. eexists. split; [reflexivity|].
      constructor; [unfold ceiling; cbn; lia | exact Hm].
Qed.

Lemma paragraphs_cover :
  0 < target_tokens _config -> 0 <= overlap_tokens _config ->
  forall paras pos cs,
    paragraphs paras pos = Ok cs ->
    subseq (concat (map split paras)) (chunk_words cs).
Proof.
  intros Ht Ho. unfold paragraphs.
  induction paras as [|para rest IH]; intros pos cs; cbn [paragraph_loop].
  - intros _. constructor.
  - cbn [map concat]. rewrite <- (split_strip para).
    destruct (strip para) as [|c0 sp] eqn:Es; [apply IH|].
    destruct (Z.gtb_spec (estimate_tokens (c0 :: sp)) (max_tokens _config)).
    + destruct (_sliding_window_chunks _ _ _ _ _ _ _ _ _) as [w|] eqn:Ew;
        [|discriminate]. cbn [bind].
      destruct (paragraph_loop _ _ _ _ _ _ _ _ _ _) as [more|] eqn:Em;
        [|discriminate]. cbn [bind].
      intros [= <-]. unfold chunk_words. rewrite map_app, concat_app.
      apply subseq_app.
      * eapply sliding_cover; eauto.
      * eapply IH; eauto.
    + cbn [bind].
      destruct (paragraph_loop _ _ _ _ _ _ _ _ _ _) as [more|] eqn:Em;
        [|discriminate]. cbn [bind].
      intros [= <-]. unfold chunk_words. cbn [map concat Chunk.text Chunk.new].
      apply subseq_app; [apply subseq_refl|].
      eapply IH; eauto.
Qed.

End ParagraphFacts.

Section DetectFacts.

Lemma map_exc_pure {A B} (f : A -> exc B) (g : A -> B) (l : list A) :
  (forall x, f x = Ok (g x)) -> map_exc f l = Ok (map g l).
Proof.
  intros Hf. induction l as [|x l' IH]; cbn; [reflexivity|].
  now rewrite Hf, IH.
Qed.

(** No lookup in [HIERARCHY_LEVELS] fails: the marker scan returns the
    markers of the five patterns, pattern after pattern. *)
Lemma detect_markers_eq (text : str) :
  detect_markers text
  = Ok (flat_map (fun e : str * Z * Re.pattern =>
                    let '(ty, lv, pat) := e in
                    map (marker_of text ty lv) (Re.finditer pat text))
                 pattern_table).
Proof.
  unfold detect_markers, STRUCTURE_PATTERNS, pattern_table.
  cbn [map_exc markers_of flat_map].
  rewrite (map_exc_pure _ (marker_of text s_perek 0)) by reflexivity.
  rewrite (map_exc_pure _ (marker_of text s_siman 1)) by reflexivity.
  rewrite (map_exc_pure _ (marker_of text s_seif 3)) by reflexivity.
  rewrite (map_exc_pure _ (marker_of text s_halacha 2)) by reflexivity.
  rewrite (map_exc_pure _ (marker_of text s_siman_katan 4)) by reflexivity.
  cbn [bind concat]. now rewrite !app_nil_r.
Qed.

Lemma detect_sections_total (text : str) :
  exists sections, _detect_sections text = Ok sections.
Proof.
  unfold _detect_sections. rewrite detect_markers_eq. cbn [bind].
  destruct (flat_map _ _); now eexists.
Qed.

End DetectFacts.

(* ===================================================================== *)
(** ** The pipeline [HalachicChunker.chunk] *)
(* ===================================================================== *)

Section PipelineFacts.

Context {host : Host}.
Variable _config : ChunkingConfig.

Lemma numbered_Forall (P : Chunk.t -> Prop) (all rest : list Chunk.t) :
  (forall c i t, P c -> P (Chunk.set_indices c i t)) ->
  forall seen, Forall P rest -> Forall P (numbered seen all rest).
Proof.
  intros Hset.
  induction rest as [|c rest' IH]; intros seen Hall; cbn [numbered].
  - constructor.
  - inversion Hall; subst. constructor; auto.
Qed.

Lemma assign_in_place_Forall (P : Chunk.t -> Prop) (chunks : list Chunk.t) :
  (forall c i t, P c -> P (Chunk.set_indices c i t)) ->
  Forall P chunks -> Forall P (assign_in_place chunks).
Proof.
  intros Hset Hall. rewrite assign_in_place_numbered.
  now apply numbered_Forall.
Qed.

Lemma merge_counted (chunks : list Chunk.t) :
  Forall counted chunks ->
  Forall counted (_merge_small_chunks _config chunks).
Proof.
  apply merge_Forall. intros a b Ha Hb _. unfold counted in *.
  cbn [merge_pair Chunk.new Chunk.token_count Chunk.text].
  rewrite Ha, Hb. unfold estimate_tokens.
  rewrite split_blank_line, length_app. lia.
Qed.

Lemma merge_bounded (chunks : list Chunk.t) :
  Forall (fun c => Chunk.token_count c <= ceiling _config) chunks ->
  Forall (fun c => Chunk.token_count c <= ceiling _config)
         (_merge_small_chunks _config chunks).
Proof.
  apply merge_Forall. intros a b _ _ Hm.
  apply mergeable_true in Hm as (_ & Hm & _).
  unfold ceiling. cbn [merge_pair Chunk.new Chunk.token_count]. lia.
Qed.

(** A call of [chunk] that returns went through the four stages. *)
Lemma chunk_inv (parsed_book : ParsedBook) (book_id : option str)
    (out : list Chunk.t) :
  chunk _config parsed_book book_id = Ok out ->
  (strip (raw_text parsed_book) = [] /\ out = [])
  \/ exists sections pre,
      _detect_sections (raw_text parsed_book) = Ok sections
      /\ match sections with
         | _ :: _ =>
             _chunk_sections _config (effective_book_id book_id)
               (title parsed_book) (author parsed_book)
               (language parsed_book) sections []
         | [] =>
             _chunk_by_paragraphs _config (effective_book_id book_id)
               (title parsed_book) (author parsed_book)
               (language parsed_book) (raw_text parsed_book) [] 0
         end = Ok pre
      /\ out = assign_in_place (_merge_small_chunks _config pre).
Proof.
  unfold chunk.
  destruct (strip (raw_text parsed_book)) as [|c0 t] eqn:Es.
  - intros [= <-]. now left.
  - intros H. right.
    destruct (_detect_sections (raw_text parsed_book)) as [sections|];
      [|discriminate].
    cbn [bind] in H. exists sections.
    match type of H with
    | bind ?m _ = _ => destruct m as [pre|] eqn:Ea; [|discriminate]
    end.
    cbn [bind] in H. injection H as <-. exists pre. auto.
Qed.

Lemma sections_unfold (book_id book_title book_author language : str)
    (sections : list Sec.tree) (path : str) :
  _chunk_sections _config book_id book_title book_author language
    sections path
  = (r <- map_exc (chunk_section _config book_id book_title book_author
                     language path) sections ;;
     Ok (concat r)).
Proof. reflexivity. Qed.

Lemma sections_Forall (P : Chunk.t -> Prop)
    (book_id book_title book_author language : str) :
  (forall path f cs,
      leaf_chunks _config book_id book_title book_author language path f
      = Ok cs -> Forall P cs) ->
  forall sections path cs,
    _chunk_sections _config book_id book_title book_author language
      sections path = Ok cs ->
    Forall P cs.
Proof.
  intros Hleaf sections path cs. rewrite sections_unfold.
  destruct (map_exc _ sections) as [r|] eqn:Er; [|discriminate].
  intros [= <-]. apply Forall_concat. apply map_exc_inv in Er.
  induction Er as [|x y l r' Hx _ IHr]; constructor; auto.
  eapply section_Forall; eauto.
Qed.

Lemma sections_total (book_id book_title book_author language : str) :
  (forall path f, exists cs,
      leaf_chunks _config book_id book_title book_author language path f
      = Ok cs) ->
  forall sections path, exists cs,
    _chunk_sections _config book_id book_title book_author language
      sections path = Ok cs.
Proof.
  intros Hleaf sections path. rewrite sections_unfold.
  destruct (map_exc_total
              (chunk_section _config book_id book_title book_author
                 language path) (l := sections)) as [r ->].
  - apply Forall_forall. intros s _. now apply section_total.
  - cbn. now eexists.
Qed.

(** Every chunk the assembler emits carries its word count. *)
Lemma assembled_counted (parsed_book : ParsedBook) (book_id : option str)
    (sections : list Sec.tree) (pre : list Chunk.t) :
  match sections with
  | _ :: _ =>
      _chunk_sections _config (effective_book_id book_id)
        (title parsed_book) (author parsed_book)
        (language parsed_book) sections []
  | [] =>
      _chunk_by_paragraphs _config (effective_book_id book_id)
        (title parsed_book) (author parsed_book)
        (language parsed_book) (raw_text parsed_book) [] 0
  end = Ok pre ->
  Forall counted pre.
Proof.
  destruct sections as [|s ss].
  - unfold _chunk_by_paragraphs. apply paragraphs_Forall.
    + intros t o cs Hcs. apply sliding_counted in Hcs.
      eapply Forall_impl; [|exact Hcs]. cbn. tauto.
    + intros. reflexivity.
  - apply sections_Forall. intros path f cs. apply leaf_counted.
Qed.

(** With a positive target the assembler returns, and within the
    ceiling. *)
Lemma assembled_bounded (parsed_book : ParsedBook) (book_id : option str)
    (sections : list Sec.tree) :
  0 < target_tokens _config ->
  exists pre,
    match sections with
    | _ :: _ =>
        _chunk_sections _config (effective_book_id book_id)
          (title parsed_book) (author parsed_book)
          (language parsed_book) sections []
    | [] =>
        _chunk_by_paragraphs _config (effective_book_id book_id)
          (title parsed_book) (author parsed_book)
          (language parsed_book) (raw_text parsed_book) [] 0
    end = Ok pre
    /\ Forall (fun c => Chunk.token_count c <= ceiling _config) pre.
Proof.
  intros Ht. destruct sections as [|s ss].
  - apply paragraphs_bounded. exact Ht.
  - destruct (sections_total (effective_book_id book_id)
                (title parsed_book) (author parsed_book)
                (language parsed_book)) with (sections := s :: ss)
                (path := @nil char) as [pre Hpre].
    + intros path f.
      destruct (leaf_bounded _config (effective_book_id book_id)
                  (title parsed_book) (author parsed_book)
                  (language parsed_book) path f Ht) as (cs & Hcs & _).
      now exists cs.
    + exists pre. split; [exact Hpre|].
      revert Hpre. apply sections_Forall. intros path f cs Hcs.
      destruct (leaf_bounded _config (effective_book_id book_id)
                  (title parsed_book) (author parsed_book)
                  (language parsed_book) path f Ht) as (cs' & Hcs' & Hb).
      congruence.
Qed.

(** With a positive target [chunk] returns, whatever the other bounds,
    and within the ceiling. *)
Lemma chunk_bounded (parsed_book : ParsedBook) (book_id : option str) :
  0 < target_tokens _config ->
  exists out,
    chunk _config parsed_book book_id = Ok out
    /\ Forall (fun c => Chunk.token_count c <= ceiling _config) out.
Proof.
  intros Ht.
  unfold chunk. destruct (strip (raw_text parsed_book)) as [|c0 t0].
  { exists []. split; [reflexivity | constructor]. }
  destruct (detect_sections_total (raw_text parsed_book)) as [sections ->].
  cbn [bind].
  destruct (assembled_bounded parsed_book book_id sections Ht)
    as (pre & Hpre & Hb).
  rewrite Hpre. cbn [bind].
  eexists. split; [reflexivity|].
  apply (@assign_in_place_Forall
           (fun c => Chunk.token_count c <= ceiling _config));
    [now intros x i t|].
  now apply merge_bounded.
Qed.

Lemma chunk_total (parsed_book : ParsedBook) (book_id : option str) :
  0 < target_tokens _config ->
  exists out, chunk _config parsed_book book_id = Ok out.
Proof.
  intros Ht. destruct (chunk_bounded parsed_book book_id Ht) as (out & H & _).
  now exists out.
Qed.

End PipelineFacts.

(** C7. For every chunk in the final output of [chunk], chunks produced by
    the merge pass included, [token_count] is the whitespace-delimited word
    count of the chunk's text; and with a valid configuration [chunk] does
    return its output. *)
Theorem token_count_is_word_count {host : Host} (_config : ChunkingConfig)
    (parsed_book : ParsedBook) (book_id : option str) :
  (valid_config _config ->
   exists out, chunk _config parsed_book book_id = Ok out)
  /\ (forall out,
         chunk _config parsed_book book_id = Ok out ->
         Forall (fun c => Chunk.token_count c
                          = Z.of_nat (length (split (Chunk.text c)))) out).
Proof.
  split.
  - intros (Ht & _). now apply chunk_total.
  - intros out Hout. apply chunk_inv in Hout as [[_ ->]|Hout]; [constructor|].
    destruct Hout as (sections & pre & _ & Hpre & ->).
    apply assembled_counted in Hpre.
    apply (@assign_in_place_Forall counted); [now intros c i t|].
    now apply merge_counted.
Qed.

(** C1. With a valid configuration [chunk] returns, and every chunk it
    returns has [token_count <= max_tokens]: the bound holds at the leaf
    emission, in the sliding window and through the merge pass.  (A run
    without whitespace counts as one token, so it never exceeds the
    bound.) *)
Theorem token_ceiling {host : Host} (_config : ChunkingConfig)
    (parsed_book : ParsedBook) (book_id : option str) :
  valid_config _config ->
  exists out,
    chunk _config parsed_book book_id = Ok out
    /\ Forall (fun c => Chunk.token_count c <= max_tokens _config) out.
Proof.
  intros (Ht & Hm & _ & _ & [_ Htm] & _).
  destruct (chunk_bounded _config parsed_book book_id Ht) as (out & Hout & Hb).
  exists out. split; [exact Hout|].
  eapply Forall_impl; [|exact Hb]. unfold ceiling. cbn. intros c. lia.
Qed.

(* ===================================================================== *)
(** ** Configuration *)
(* ===================================================================== *)

(** C3, as stated, fails: a configuration with [max_tokens < min_tokens]
    and one with [target_tokens = 0] are both accepted by the constructor,
    and the second is discovered only in the middle of the pipeline, where
    the sliding window raises [IndexError] on its empty first window. *)
Lemma invalid_config_accepted :
  (exists c,
      ChunkingConfig_init (Some 450) (Some 10) (Some 50) (Some 50) = Ok c
      /\ rejected_bounds c)
  /\ (exists c,
         ChunkingConfig_init (Some 0) (Some 1) (Some 1) (Some 1) = Ok c
         /\ rejected_bounds c
         /\ chunk (host := example_host) c (example_book (lit "a b c"))
              (Some (lit "id"))
            = Raise IndexError).
Proof.
  split.
  - eexists. split; [reflexivity|]. unfold rejected_bounds. cbn. lia.
  - eexists. split; [reflexivity|]. split.
    + unfold rejected_bounds. cbn. lia.
    + vm_compute. reflexivity.
Qed.

(** C3, amended.  The constructor of [ChunkingConfig] checks no bound: it
    returns the four integers it is given (450, 800, 50 and 50 for those
    left out), whatever they are.  Nor is an invalid configuration rejected
    later, unless [target_tokens] is not positive: with a positive target
    [chunk] returns for every book. *)
Theorem config_not_validated {host : Host} (target max_ min_ overlap : option Z) :
  ChunkingConfig_init target max_ min_ overlap
  = Ok {| target_tokens := default 450 target;
          max_tokens := default 800 max_;
          min_tokens := default 50 min_;
          overlap_tokens := default 50 overlap |}
  /\ forall c parsed_book book_id,
       ChunkingConfig_init target max_ min_ overlap = Ok c ->
       0 < target_tokens c ->
       exists out, chunk c parsed_book book_id = Ok out.
Proof.
  split; [reflexivity|].
  intros c parsed_book book_id _ Ht. now apply chunk_total.
Qed.


(* ===================================================================== *)
(** ** The paragraph fallback *)
(* ===================================================================== *)

(** C4, as stated, fails at the boundary: the paragraph " a b" has exactly
    [max_tokens = 2] tokens and is emitted directly, with [char_end] at the
    end of the unstripped paragraph; the sliding-window splitter would have
    put [char_end] at the end of the stripped text. *)
Lemma paragraph_at_max_not_delegated :
  let cfg := {| target_tokens := 2; max_tokens := 2; min_tokens := 1;
                overlap_tokens := 1 |} in
  let text := lit " a b" in
  valid_config cfg
  /\ Re.split pat_blank_line text = [text]
  /\ estimate_tokens (strip text) = max_tokens cfg
  /\ _chunk_by_paragraphs (host := example_host) cfg (lit "id") (lit "Book")
       (lit "Author") (lit "he") text [] 0
     <> _sliding_window_chunks (host := example_host) cfg (lit "id")
          (lit "Book") (lit "Author") (lit "he") (strip text) []
          s_paragraph 0.
Proof.
  cbn zeta. split; [unfold valid_config; cbn; lia|].
  split; [reflexivity|]. split; [reflexivity|].
  vm_compute. discriminate.
Qed.

(** C4, amended.  In the fallback path, as [chunk] calls it (empty section
    path, offset 0), the loop treats the next paragraph as follows, [start]
    being the paragraph's first occurrence at or after the cursor: a blank
    paragraph gives no chunk; a paragraph of at most [max_tokens] tokens
    gives exactly one chunk, of type "paragraph" and empty path, carrying
    the stripped paragraph; a paragraph of more than [max_tokens] tokens is
    handed, stripped, to the sliding-window splitter with [start] as base.
    Every chunk of the fallback path has type "paragraph" and an empty
    path. *)
Theorem paragraph_rule {host : Host} (_config : ChunkingConfig)
    (book_id book_title book_author language text : str) :
  let loop := paragraph_loop _config book_id book_title book_author language
                text [] 0 in
  (forall para rest pos,
      let stripped := strip para in
      let found := find text para pos in
      let start := if found =? -1 then pos else found in
      (stripped = [] ->
       loop (para :: rest) pos = loop rest (pos + len para + 1))
      /\ (stripped <> [] ->
          estimate_tokens stripped <= max_tokens _config ->
          exists c,
            Chunk.section_type c = s_paragraph
            /\ Chunk.section_path c = []
            /\ Chunk.text c = stripped
            /\ Chunk.token_count c = estimate_tokens stripped
            /\ Chunk.char_start c = start
            /\ Chunk.char_end c = start + len para
            /\ loop (para :: rest) pos
               = (more <- loop rest (start + len para) ;; Ok (c :: more)))
      /\ (stripped <> [] ->
          max_tokens _config < estimate_tokens stripped ->
          loop (para :: rest) pos
          = (cs <- _sliding_window_chunks _config book_id book_title
                     book_author language stripped [] s_paragraph start ;;
             more <- loop rest (start + len para) ;;
             Ok (cs ++ more))))
  /\ (forall cs,
         _chunk_by_paragraphs _config book_id book_title book_author
           language text [] 0 = Ok cs ->
         Forall (fun c => Chunk.section_type c = s_paragraph
                          /\ Chunk.section_path c = []) cs).
Proof.
  cbn zeta. split.
  - intros para rest pos. cbn [paragraph_loop].
    destruct (strip para) as [|c0 sp] eqn:Es.
    + split; [reflexivity|]. split; intros H; now destruct H.
    + split; [discriminate|]. split; intros _ Hle.
      * destruct (Z.gtb_spec (estimate_tokens (c0 :: sp))
                    (max_tokens _config)); [lia|].
        set (found := find text para pos).
        set (start := if found =? -1 then pos else found).
        exists (Chunk.new (c0 :: sp) book_id book_title book_author []
                  s_paragraph language (0 + start) (0 + (start + len para))
                  (estimate_tokens (c0 :: sp))).
        repeat split; reflexivity.
      * destruct (Z.gtb_spec (estimate_tokens (c0 :: sp))
                    (max_tokens _config)); [reflexivity | lia].
  - intros cs. unfold _chunk_by_paragraphs. apply paragraphs_Forall.
    + intros t o cs' Hcs. apply sliding_counted in Hcs.
      eapply Forall_impl; [|exact Hcs]. cbn. tauto.
    + intros. split; reflexivity.
Qed.

(* ===================================================================== *)
(** ** Pattern matching *)
(* ===================================================================== *)

Section ReFacts.

Lemma rep_inv (cls : char -> bool) (k : option char -> str -> option nat)
    (s : str) : forall lo hi prev n,
  Re.rep cls lo hi k prev s = Some n ->
  exists a b prev',
    n = (a + b)%nat /\ (lo <= a)%nat /\ (a <= length s)%nat
    /\ Forall (fun c => cls c = true) (firstn a s)
    /\ k prev' (skipn a s) = Some b.
Proof.
  induction s as [|c s' IH]; intros lo hi prev n H; cbn [Re.rep] in H.
  - destruct lo; [|discriminate].
    exists O, n, prev. cbn. repeat split; auto.
  - assert (Hstop : match lo with
                    | O => k prev (c :: s')
                    | S _ => None
                    end = Some n ->
                    exists a b prev',
                      n = (a + b)%nat /\ (lo <= a)%nat
                      /\ (a <= length (c :: s'))%nat
                      /\ Forall (fun c => cls c = true) (firstn a (c :: s'))
                      /\ k prev' (skipn a (c :: s')) = Some b).
    { intros Hs. destruct lo; [|discriminate].
      exists O, n, prev. cbn. repeat split; auto; lia. }
    destruct (cls c && Re.more hi) eqn:E; [|now apply Hstop].
    destruct (Re.rep cls (pred lo) (Re.dec hi) k (Some c) s') as [n'|] eqn:Er;
      [|now apply Hstop].
    injection H as <-.
    destruct (IH _ _ _ _ Er) as (a & b & prev' & -> & Hlo & Hlen & Hall & Hk).
    exists (S a), b, prev'. cbn [firstn skipn length].
    apply andb_true_iff in E as [Ec _].
    repeat split; auto; lia.
Qed.

Lemma firstn_add {A} (a b : nat) (l : list A) :
  firstn (a + b) l = firstn a l ++ firstn b (skipn a l).
Proof.
  revert l. induction a as [|a IH]; intros [|x l]; cbn; auto.
  - now rewrite firstn_nil.
  - now rewrite IH.
Qed.

(** A pattern of whitespace atoms matches whitespace. *)
Lemma match_here_space (p : Re.pattern) :
  Forall space_atom p ->
  forall prev s n,
    Re.match_here p prev s = Some n ->
    (n <= length s)%nat
    /\ Forall (fun c => isspace c = true) (firstn n s).
Proof.
  induction 1 as [|a p' Ha _ IH]; intros prev s n H; cbn [Re.match_here] in H.
  - injection H as <-. split; [lia | constructor].
  - destruct a as [| |cls lo hi].
    + destruct (Re.at_bol prev); [eauto | discriminate].
    + destruct (Re.at_eol s); [eauto | discriminate].
    + apply rep_inv in H as (x & y & prev' & -> & _ & Hx & Hall & Hk).
      apply IH in Hk as [Hy Hall'].
      rewrite length_skipn in Hy. split; [lia|].
      rewrite firstn_add. apply Forall_app. split; [|exact Hall'].
      eapply Forall_impl; [|exact Hall]. exact Ha.
Qed.

Variable p : Re.pattern.
Variable text : str.

Lemma chain_weaken (ms : list (nat * nat)) (last last' : nat) :
  (last' <= last)%nat -> chain p text last ms -> chain p text last' ms.
Proof.
  destruct ms as [|[st n] ms']; cbn; [auto|].
  intros Hl (H1 & H0 & H2 & H3). repeat split; auto. lia.
Qed.

(** The scan yields a chain of matches. *)
Lemma scan_chain (s : str) : forall pos prev skip,
  skipn pos text = s -> prev = char_before text pos ->
  chain p text (pos + skip) (Re.scan p prev pos skip s).
Proof.
  induction s as [|c s' IH]; intros pos prev skip Hs Hprev; [exact I|].
  assert (Hs' : skipn (S pos) text = s').
  { assert (Hc : nth_error text pos = Some c).
    { rewrite <- (Nat.add_0_r pos), <- nth_error_skipn, Hs. reflexivity. }
    rewrite (skipn_nth_error _ _ Hc) in Hs. now injection Hs. }
  assert (Hprev' : Some c = char_before text (S pos)).
  { cbn. rewrite <- (Nat.add_0_r pos), <- nth_error_skipn, Hs. reflexivity. }
  cbn [Re.scan]. destruct skip as [|j].
  - destruct (Re.match_here p prev (c :: s')) as [n|] eqn:Em.
    + cbn [chain]. split; [lia|]. split.
      { apply nth_error_Some. rewrite <- (Nat.add_0_r pos).
        rewrite <- nth_error_skipn, Hs. discriminate. }
      split.
      * unfold match_at. now rewrite Hs, <- Hprev.
      * eapply chain_weaken; [|apply (IH (S pos) (Some c) (pred n) Hs' Hprev')].
        lia.
    + eapply chain_weaken; [|apply (IH (S pos) (Some c) O Hs' Hprev')]. lia.
  - eapply chain_weaken; [|apply (IH (S pos) (Some c) j Hs' Hprev')]. lia.
Qed.

Lemma finditer_chain : chain p text 0 (Re.finditer p text).
Proof. apply (@scan_chain text 0 None 0); reflexivity. Qed.

Lemma chain_In (ms : list (nat * nat)) : forall last st n,
  chain p text last ms -> In (st, n) ms ->
  (st < length text)%nat /\ match_at p text st = Some n.
Proof.
  induction ms as [|[st0 n0] ms' IH]; intros last st n Hc Hin; [easy|].
  destruct Hc as (_ & Hlt & Hm & Hc). destruct Hin as [[= <- <-]|Hin]; eauto.
Qed.

(** Every match [finditer] reports is a match of the pattern at its
    start. *)
Lemma finditer_sound (st n : nat) :
  In (st, n) (Re.finditer p text) ->
  (st < length text)%nat /\ match_at p text st = Some n.
Proof. apply chain_In with (last := O), finditer_chain. Qed.

End ReFacts.

Section AnchorFacts.

Variable text : str.


End AnchorFacts.

Section MatchLength.

Lemma match_here_length (p : Re.pattern) : forall prev s n,
  Re.match_here p prev s = Some n -> (min_len p <= n <= length s)%nat.
Proof.
  induction p as [|a p' IH]; intros prev s n H; cbn [Re.match_here] in H.
  - injection H as <-. cbn. lia.
  - destruct a as [| |cls lo hi]; cbn [min_len].
    + destruct (Re.at_bol prev); [eauto | discriminate].
    + destruct (Re.at_eol s); [eauto | discriminate].
    + apply rep_inv in H as (x & y & prev' & -> & Hlo & Hx & _ & Hk).
      apply IH in Hk. rewrite length_skipn in Hk. lia.
Qed.

(** No pattern of the chunker matches the empty string, so the scan of
    [finditer] never has to step over an empty match. *)
Lemma nonempty_match (p : Re.pattern) (prev : option char) (s : str)
    (n : nat) :
  In p (pat_blank_line :: map snd STRUCTURE_PATTERNS) ->
  Re.match_here p prev s = Some n -> (1 <= n)%nat.
Proof.
  intros Hp Hm. apply match_here_length in Hm.
  cbn in Hp.
  repeat (destruct Hp as [<-|Hp]; [cbn in Hm; lia|]). easy.
Qed.

End MatchLength.

(* ===================================================================== *)
(** ** The marker scanner *)
(* ===================================================================== *)

Section MarkerFacts.

Lemma In_insert_marker (m x : Marker.t) (l : list Marker.t) :
  In x (insert_marker m l) <-> x = m \/ In x l.
Proof.
  induction l as [|y l' IH]; cbn [insert_marker].
  - cbn. intuition.
  - destruct (_ <=? _); cbn [In]; [intuition|]. rewrite IH. intuition.
Qed.

Lemma In_sort_markers (x : Marker.t) (l : list Marker.t) :
  In x (sort_markers l) <-> In x l.
Proof.
  induction l as [|m l' IH]; cbn [sort_markers fold_right]; [reflexivity|].
  fold (sort_markers l'). rewrite In_insert_marker, IH. cbn. intuition.
Qed.

End MarkerFacts.



(* ===================================================================== *)
(** ** Paragraph splitting keeps the words *)
(* ===================================================================== *)

Section SplitFacts.

Lemma split_space_prefix (sep rest : str) :
  Forall (fun c => isspace c = true) sep -> split (sep ++ rest) = split rest.
Proof.
  induction 1 as [|c sep' Hc _ IH]; [reflexivity|].
  cbn [app]. now rewrite split_cons_space.
Qed.

Variable text : str.

(** A blank-line match is a non-empty run of whitespace inside the
    text. *)
Lemma blank_line_match (st n : nat) :
  match_at pat_blank_line text st = Some n ->
  (1 <= n)%nat /\ (n <= length (skipn st text))%nat
  /\ Forall (fun c => isspace c = true) (firstn n (skipn st text)).
Proof.
  unfold match_at. intros Hm.
  pose proof (match_here_length _ _ _ Hm) as [Hmin Hlen]. cbn in Hmin.
  apply match_here_space in Hm as [_ Hall].
  - repeat split; auto; lia.
  - repeat constructor; cbn; intros c Hc; auto.
    all: apply N.eqb_eq in Hc; now subst c.
Qed.

Lemma pieces_words (ms : list (nat * nat)) : forall last,
  chain pat_blank_line text last ms ->
  concat (map split (Re.pieces text last ms)) = split (skipn last text).
Proof.
  induction ms as [|[st n] ms' IH]; intros last Hc; cbn [Re.pieces map concat].
  - now rewrite app_nil_r.
  - destruct Hc as (Hlast & Hst & Hm & Hc).
    apply blank_line_match in Hm as (Hn & Hlen & Hall).
    rewrite (IH _ Hc).
    assert (E1 : skipn last text
                 = firstn (st - last) (skipn last text) ++ skipn st text).
    { rewrite <- (firstn_skipn (st - last) (skipn last text)) at 1.
      f_equal. rewrite skipn_skipn. f_equal. lia. }
    assert (E2 : skipn st text
                 = firstn n (skipn st text) ++ skipn (st + n) text).
    { rewrite <- (firstn_skipn n (skipn st text)) at 1.
      f_equal. rewrite skipn_skipn. f_equal. lia. }
    set (A := firstn (st - last) (skipn last text)) in *.
    set (sep := firstn n (skipn st text)) in *.
    rewrite E1, E2, split_app.
    + now rewrite split_space_prefix.
    + destruct sep as [|c sep'] eqn:E.
      * apply (f_equal (@length _)) in E. unfold sep in E.
        rewrite length_firstn in E. cbn in E. lia.
      * inversion Hall; subst. assumption.
Qed.

(** The paragraphs of [re.split] carry exactly the words of the text. *)
Lemma paragraphs_words :
  concat (map split (Re.split pat_blank_line text)) = split text.
Proof.
  unfold Re.split. rewrite pieces_words; [reflexivity|].
  apply finditer_chain.
Qed.

End SplitFacts.

(* ===================================================================== *)
(** ** Coverage of the input *)
(* ===================================================================== *)

Section CoverFacts.

Context {host : Host}.
Variable _config : ChunkingConfig.

Lemma leaf_words_In (leaf : Sec.fields) (l : list Sec.fields) :
  In leaf l -> incl (split (Sec.text leaf)) (leaf_words l).
Proof.
  intros Hin w Hw. unfold leaf_words. apply in_concat.
  exists (split (Sec.text leaf)). split; [|exact Hw].
  now apply (in_map (fun f => split (Sec.text f))).
Qed.

Lemma chunk_words_numbered (all rest : list Chunk.t) : forall seen,
  chunk_words (numbered seen all rest) = chunk_words rest.
Proof.
  unfold chunk_words.
  induction rest as [|c rest' IH]; intros seen; cbn [numbered map concat].
  - reflexivity.
  - now rewrite IH.
Qed.

Lemma chunk_words_assigned (chunks : list Chunk.t) :
  chunk_words (assign_in_place chunks) = chunk_words chunks.
Proof. rewrite assign_in_place_numbered. apply chunk_words_numbered. Qed.

Lemma sections_cover (book_id book_title book_author language : str)
    (sections : list Sec.tree) (path : str) (cs : list Chunk.t) :
  0 < target_tokens _config -> 0 <= overlap_tokens _config ->
  _chunk_sections _config book_id book_title book_author language
    sections path = Ok cs ->
  subseq (leaf_words (flat_map leaves sections)) (chunk_words cs).
Proof.
  intros Ht Ho. rewrite sections_unfold.
  destruct (map_exc _ sections) as [r|] eqn:Er; [|discriminate].
  intros [= <-]. apply map_exc_inv in Er.
  eapply map_section_cover; [|exact Er].
  apply Forall_forall. intros s _ p cs. now apply section_cover.
Qed.

End CoverFacts.

(** C2, as stated, fails: in a text with a perek heading, the line "intro",
    a siman heading and the line "body", the siman becomes a subsection of
    the perek, only the siman is chunked, and the word "intro", which lies
    between the two headings, is in no chunk. *)
Lemma parent_text_not_covered :
  let cfg := {| target_tokens := 450; max_tokens := 800; min_tokens := 50;
                overlap_tokens := 50 |} in
  let text := word_perek ++ [SPACE; ALEF; NL] ++ lit "intro" ++ [NL]
              ++ word_siman ++ [SPACE; ALEF; NL] ++ lit "body" in
  valid_config cfg
  /\ In (lit "intro") (split text)
  /\ exists out,
       chunk (host := example_host) cfg (example_book text)
         (Some (lit "id")) = Ok out
       /\ map Chunk.text out
          = [word_siman ++ [SPACE; ALEF; NL] ++ lit "body"]
       /\ ~ In (lit "intro") (chunk_words out).
Proof.
  cbn zeta. split; [unfold valid_config; cbn; lia|].
  split; [vm_compute; tauto|].
  eexists. split; [vm_compute; reflexivity|].
  split; [reflexivity|].
  vm_compute. intros [H|[H|[H|[]]]]; discriminate.
Qed.

(** C2, amended.  For every text that is not blank and every valid
    configuration, the chunks [chunk] returns cover, word for word and in
    document order, the text of the leaf sections of the section tree and,
    when no marker is found, the whole input: these words occur in the
    chunks in their order (a sliding window may repeat words), so every
    word of every leaf section is in some chunk.  (The text of a section
    that has subsections, and the text before the first marker, are not
    chunked.) *)
Theorem leaf_coverage {host : Host} (_config : ChunkingConfig)
    (parsed_book : ParsedBook) (book_id : option str)
    (sections : list Sec.tree) (out : list Chunk.t) :
  valid_config _config ->
  strip (raw_text parsed_book) <> [] ->
  _detect_sections (raw_text parsed_book) = Ok sections ->
  chunk _config parsed_book book_id = Ok out ->
  (sections = [] -> subseq (split (raw_text parsed_book)) (chunk_words out))
  /\ subseq (leaf_words (flat_map leaves sections)) (chunk_words out)
  /\ (forall leaf,
         In leaf (flat_map leaves sections) ->
         incl (split (Sec.text leaf)) (chunk_words out)).
Proof.
  intros (Ht & _ & _ & Ho & _) Hne Hs Hout.
  apply chunk_inv in Hout as [[He _]|Hout]; [contradiction|].
  destruct Hout as (sections' & pre & Hs' & Hpre & ->).
  assert (sections' = sections) by congruence. subst sections'.
  rewrite chunk_words_assigned, merge_words.
  assert (Hleaves : subseq (leaf_words (flat_map leaves sections))
                      (chunk_words pre)).
  { destruct sections as [|s ss]; [constructor|].
    eapply sections_cover; eauto; lia. }
  split; [|split].
  - intros ->. unfold _chunk_by_paragraphs in Hpre.
    apply paragraphs_cover in Hpre; [|lia|lia].
    now rewrite paragraphs_words in Hpre.
  - exact Hleaves.
  - intros leaf Hleaf.
    eapply incl_tran; [eapply leaf_words_In; exact Hleaf|].
    now apply subseq_incl.
Qed.

(* ===================================================================== *)
(** ** The section tree builder *)
(* ===================================================================== *)

Section HeapFacts.

Lemma length_append_subsection (h : heap) : forall r c,
  length (append_subsection h r c) = length h.
Proof.
  induction h as [|[f subs] h' IH]; intros [|r] c; cbn; auto.
Qed.

Lemma nth_error_append_subsection (h : heap) : forall top c r,
  nth_error (append_subsection h top c) r
  = if (r =? top)%nat
    then option_map (fun o : obj => (fst o, snd o ++ [c])) (nth_error h r)
    else nth_error h r.
Proof.
  induction h as [|[f subs] h' IH]; intros top c r.
  - destruct top, r; cbn; try reflexivity; now destruct (_ =? _)%nat.
  - destruct top, r; cbn; auto.
Qed.

Lemma lvl_append_subsection (h : heap) (top c r : nat) :
  lvl (append_subsection h top c) r = lvl h r.
Proof.
  unfold lvl. rewrite nth_error_append_subsection.
  destruct (r =? top)%nat; [|reflexivity].
  now destruct (nth_error h r).
Qed.

Lemma subs_append_subsection (h : heap) (top c r : nat) :
  (top < length h)%nat ->
  subs_at (append_subsection h top c) r
  = if (r =? top)%nat then subs_at h r ++ [c] else subs_at h r.
Proof.
  intros Htop. unfold subs_at. rewrite nth_error_append_subsection.
  destruct (Nat.eqb_spec r top) as [->|_]; [|reflexivity].
  destruct (nth_error h top) eqn:E; [reflexivity|].
  apply nth_error_None in E. lia.
Qed.

Lemma lvl_app_old (h : heap) (o : obj) (r : nat) :
  (r < length h)%nat -> lvl (h ++ [o]) r = lvl h r.
Proof. intros Hr. unfold lvl. now rewrite nth_error_app1. Qed.

Lemma lvl_app_new (h : heap) (o : obj) :
  lvl (h ++ [o]) (length h) = Sec.level (fst o).
Proof.
  unfold lvl. now rewrite nth_error_app2, Nat.sub_diag by lia.
Qed.

Lemma subs_app_old (h : heap) (o : obj) (r : nat) :
  (r < length h)%nat -> subs_at (h ++ [o]) r = subs_at h r.
Proof. intros Hr. unfold subs_at. now rewrite nth_error_app1. Qed.

Lemma subs_app_new (h : heap) (o : obj) :
  subs_at (h ++ [o]) (length h) = snd o.
Proof.
  unfold subs_at. now rewrite nth_error_app2, Nat.sub_diag by lia.
Qed.

Lemma subs_at_dangling (h : heap) (r : nat) :
  (length h <= r)%nat -> subs_at h r = [].
Proof.
  intros Hr. unfold subs_at.
  now rewrite (proj2 (nth_error_None h r) Hr).
Qed.

(** On a stack whose levels decrease from the top down, the loop
    [while stack and stack[-1].level >= level: stack.pop()] removes
    exactly the entries at [level] or above. *)
Lemma pop_stack_filter (h : heap) (level : Z) (st : list nat) :
  Forall (fun r => (r < length h)%nat) st ->
  stack_sorted h st ->
  pop_stack h level st = filter (fun r => lvl h r <? level) st.
Proof.
  intros Hv Hs. induction Hs as [|top st' Hs' IH Hall]; [reflexivity|].
  inversion Hv as [|? ? Htop Hv']; subst.
  cbn [pop_stack filter]. unfold level_at, lvl at 1.
  destruct (nth_error h top) as [o|] eqn:E.
  2:{ apply nth_error_None in E. lia. }
  cbn [option_map].
  destruct (Z.geb_spec (Sec.level (fst o)) level) as [Hge|Hlt].
  - destruct (Z.ltb_spec (Sec.level (fst o)) level); [lia|]. now apply IH.
  - destruct (Z.ltb_spec (Sec.level (fst o)) level); [|lia].
    f_equal. symmetry. apply forallb_filter_id.
    apply forallb_forall. intros r Hr.
    rewrite Forall_forall in Hall. specialize (Hall r Hr).
    unfold lvl in Hall at 2. rewrite E in Hall.
    apply Z.ltb_lt. lia.
Qed.

End HeapFacts.

Section BuildFacts.

Variable text : str.

Lemma StronglySorted_filter {A} (R : A -> A -> Prop) (f : A -> bool)
    (l : list A) :
  StronglySorted R l -> StronglySorted R (filter f l).
Proof.
  induction 1 as [|a l' Hs IH Hall]; cbn [filter]; [constructor|].
  destruct (f a); [|exact IH]. constructor; [exact IH|].
  apply Forall_forall. intros x Hx. apply filter_In in Hx as [Hx _].
  rewrite Forall_forall in Hall. auto.
Qed.

Lemma stack_sorted_ext (h h' : heap) (st : list nat) :
  (forall r, In r st -> lvl h' r = lvl h r) ->
  stack_sorted h st -> stack_sorted h' st.
Proof.
  intros He Hs. induction Hs as [|a l' Hs IH Hall]; [constructor|].
  constructor.
  - apply IH. intros r Hr. apply He. now right.
  - apply Forall_forall. intros b Hb.
    rewrite Forall_forall in Hall.
    rewrite (He a), (He b) by (cbn; auto). auto.
Qed.

(** One iteration of the loop, on a state that satisfies the invariant:
    the stack loses exactly its entries at the new level or above and
    gains the new section; the new section is appended to the
    subsections of the entry that is then on top, which lies at a
    strictly lower level, or to the roots when the stack is empty;
    nothing else changes. *)
Lemma build_step_spec (marker : Marker.t) (end_ : Z) (s : build_state) :
  build_inv s ->
  let s' := build_step text marker end_ s in
  let ref := length (objs s) in
  let kept := filter (fun r => lvl (objs s) r <? Marker.level marker)
                (stack s) in
  stack s' = ref :: kept
  /\ length (objs s') = S ref
  /\ (forall r, lvl (objs s') r
                = if (r =? ref)%nat then Marker.level marker
                  else lvl (objs s) r)
  /\ match kept with
     | top :: _ =>
         roots s' = roots s
         /\ lvl (objs s) top < Marker.level marker
         /\ forall r, subs_at (objs s') r
                      = if (r =? top)%nat then subs_at (objs s) r ++ [ref]
                        else subs_at (objs s) r
     | [] =>
         roots s' = roots s ++ [ref]
         /\ forall r, subs_at (objs s') r = subs_at (objs s) r
     end.
Proof.
  intros (Hv & Hs & Hl). cbn zeta.
  set (ref := length (objs s)).
  set (level := Marker.level marker).
  unfold build_step. fold ref. fold level.
  set (new := ({| Sec.section_type := Marker.type marker;
                  Sec.title := Marker.title marker;
                  Sec.text := strip (slice text (Marker.position marker) end_);
                  Sec.char_start := Marker.position marker;
                  Sec.char_end := end_;
                  Sec.level := level |}, @nil nat)).
  set (h := objs s ++ [new]).
  assert (Hold : forall r, In r (stack s) -> lvl h r = lvl (objs s) r).
  { intros r Hr. apply lvl_app_old. rewrite Forall_forall in Hv. auto. }
  assert (Hpop : pop_stack h level (stack s)
                 = filter (fun r => lvl (objs s) r <? level) (stack s)).
  { rewrite pop_stack_filter.
    - apply filter_ext_in. intros r Hr. now rewrite Hold.
    - eapply Forall_impl; [|exact Hv]. cbn. intros r Hr.
      unfold h. rewrite length_app. cbn. lia.
    - eapply stack_sorted_ext; [|exact Hs]. exact Hold. }
  rewrite Hpop.
  assert (Hlv : forall r, lvl h r
                          = if (r =? ref)%nat then level
                            else lvl (objs s) r).
  { intros r. destruct (Nat.eqb_spec r ref) as [->|Hne].
    - unfold h, ref. now rewrite lvl_app_new.
    - destruct (Nat.lt_ge_cases r ref) as [Hlt|Hge].
      + now apply lvl_app_old.
      + unfold lvl.
        rewrite (proj2 (nth_error_None h r)),
                (proj2 (nth_error_None (objs s) r)); auto; try lia.
        unfold h. rewrite length_app. cbn. fold ref. lia. }
  assert (Hsub : forall r, subs_at h r = subs_at (objs s) r).
  { intros r. destruct (Nat.lt_ge_cases r ref) as [Hlt|Hge].
    - now apply subs_app_old.
    - rewrite (subs_at_dangling (objs s)) by exact Hge.
      destruct (Nat.eqb_spec r ref) as [->|Hne].
      + unfold h, ref. now rewrite subs_app_new.
      + apply subs_at_dangling. unfold h. rewrite length_app. cbn.
        fold ref. lia. }
  assert (Hlen : length h = S ref)
    by (unfold h; rewrite length_app; cbn; fold ref; lia).
  destruct (filter _ (stack s)) as [|top kept'] eqn:Ek; cbn [stack objs roots].
  - repeat split; auto.
  - assert (Hin : In top (stack s) /\ lvl (objs s) top < level).
    { assert (Hin : In top (top :: kept')) by now left.
      rewrite <- Ek in Hin. apply filter_In in Hin as [Hin Hlt].
      split; [exact Hin | now apply Z.ltb_lt]. }
    destruct Hin as [Hin Hlt].
    assert (Htop : (top < ref)%nat) by (rewrite Forall_forall in Hv; auto).
    repeat split; auto.
    + now rewrite length_append_subsection.
    + intros r. now rewrite lvl_append_subsection.
    + intros r. rewrite subs_append_subsection by lia.
      now rewrite Hsub.
Qed.

Lemma build_step_inv (marker : Marker.t) (end_ : Z) (s : build_state) :
  build_inv s -> build_inv (build_step text marker end_ s).
Proof.
  intros Hinv.
  pose proof (build_step_spec marker end_ Hinv) as (Hst & Hlen & Hlv & Hk).
  destruct Hinv as (Hv & Hs & Hl).
  set (s' := build_step text marker end_ s) in *.
  set (ref := length (objs s)) in *.
  set (level := Marker.level marker) in *.
  set (kept := filter (fun r => lvl (objs s) r <? level) (stack s)) in *.
  assert (Hkv : forall r, In r kept ->
                          In r (stack s) /\ (r < ref)%nat
                          /\ lvl (objs s) r < level).
  { intros r Hr. apply filter_In in Hr as [Hr Hlt].
    rewrite Forall_forall in Hv. repeat split; auto. now apply Z.ltb_lt. }
  assert (Hks : stack_sorted (objs s) kept)
    by now apply StronglySorted_filter.
  clearbody kept.
  assert (Hlv_old : forall r, (r < ref)%nat ->
                              lvl (objs s') r = lvl (objs s) r).
  { intros r Hr. rewrite Hlv. destruct (Nat.eqb_spec r ref); [lia|auto]. }
  assert (Hlv_new : lvl (objs s') ref = level).
  { rewrite Hlv. now rewrite Nat.eqb_refl. }
  split; [|split].
  - rewrite Hst, Hlen. constructor; [lia|].
    apply Forall_forall. intros r Hr. apply Hkv in Hr. lia.
  - rewrite Hst. constructor.
    + apply stack_sorted_ext with (h := objs s).
      * intros r Hr. apply Hlv_old. now apply Hkv.
      * exact Hks.
    + apply Forall_forall. intros r Hr. apply Hkv in Hr as (_ & Hr & Hlt).
      rewrite Hlv_new, Hlv_old; auto.
  - intros p c Hc.
    assert (Hcases : In c (subs_at (objs s) p)
                     \/ (c = ref /\ (p < ref)%nat
                         /\ lvl (objs s) p < level)).
    { destruct kept as [|top kept'].
      - destruct Hk as [_ Hsub]. rewrite Hsub in Hc. now left.
      - destruct Hk as (_ & Hlt & Hsub). rewrite Hsub in Hc.
        destruct (Nat.eqb_spec p top) as [->|_]; [|now left].
        apply in_app_or in Hc as [Hc|[<-|[]]]; [now left|].
        right. repeat split; auto.
        apply (Hkv top). now left. }
    destruct Hcases as [Hold|(-> & Hp & Hlt)].
    + destruct (Hl p c Hold) as [Hpc Hlt]. fold ref in Hpc.
      rewrite Hlen, !Hlv_old by lia. split; [lia | exact Hlt].
    + rewrite Hlen, Hlv_new, Hlv_old by lia. split; [lia | exact Hlt].
Qed.

Lemma build_init_inv : build_inv build_init.
Proof.
  split; [constructor | split; [constructor|]].
  intros p c Hc. unfold subs_at in Hc. cbn in Hc. now destruct p.
Qed.

Lemma reachable_inv (s : build_state) : reachable text s -> build_inv s.
Proof.
  induction 1; [apply build_init_inv | now apply build_step_inv].
Qed.

Lemma build_loop_reachable (markers : list Marker.t) : forall s,
  reachable text s -> reachable text (build_loop text markers s).
Proof.
  induction markers as [|m rest IH]; intros s Hs; cbn [build_loop]; auto.
  apply IH. now constructor.
Qed.

End BuildFacts.

Section TreeFacts.

Lemma levels_increase_node (f : Sec.fields) (subs : list Sec.tree) :
  levels_increase (Sec.Node f subs)
  <-> Forall (fun x => Sec.level f < Sec.level (Sec.data x)
                       /\ levels_increase x) subs.
Proof.
  cbn [levels_increase].
  induction subs as [|x l IH].
  - split; [constructor | easy].
  - split.
    + intros [Hx Hl]. constructor; [exact Hx | now apply IH].
    + intros H. inversion H; subst. split; [assumption | now apply IH].
Qed.

(** The [k]-th tree built from a heap carries the fields of the [k]-th
    object. *)
Lemma trees_data (h : heap) : forall i k t,
  nth_error (trees_from i h) k = Some t ->
  exists o, nth_error h k = Some o /\ Sec.data t = fst o.
Proof.
  induction h as [|[f subs] h' IH]; intros i k t Hk; cbn [trees_from] in Hk.
  - now destruct k.
  - destruct k as [|k]; cbn [nth_error] in *.
    + injection Hk as <-. now exists (f, subs).
    + eauto.
Qed.

Variable H : heap.
Hypothesis HL : heap_levels H.

Lemma trees_levels (h : heap) : forall i,
  skipn i H = h -> Forall levels_increase (trees_from i h).
Proof.
  induction h as [|[f subs] h' IH]; intros i Hi; cbn [trees_from];
    [constructor|].
  assert (Hobj : nth_error H i = Some (f, subs)).
  { rewrite <- (Nat.add_0_r i), <- nth_error_skipn, Hi. reflexivity. }
  assert (Hi' : skipn (S i) H = h').
  { rewrite (skipn_nth_error _ _ Hobj) in Hi. now injection Hi. }
  specialize (IH (S i) Hi').
  constructor; [|exact IH].
  apply levels_increase_node, Forall_flat_map, Forall_forall.
  intros r Hr.
  destruct (Nat.ltb_spec i r) as [Hlt|_]; [|constructor].
  destruct (nth_error (trees_from (S i) h') (r - S i)) as [t|] eqn:Et;
    [|constructor].
  constructor; [|constructor]. split.
  - apply trees_data in Et as (o & Ho & ->).
    rewrite <- Hi', nth_error_skipn in Ho.
    replace (S i + (r - S i))%nat with r in Ho by lia.
    assert (Hin : In r (subs_at H i))
      by (unfold subs_at; now rewrite Hobj).
    apply HL in Hin as [_ Hlv]. unfold lvl in Hlv.
    now rewrite Hobj, Ho in Hlv.
  - rewrite Forall_forall in IH. apply IH.
    eapply nth_error_In; eauto.
Qed.

End TreeFacts.

(** *** Dereferencing loses nothing *)

Section DerefFacts.

Lemma length_trees_from (h : heap) : forall i,
  length (trees_from i h) = length h.
Proof.
  induction h as [|[f subs] h' IH]; intros i; cbn [trees_from length]; auto.
Qed.

Variable H : heap.
Hypothesis HL : heap_levels H.

(** The trees built from the heap are the trees of its objects: every
    reference of an object is followed, none is dropped. *)
Lemma trees_represent (h : heap) : forall i,
  skipn i H = h ->
  forall k t, nth_error (trees_from i h) k = Some t ->
              represents H (i + k) t.
Proof.
  induction h as [|[f subs] h' IH]; intros i Hi k t Hk;
    cbn [trees_from] in Hk.
  - now destruct k.
  - assert (Hobj : nth_error H i = Some (f, subs)).
    { rewrite <- (Nat.add_0_r i), <- nth_error_skipn, Hi. reflexivity. }
    assert (Hi' : skipn (S i) H = h').
    { rewrite (skipn_nth_error _ _ Hobj) in Hi. now injection Hi. }
    specialize (IH (S i) Hi').
    destruct k as [|k]; cbn [nth_error] in Hk.
    + injection Hk as <-. rewrite Nat.add_0_r.
      apply represents_node with (subs := subs); [exact Hobj|].
      assert (Hsubs : forall r, In r subs -> (i < r < length H)%nat).
      { intros r Hr. destruct (HL i r) as [Hb _]; [|exact Hb].
      unfold subs_at. now rewrite Hobj. }
      clear Hobj Hi. induction subs as [|r subs' IHs]; cbn [flat_map];
        [constructor|].
      destruct (Hsubs r (or_introl eq_refl)) as [Hlt Hlen].
      destruct (Nat.ltb_spec i r) as [_|]; [|lia].
      destruct (nth_error (trees_from (S i) h') (r - S i)) as [t|] eqn:Et.
      * cbn [app]. constructor.
        -- replace r with (S i + (r - S i))%nat at 1 by lia.
           now apply IH.
        -- apply IHs. intros r' Hr'. apply Hsubs. now right.
      * apply nth_error_None in Et. rewrite length_trees_from in Et.
        rewrite <- Hi', length_skipn in Et. lia.
    + replace (i + S k)%nat with (S i + k)%nat by lia. now apply IH.
Qed.

Lemma deref_represents (r : nat) :
  (r < length H)%nat ->
  exists t, deref H r = [t] /\ represents H r t.
Proof.
  intros Hr. unfold deref.
  destruct (nth_error (trees_from 0 H) r) as [t|] eqn:Et.
  - exists t. split; [reflexivity|].
    exact (@trees_represent H 0 eq_refl r t Et).
  - apply nth_error_None in Et. rewrite length_trees_from in Et. lia.
Qed.

End DerefFacts.

Section RootFacts.

Variable text : str.

Lemma build_step_roots (marker : Marker.t) (end_ : Z) (s : build_state) :
  build_inv s ->
  Forall (fun r => (r < length (objs s))%nat) (roots s) ->
  Forall (fun r => (r < length (objs (build_step text marker end_ s)))%nat)
         (roots (build_step text marker end_ s)).
Proof.
  intros Hinv Hr.
  pose proof (build_step_spec text marker end_ Hinv) as (_ & Hlen & _ & Hk).
  rewrite Hlen.
  assert (Hold : Forall (fun r => (r < S (length (objs s)))%nat) (roots s)).
  { eapply Forall_impl; [|exact Hr]. cbn. intros. lia. }
  destruct (filter _ (stack s)).
  - destruct Hk as [-> _]. apply Forall_app. split; [exact Hold|].
    constructor; [lia | constructor].
  - destruct Hk as [-> _]. exact Hold.
Qed.

Lemma reachable_roots (s : build_state) :
  reachable text s -> Forall (fun r => (r < length (objs s))%nat) (roots s).
Proof.
  induction 1 as [|marker end_ s Hs IH]; [constructor|].
  apply build_step_roots; [|exact IH]. now apply (reachable_inv (text := text)).
Qed.

(** The forest [_build_section_tree] returns is the forest of the roots:
    one tree for each root, with every subsection the loop attached. *)
Lemma build_section_tree_represents (markers : list Marker.t) :
  let s := build_loop text markers build_init in
  Forall2 (represents (objs s)) (roots s) (_build_section_tree markers text).
Proof.
  cbn zeta. unfold _build_section_tree. cbn zeta.
  set (s := build_loop text markers build_init).
  assert (Hreach : reachable text s)
    by (apply build_loop_reachable; constructor).
  pose proof (reachable_inv Hreach) as (_ & _ & HL).
  pose proof (reachable_roots Hreach) as Hroots.
  induction Hroots as [|r rs Hr _ IH]; cbn [flat_map]; [constructor|].
  destruct (deref_represents HL Hr) as (t & -> & Ht).
  cbn [app]. now constructor.
Qed.

End RootFacts.

(** For instance, markers at the levels 0, 1, 3, 3, 1, 0 give two roots:
    the first has two subsections at level 1, the first of which holds the
    two sections at level 3.  (Each section is written as its start offset,
    its subsections, and a closing mark.) *)
Example build_section_tree_shape :
  let marker i lv :=
    {| Marker.type := []; Marker.title := []; Marker.position := i;
       Marker.level := lv |} in
  let shape :=
    fix shape (s : Sec.tree) : list Z :=
      match s with
      | Sec.Node f subs =>
          Sec.char_start f :: flat_map shape subs ++ [- Sec.char_start f - 1]
      end in
  flat_map shape
    (_build_section_tree
       [marker 0 0; marker 1 1; marker 2 3; marker 3 3; marker 4 1; marker 5 0]
       (lit "abcdef"))
  = [0; 1; 2; -3; 3; -4; -2; 4; -5; -1; 5; -6].
Proof. reflexivity. Qed.

(* ===================================================================== *)
(** ** Further properties of the merge pass *)
(* ===================================================================== *)

Section MergeRuns.

Variable _config : ChunkingConfig.

Lemma join_snoc (sep : str) (ws : list str) (w : str) :
  ws <> [] -> join sep (ws ++ [w]) = join sep ws ++ sep ++ w.
Proof.
  induction ws as [|x ws' IH]; [easy|]. intros _.
  destruct ws' as [|y ws''].
  - reflexivity.
  - change (join sep ((x :: y :: ws'') ++ [w]))
      with (x ++ sep ++ join sep ((y :: ws'') ++ [w])).
    rewrite IH by discriminate.
    change (join sep (x :: y :: ws'')) with (x ++ sep ++ join sep (y :: ws'')).
    now rewrite <- !app_assoc.
Qed.

Lemma total_tokens_app (a b : list Chunk.t) :
  total_tokens (a ++ b) = total_tokens a + total_tokens b.
Proof.
  unfold total_tokens. induction a as [|c a' IH]; cbn; [reflexivity|].
  cbn in IH. rewrite IH. lia.
Qed.

Lemma merged_from_one (c : Chunk.t) : merged_from [c] c.
Proof. split; [reflexivity | now constructor]. Qed.

(** Merging one more chunk into the result of a run extends the run. *)
Lemma merged_from_snoc (acc : list Chunk.t) (prev c : Chunk.t) :
  merged_from acc prev ->
  Chunk.section_path prev = Chunk.section_path c ->
  merged_from (acc ++ [c]) (merge_pair prev c).
Proof.
  intros [Hm Hp] Hpc. split.
  - destruct acc as [|a [|b acc']]; [easy| |].
    + subst prev. cbn. unfold merge_pair, total_tokens. cbn.
      now rewrite Z.add_0_r.
    + subst prev.
      change ((a :: b :: acc') ++ [c]) with (a :: b :: (acc' ++ [c])).
      cbv beta iota.
      change (a :: b :: (acc' ++ [c])) with ((a :: b :: acc') ++ [c]).
      unfold merge_pair. cbn [Chunk.text Chunk.new Chunk.book_id
        Chunk.book_title Chunk.book_author Chunk.section_path
        Chunk.section_type Chunk.language Chunk.char_start Chunk.char_end
        Chunk.token_count].
      rewrite map_app. change (map Chunk.text [c]) with [Chunk.text c].
      rewrite join_snoc by discriminate.
      rewrite last_last, total_tokens_app.
      replace (total_tokens [c]) with (Chunk.token_count c)
        by (unfold total_tokens; cbn; lia).
      reflexivity.
  - apply Forall_app. split.
    + eapply Forall_impl; [|exact Hp]. cbn. intros x Hx. exact Hx.
    + constructor; [|constructor]. cbn. congruence.
Qed.

Lemma merge_loop_runs (chunks : list Chunk.t) : forall prev acc,
  merged_from acc prev ->
  exists r runs,
    acc ++ chunks = concat ((acc ++ r) :: runs)
    /\ Forall2 merged_from ((acc ++ r) :: runs)
         (merge_loop _config prev chunks).
Proof.
  induction chunks as [|c rest IH]; intros prev acc Hacc; cbn [merge_loop].
  - exists [], []. cbn [concat]. rewrite !app_nil_r. split; [reflexivity|].
    constructor; [exact Hacc | constructor].
  - destruct (mergeable _config prev c) eqn:Hm.
    + apply mergeable_true in Hm as (_ & _ & Hp).
      destruct (IH _ _ (merged_from_snoc c Hacc Hp)) as (r & runs & He & Hf).
      exists (c :: r), runs.
      replace ((acc ++ [c]) ++ r) with (acc ++ c :: r) in He, Hf
        by (now rewrite <- app_assoc).
      replace ((acc ++ [c]) ++ rest) with (acc ++ c :: rest) in He
        by (now rewrite <- app_assoc).
      now split.
    + destruct (IH _ _ (merged_from_one c)) as (r & runs & He & Hf).
      exists [], (([c] ++ r) :: runs). rewrite app_nil_r. split.
      * cbn [concat]. cbn [concat] in He. rewrite <- He. reflexivity.
      * constructor; [exact Hacc | exact Hf].
Qed.

(** Chunks that are all at least [min_tokens] large pass through the merge
    pass untouched. *)
Lemma no_small_no_neighbours (chunks : list Chunk.t) :
  Forall (fun c => min_tokens _config <= Chunk.token_count c) chunks ->
  no_mergeable_neighbours _config chunks.
Proof.
  induction 1 as [|a l Ha Hl IH]; [exact I|].
  destruct l as [|b l']; [exact I|]. split; [|exact IH].
  destruct (mergeable _config a b) eqn:Hm; [|reflexivity].
  apply mergeable_true in Hm. lia.
Qed.

Lemma merge_loop_totals (chunks : list Chunk.t) : forall prev,
  total_tokens (merge_loop _config prev chunks)
  = Chunk.token_count prev + total_tokens chunks
  /\ (length (merge_loop _config prev chunks) <= S (length chunks))%nat.
Proof.
  induction chunks as [|c rest IH]; intros prev; cbn [merge_loop].
  - unfold total_tokens. cbn. split; lia.
  - destruct (mergeable _config prev c).
    + destruct (IH (merge_pair prev c)) as [Ht Hl].
      rewrite Ht. unfold total_tokens. cbn. split; lia.
    + destruct (IH c) as [Ht Hl]. unfold total_tokens in *. cbn.
      cbn in Ht. rewrite Ht. split; lia.
Qed.

End MergeRuns.

(** X1. The merge pass only glues runs of neighbours: its input splits into
    consecutive runs, one per output chunk; each run carries one section
    path, and its output chunk is the run's single chunk or the chunk built
    from the texts joined by a blank line, the start of the first, the end
    of the last and the sum of the token counts. *)
Theorem merge_glues_runs (_config : ChunkingConfig) (chunks : list Chunk.t) :
  exists runs,
    concat runs = chunks
    /\ Forall2 merged_from runs (_merge_small_chunks _config chunks).
Proof.
  destruct chunks as [|c rest].
  - exists []. split; [reflexivity | constructor].
  - destruct (merge_loop_runs _config rest (merged_from_one c))
      as (r & runs & He & Hf).
    exists (([c] ++ r) :: runs). split; [now rewrite <- He | exact Hf].
Qed.

(** X2. When no chunk is below [min_tokens] the merge pass returns its input
    unchanged. *)
Theorem merge_without_small_chunks (_config : ChunkingConfig)
    (chunks : list Chunk.t) :
  Forall (fun c => min_tokens _config <= Chunk.token_count c) chunks ->
  _merge_small_chunks _config chunks = chunks.
Proof. intros H. now apply merge_fixed, no_small_no_neighbours. Qed.

(** X3. The merge pass never adds a chunk and keeps the sum of the token
    counts. *)
Theorem merge_keeps_total (_config : ChunkingConfig) (chunks : list Chunk.t) :
  total_tokens (_merge_small_chunks _config chunks) = total_tokens chunks
  /\ (length (_merge_small_chunks _config chunks) <= length chunks)%nat
  /\ (chunks <> [] -> _merge_small_chunks _config chunks <> []).
Proof.
  destruct chunks as [|c rest].
  - repeat split; auto.
  - cbn [_merge_small_chunks].
    destruct (merge_loop_totals _config rest c) as [Ht Hl].
    split; [|split].
    + rewrite Ht. reflexivity.
    + cbn [length]. lia.
    + intros _ E. rewrite E in Ht. unfold total_tokens in Ht.
      destruct rest; cbn [merge_loop] in E; [discriminate|].
      destruct (mergeable _config c t).
      * clear Ht Hl. revert E. generalize (merge_pair c t) as p.
        induction rest as [|x rest' IH]; intros p; cbn [merge_loop];
          [discriminate|].
        destruct (mergeable _config p x); [apply IH | discriminate].
      * discriminate.
Qed.

(* ===================================================================== *)
(** ** Further properties of the pipeline *)
(* ===================================================================== *)

Section EmittedChunks.

Context {host : Host}.
Variable _config : ChunkingConfig.
Variables book_id book_title book_author language : str.

(** The fields every chunk built by the assembler carries: the metadata it
    was given and a positive token count. *)
Let emitted (c : Chunk.t) : Prop :=
  Chunk.book_id c = book_id /\ Chunk.book_title c = book_title
  /\ Chunk.book_author c = book_author /\ Chunk.language c = language
  /\ 0 < Chunk.token_count c.

Lemma split_strip_nonempty (text : str) :
  strip text <> [] -> 0 < estimate_tokens text.
Proof.
  intros Hne. unfold estimate_tokens.
  destruct (split text) eqn:Es; [|cbn; lia].
  apply strip_nil_split in Es. contradiction.
Qed.

Lemma window_loop_emitted (text path type : str) (offset : Z)
    (words : list str) (pos : Z) (cs : list Chunk.t) :
  window_loop _config book_id book_title book_author language text path
    type offset words pos = Ok cs ->
  Forall emitted cs.
Proof.
  revert cs.
  funelim (window_loop _config book_id book_title book_author language
             text path type offset words pos);
    intros cs Hcs.
  - destruct (window_chunk _ _ _ _ _ _ _ _ _ _ _) as [c|e] eqn:Ec;
      [|discriminate].
    cbn [bind] in Hcs.
    assert (Hc : emitted c).
    { unfold window_chunk in Ec.
      destruct (slice words pos _) as [|w ws]; [discriminate|].
      injection Ec as <-. unfold emitted. cbn. repeat split; lia. }
    destruct (_ >=? _).
    + injection Hcs as <-. now constructor.
    + destruct (window_loop _ _ _ _ _ _ _ _ _ _ _) as [rest|e] eqn:Er;
        [|discriminate].
      injection Hcs as <-. constructor; [exact Hc|].
      eapply H; eauto.
  - injection Hcs as <-. constructor.
Qed.

Lemma sliding_emitted (text path type : str) (offset : Z)
    (cs : list Chunk.t) :
  _sliding_window_chunks _config book_id book_title book_author language
    text path type offset = Ok cs ->
  Forall emitted cs.
Proof.
  unfold _sliding_window_chunks.
  destruct (split text) as [|w ws] eqn:Ew.
  - intros [= <-]. constructor.
  - destruct (_ <=? _).
    + intros [= <-]. repeat constructor; cbn; lia.
    + apply window_loop_emitted.
Qed.

Lemma leaf_emitted (path : str) (f : Sec.fields) (cs : list Chunk.t) :
  leaf_chunks _config book_id book_title book_author language path f
  = Ok cs ->
  Forall emitted cs.
Proof.
  unfold leaf_chunks. destruct (_ <=? _).
  - destruct (strip (Sec.text f)) eqn:Es; intros [= <-]; repeat constructor.
    cbn. apply split_strip_nonempty. now rewrite Es.
  - apply sliding_emitted.
Qed.

Lemma paragraphs_emitted (text path : str) (offset : Z) :
  forall paras pos cs,
    paragraph_loop _config book_id book_title book_author language text
      path offset paras pos = Ok cs ->
    Forall (fun c => emitted c /\ Chunk.section_path c = path
                     /\ Chunk.section_type c = s_paragraph) cs.
Proof.
  induction paras as [|para rest IH]; intros pos cs; cbn [paragraph_loop].
  - intros [= <-]. constructor.
  - destruct (strip para) as [|c0 sp] eqn:Es; [apply IH|].
    destruct (Z.gtb_spec (estimate_tokens (c0 :: sp)) (max_tokens _config)).
    + destruct (_sliding_window_chunks _ _ _ _ _ _ _ _ _) as [w|] eqn:Ew;
        [|discriminate]. cbn [bind].
      destruct (paragraph_loop _ _ _ _ _ _ _ _ _ _) as [more|] eqn:Em;
        [|discriminate]. cbn [bind].
      intros [= <-]. apply Forall_app. split; [|eauto].
      pose proof (sliding_emitted _ _ _ _ Ew) as H1.
      pose proof (sliding_counted _ _ _ _ _ _ _ _ _ Ew) as H2.
      rewrite Forall_forall in *. intros c Hc.
      specialize (H1 c Hc). specialize (H2 c Hc). tauto.
    + cbn [bind].
      destruct (paragraph_loop _ _ _ _ _ _ _ _ _ _) as [more|] eqn:Em;
        [|discriminate]. cbn [bind].
      intros [= <-]. constructor; [|eauto].
      unfold emitted. cbn. repeat split.
      rewrite <- Es, estimate_strip. apply split_strip_nonempty.
      now rewrite Es.
Qed.

(** Every chunk of the assembler, on either path. *)
Lemma assembled_emitted (text : str) (sections : list Sec.tree)
    (pre : list Chunk.t) :
  match sections with
  | _ :: _ =>
      _chunk_sections _config book_id book_title book_author language
        sections []
  | [] =>
      _chunk_by_paragraphs _config book_id book_title book_author language
        text [] 0
  end = Ok pre ->
  Forall emitted pre.
Proof.
  destruct sections as [|s ss].
  - unfold _chunk_by_paragraphs. intros H.
    apply paragraphs_emitted in H.
    eapply Forall_impl; [|exact H]. cbn. tauto.
  - apply sections_Forall. intros path f cs. apply leaf_emitted.
Qed.

Lemma merge_emitted (chunks : list Chunk.t) :
  Forall emitted chunks -> Forall emitted (_merge_small_chunks _config chunks).
Proof.
  apply merge_Forall. unfold emitted. intros a b Ha Hb _.
  cbn [merge_pair Chunk.new Chunk.book_id Chunk.book_title
       Chunk.book_author Chunk.language Chunk.token_count].
  repeat split; try tauto. lia.
Qed.

Lemma assigned_emitted (chunks : list Chunk.t) :
  Forall emitted chunks -> Forall emitted (assign_in_place chunks).
Proof. apply assign_in_place_Forall. now intros c i t. Qed.

End EmittedChunks.

Lemma chunk_carries {host : Host} (_config : ChunkingConfig)
    (parsed_book : ParsedBook) (book_id : option str) (out : list Chunk.t) :
  chunk _config parsed_book book_id = Ok out ->
  Forall (carries (effective_book_id book_id) parsed_book) out.
Proof.
  intros Hout. apply chunk_inv in Hout as [[_ ->]|Hout]; [constructor|].
  destruct Hout as (sections & pre & _ & Hpre & ->).
  apply assembled_emitted in Hpre.
  apply (merge_emitted _config), assigned_emitted in Hpre.
  eapply Forall_impl; [|exact Hpre]. unfold carries. cbn. tauto.
Qed.

(** X4. Every chunk [chunk] returns carries the title, author and language
    of the parsed book, and one book id: the [book_id] argument when that
    is a non-empty string, the generated uuid when the argument is [None]
    or the empty string. *)
Theorem chunk_metadata {host : Host} (_config : ChunkingConfig)
    (parsed_book : ParsedBook) (book_id : option str) (out : list Chunk.t) :
  chunk _config parsed_book book_id = Ok out ->
  (forall b, book_id = Some b -> b <> [] ->
             Forall (carries b parsed_book) out)
  /\ (book_id = None \/ book_id = Some [] ->
      Forall (carries uuid4_str parsed_book) out).
Proof.
  intros Hout. apply chunk_carries in Hout. split.
  - intros b -> Hb. destruct b as [|c b]; [contradiction | exact Hout].
  - intros [->| ->]; exact Hout.
Qed.

(** X5. [chunk] never returns a blank chunk: whatever the configuration,
    every chunk it returns has a text with at least one word and a token
    count of at least 1. *)
Theorem chunk_never_blank {host : Host} (_config : ChunkingConfig)
    (parsed_book : ParsedBook) (book_id : option str) (out : list Chunk.t) :
  chunk _config parsed_book book_id = Ok out ->
  Forall (fun c => strip (Chunk.text c) <> [] /\ 1 <= Chunk.token_count c)
         out.
Proof.
  intros Hout. apply chunk_inv in Hout as [[_ ->]|Hout]; [constructor|].
  destruct Hout as (sections & pre & _ & Hpre & ->).
  pose proof (assembled_counted _ _ _ _ Hpre) as Hc.
  apply (merge_counted _config) in Hc.
  apply (@assign_in_place_Forall counted) in Hc; [|now intros c i t].
  apply assembled_emitted in Hpre.
  apply (merge_emitted _config), assigned_emitted in Hpre.
  rewrite Forall_forall in *. intros c Hin.
  specialize (Hc c Hin). destruct (Hpre c Hin) as (_ & _ & _ & _ & Hpos).
  split; [|lia]. intros Hs. apply strip_nil_split in Hs.
  unfold counted, estimate_tokens in Hc. rewrite Hs in Hc. cbn in Hc. lia.
Qed.

Section FallbackNumbering.

Lemma count_path_all (p : str) (l : list Chunk.t) :
  Forall (fun c => Chunk.section_path c = p) l ->
  count_path p l = length l.
Proof.
  unfold count_path, same_path.
  induction 1 as [|c l' Hc _ IH]; [reflexivity|].
  cbn [filter]. rewrite Hc, str_eqb_refl. cbn [length]. now rewrite IH.
Qed.

End FallbackNumbering.

(** X6. When the text has no structural marker, every chunk [chunk] returns
    has the kind "paragraph" and the empty section path, and the chunks are
    numbered through: the k-th chunk has [chunk_index] k, and
    [total_chunks_in_section] is the number of chunks returned. *)
Theorem fallback_numbering {host : Host} (_config : ChunkingConfig)
    (parsed_book : ParsedBook) (book_id : option str) (out : list Chunk.t) :
  _detect_sections (raw_text parsed_book) = Ok [] ->
  chunk _config parsed_book book_id = Ok out ->
  forall k c,
    nth_error out k = Some c ->
    Chunk.section_type c = s_paragraph
    /\ Chunk.section_path c = []
    /\ Chunk.chunk_index c = Z.of_nat k
    /\ Chunk.total_chunks_in_section c = Z.of_nat (length out).
Proof.
  intros Hs Hout.
  apply chunk_inv in Hout as [[_ ->]|Hout].
  { intros [|k] c; discriminate. }
  destruct Hout as (sections & pre & Hs' & Hpre & ->).
  assert (sections = []) by congruence. subst sections.
  unfold _chunk_by_paragraphs in Hpre. apply paragraphs_emitted in Hpre.
  set (P := fun c => Chunk.section_path c = @nil char
                     /\ Chunk.section_type c = s_paragraph).
  assert (Hm : Forall P (_merge_small_chunks _config pre)).
  { apply merge_Forall.
    - unfold P. intros a b Ha Hb _. cbn. exact Ha.
    - eapply Forall_impl; [|exact Hpre]. unfold P. cbn. tauto. }
  clear Hpre. revert Hm.
  generalize (_merge_small_chunks _config pre) as all. intros all Hall.
  assert (Hp : Forall (fun c => Chunk.section_path c = @nil char) all).
  { eapply Forall_impl; [|exact Hall]. unfold P. cbn. tauto. }
  intros k c. rewrite assign_in_place_numbered, numbered_nth, length_numbered.
  destruct (nth_error all k) as [c0|] eqn:Ek; [|discriminate].
  cbn [option_map]. intros [= <-]. cbn [app].
  assert (Hc0 : P c0).
  { rewrite Forall_forall in Hall. eapply Hall, nth_error_In; eauto. }
  destruct Hc0 as [Hp0 Ht0]. cbn. rewrite Hp0.
  repeat split; auto.
  - rewrite count_path_all.
    + rewrite length_firstn.
      assert (k < length all)%nat
        by (apply nth_error_Some; congruence).
      f_equal. lia.
    + rewrite <- (firstn_skipn k all) in Hp.
      now apply Forall_app in Hp.
  - now rewrite count_path_all.
Qed.

(* ===================================================================== *)
(** ** The windows of the sliding-window splitter *)
(* ===================================================================== *)

Section WindowContents.

Context {host : Host}.
Variable _config : ChunkingConfig.
Variables book_id book_title book_author language : str.
Variables (text section_path section_type : str) (char_offset : Z).

Lemma slice_clamp {A} (l : list A) (lo hi : Z) :
  slice l lo (Z.min hi (Z.of_nat (length l))) = slice l lo hi.
Proof.
  unfold slice, norm_index.
  destruct (Z.ltb_spec hi 0), (Z.ltb_spec (Z.min hi (Z.of_nat (length l))) 0);
    try lia.
  - f_equal. lia.
  - f_equal. lia.
Qed.

(** Started before the end of the words, the loop emits a window. *)
Lemma window_loop_nonempty (words : list str) (pos : Z) :
  pos < Z.of_nat (length words) ->
  window_loop _config book_id book_title book_author language text
    section_path section_type char_offset words pos <> Ok [].
Proof.
  funelim (window_loop _config book_id book_title book_author language
             text section_path section_type char_offset words pos);
    intros Hpos; [|lia].
  destruct (window_chunk _ _ _ _ _ _ _ _ _ _ _); cbn [bind]; [|discriminate].
  destruct (_ >=? _); [discriminate|].
  destruct (window_loop _ _ _ _ _ _ _ _ _ _ _); discriminate.
Qed.

(** The k-th window of the loop started at [pos] holds the words from
    [pos + k * step] to [pos + k * step + target]; it is the last one
    exactly when it reaches the end of the words. *)
Lemma window_loop_nth (words : list str) (pos : Z) :
  0 < target_tokens _config -> 0 <= overlap_tokens _config ->
  Forall is_word words -> 0 <= pos ->
  forall cs,
    window_loop _config book_id book_title book_author language text
      section_path section_type char_offset words pos = Ok cs ->
    forall k c,
      nth_error cs k = Some c ->
      let lo := pos + Z.of_nat k * window_step _config in
      Chunk.text c
      = join [SPACE] (slice words lo (lo + target_tokens _config))
      /\ lo < Z.of_nat (length words)
      /\ (lo + target_tokens _config < Z.of_nat (length words)
          <-> (S k < length cs)%nat).
Proof.
  intros Ht Ho Hw.
  funelim (window_loop _config book_id book_title book_author language
             text section_path section_type char_offset words pos);
    intros Hpos cs Hcs k c0 Hk.
  - destruct (window_chunk _ _ _ _ _ _ _ _ _ _ _) as [c|ex] eqn:Ec;
      [|discriminate].
    cbn [bind] in Hcs.
    pose proof (window_chunk_inv _ _ _ _ _ _ _ _ _ _ _ Ec) as (Htx & _).
    rewrite slice_clamp in Htx.
    destruct (Z.geb_spec (Z.min (pos + target_tokens _config)
                            (Z.of_nat (length words)))
                (Z.of_nat (length words))) as [Hge|Hlt].
    + injection Hcs as <-. destruct k as [|k]; [|destruct k; discriminate].
      injection Hk as <-. cbn [Z.of_nat Z.mul length]. rewrite Z.add_0_r.
      split; [exact Htx|]. split; [lia|]. split; lia.
    + destruct (window_loop _ _ _ _ _ _ _ _ _ _ _) as [rest|ex] eqn:Er;
        [|discriminate].
      injection Hcs as <-. destruct k as [|k].
      * injection Hk as <-. cbn [Z.of_nat Z.mul]. rewrite Z.add_0_r.
        split; [exact Htx|]. split; [lia|]. cbn [length]. split; [|lia].
        intros Hmore.
        destruct rest as [|r rest']; [|cbn [length]; lia].
        exfalso. eapply window_loop_nonempty; [|exact Er]. lia.
      * cbn [nth_error] in Hk.
        assert (Hp' : 0 <= pos + Z.max (target_tokens _config
                                        - overlap_tokens _config) 1) by lia.
        destruct (H c Ht Ho Hw Hp' rest eq_refl k c0 Hk) as (H1 & H2 & H3).
        unfold window_step in *.
        replace (pos + Z.of_nat (S k)
                       * Z.max (target_tokens _config
                                - overlap_tokens _config) 1)
          with (pos + Z.max (target_tokens _config
                             - overlap_tokens _config) 1
                + Z.of_nat k * Z.max (target_tokens _config
                                      - overlap_tokens _config) 1)
          by lia.
        split; [exact H1|]. split; [exact H2|].
        cbn [length]. rewrite H3. lia.
  - injection Hcs as <-. destruct k; discriminate.
Qed.

End WindowContents.

Lemma sliding_nth {host : Host} (_config : ChunkingConfig)
    (book_id book_title book_author language text path type : str)
    (offset : Z) (cs : list Chunk.t) :
  0 < target_tokens _config -> 0 <= overlap_tokens _config ->
  max_tokens _config < Z.of_nat (length (split text)) ->
  _sliding_window_chunks _config book_id book_title book_author language
    text path type offset = Ok cs ->
  (split text <> [] -> cs <> [])
  /\ forall k c,
       nth_error cs k = Some c ->
       let lo := Z.of_nat k * window_step _config in
       Chunk.text c
       = join [SPACE] (slice (split text) lo (lo + target_tokens _config))
       /\ split (Chunk.text c)
          = slice (split text) lo (lo + target_tokens _config)
       /\ (lo + target_tokens _config < Z.of_nat (length (split text))
           <-> (S k < length cs)%nat).
Proof.
  intros Ht Ho Hmax. unfold _sliding_window_chunks.
  destruct (split text) as [|w ws] eqn:Ew.
  { intros [= <-]. split; [easy|]. intros [|k] c; discriminate. }
  destruct (Z.leb_spec (Z.of_nat (length (w :: ws))) (max_tokens _config));
    [lia|].
  intros Hcs.
  assert (Hw : Forall is_word (w :: ws)) by (rewrite <- Ew; apply split_words).
  split.
  - intros _ ->. revert Hcs. apply window_loop_nonempty. cbn [length]. lia.
  - intros k c Hk.
    destruct (window_loop_nth _config book_id book_title book_author
                language text path type offset (pos := 0) Ht Ho Hw
                (Z.le_refl 0) Hcs k Hk) as (H1 & H2 & H3).
    cbn [Z.add] in H1, H2, H3. cbv zeta.
    split; [exact H1|]. split; [|exact H3].
    rewrite H1. apply split_join. now apply Forall_slice.
Qed.

(** X7. The windows of [_sliding_window_chunks].  For a text with more than
    [max_tokens] words and a positive [target_tokens], the k-th chunk holds
    the words number [k * step] to [k * step + target_tokens] of the text
    (fewer at the end of the text), joined by single spaces, where
    [step = max(target_tokens - overlap_tokens, 1)]; with an overlap that
    is not negative, a window is followed by another one exactly when it
    does not reach the last word; and a text that has a word gives at
    least one chunk. *)
Theorem sliding_windows {host : Host} (_config : ChunkingConfig)
    (book_id book_title book_author language text path type : str)
    (offset : Z) (cs : list Chunk.t) :
  0 < target_tokens _config -> 0 <= overlap_tokens _config ->
  max_tokens _config < Z.of_nat (length (split text)) ->
  _sliding_window_chunks _config book_id book_title book_author language
    text path type offset = Ok cs ->
  (split text <> [] -> cs <> [])
  /\ forall k c,
       nth_error cs k = Some c ->
       let lo := Z.of_nat k * window_step _config in
       Chunk.text c
       = join [SPACE] (slice (split text) lo (lo + target_tokens _config))
       /\ split (Chunk.text c)
          = slice (split text) lo (lo + target_tokens _config)
       /\ (lo + target_tokens _config < Z.of_nat (length (split text))
           <-> (S k < length cs)%nat).
Proof. apply sliding_nth. Qed.

(** X8. With [0 <= overlap_tokens < target_tokens], every window that is
    followed by another one has exactly [target_tokens] words, and its last
    [overlap_tokens] words are the first [overlap_tokens] words of the next
    window. *)
Theorem windows_overlap {host : Host} (_config : ChunkingConfig)
    (book_id book_title book_author language text path type : str)
    (offset : Z) (cs : list Chunk.t) :
  0 <= overlap_tokens _config < target_tokens _config ->
  max_tokens _config < Z.of_nat (length (split text)) ->
  _sliding_window_chunks _config book_id book_title book_author language
    text path type offset = Ok cs ->
  forall k c c',
    nth_error cs k = Some c ->
    nth_error cs (S k) = Some c' ->
    Z.of_nat (length (split (Chunk.text c))) = target_tokens _config
    /\ skipn (Z.to_nat (target_tokens _config - overlap_tokens _config))
         (split (Chunk.text c))
       = firstn (Z.to_nat (overlap_tokens _config)) (split (Chunk.text c')).
Proof.
  intros [Ho Hot] Hmax Hcs k c c' Hk Hk'.
  assert (Ht : 0 < target_tokens _config) by lia.
  destruct (sliding_nth _ _ _ _ _ _ _ _ _ Ht Ho Hmax Hcs) as [_ Hnth].
  destruct (Hnth k c Hk) as (_ & Hc & Hlast).
  destruct (Hnth (S k) c' Hk') as (_ & Hc' & _).
  assert (Hmore : (S k < length cs)%nat)
    by (apply nth_error_Some; congruence).
  apply Hlast in Hmore. clear Hlast Hnth.
  unfold window_step in *.
  rewrite Z.max_l in * by lia.
  set (W := split text) in *.
  set (t := target_tokens _config) in *.
  set (o := overlap_tokens _config) in *.
  assert (Hk0 : 0 <= Z.of_nat k * (t - o)) by nia.
  rewrite Hc, Hc'.
  rewrite slice_within by lia.
  rewrite <- slice_clamp.
  rewrite slice_within by nia.
  split.
  - rewrite length_firstn, length_skipn. lia.
  - rewrite skipn_firstn_comm, skipn_skipn, firstn_firstn.
    f_equal; [|f_equal]; nia.
Qed.

(** X9. With [target_tokens = 0] the sliding-window splitter raises
    IndexError on every text that has words, and more of them than
    [max_tokens]: the first window is empty. *)
Theorem sliding_zero_target {host : Host} (_config : ChunkingConfig)
    (book_id book_title book_author language text path type : str)
    (offset : Z) :
  target_tokens _config = 0 ->
  split text <> [] ->
  max_tokens _config < Z.of_nat (length (split text)) ->
  _sliding_window_chunks _config book_id book_title book_author language
    text path type offset = Raise IndexError.
Proof.
  intros Ht Hne Hmax. unfold _sliding_window_chunks.
  destruct (split text) as [|w ws] eqn:Ew; [easy|].
  destruct (Z.leb_spec (Z.of_nat (length (w :: ws))) (max_tokens _config));
    [lia|].
  simp window_loop.
  destruct (Z_lt_dec 0 (Z.of_nat (length (w :: ws)))) as [Hl|Hn];
    [|cbn [length] in Hn; lia].
  cbn. rewrite Ht. reflexivity.
Qed.

(** X10. [estimate_tokens] counts words: it is 0 exactly for a blank text,
    stripping the text does not change it, and the count of two texts put
    together with the blank-line separator of the merge pass is the sum of
    their counts. *)
Theorem estimate_tokens_words (text : str) :
  (estimate_tokens text = 0 <-> strip text = [])
  /\ estimate_tokens (strip text) = estimate_tokens text
  /\ forall other,
       estimate_tokens (text ++ [NL; NL] ++ other)
       = estimate_tokens text + estimate_tokens other.
Proof.
  split; [|split].
  - rewrite strip_nil_split. unfold estimate_tokens.
    destruct (split text); cbn [length]; split; intros H;
      try reflexivity; try discriminate; lia.
  - apply estimate_strip.
  - intros other. unfold estimate_tokens.
    rewrite split_blank_line, length_app. lia.
Qed.

(* ===================================================================== *)
(** ** The section tree lists the markers in order *)
(* ===================================================================== *)

Section LayoutFacts.

Lemma spans_le (h : heap) (lo e : nat) (refs : list nat) :
  spans h lo refs e -> (lo <= e)%nat.
Proof. induction 1; lia. Qed.

Lemma spans_app (h : heap) (a b c : nat) (l1 l2 : list nat) :
  spans h a l1 b -> spans h b l2 c -> spans h a (l1 ++ l2) c.
Proof.
  induction 1 as [lo|lo m e cs Hlo H1 _ H2 IH2]; intros Hb; [exact Hb|].
  cbn [app]. econstructor; eauto.
Qed.

Lemma spans_snoc_inv (h : heap) (l : list nat) : forall lo c e,
  spans h lo (l ++ [c]) e -> spans h lo l c /\ spans h c [c] e.
Proof.
  induction l as [|x l' IH]; intros lo c e H; cbn [app] in H.
  - inversion H; subst. split; [constructor | exact H].
  - inversion H as [|? m ? ? Hlo H1 H2]; subst.
    destruct (IH _ _ _ H2) as [Ha Hb]. split; [|exact Hb].
    econstructor; eauto.
Qed.

Lemma spans_one_inv (h : heap) (r e : nat) :
  spans h r [r] e -> spans h (S r) (subs_at h r) e.
Proof.
  intros H. inversion H as [|? m ? ? Hlo H1 H2]; subst.
  now inversion H2; subst.
Qed.

(** A block only depends on the objects inside it. *)
Lemma spans_agree (h h' : heap) (lo e : nat) (refs : list nat) :
  spans h lo refs e ->
  (length h <= length h')%nat ->
  (forall i, (lo <= i < e)%nat -> subs_at h' i = subs_at h i) ->
  spans h' lo refs e.
Proof.
  intros H Hlen. induction H as [lo|lo m e cs Hlo H1 IH1 H2 IH2];
    intros Hsub; [constructor|].
  pose proof (spans_le H1). pose proof (spans_le H2).
  apply spans_cons with (m := m); [lia| |].
  - rewrite Hsub by lia. apply IH1. intros i Hi. apply Hsub. lia.
  - apply IH2. intros i Hi. apply Hsub. lia.
Qed.

Lemma spine_tail (h : heap) (c : nat) (st : list nat) :
  spine h (c :: st) -> spine h st.
Proof. destruct st as [|p st']; cbn; tauto. Qed.

Lemma spine_suffix (h : heap) (pre st : list nat) :
  spine h (pre ++ st) -> spine h st.
Proof.
  induction pre as [|x pre IH]; [auto|].
  cbn [app]. intros H. apply IH. eapply spine_tail; eauto.
Qed.

Lemma last_app_nonempty {A} (pre st : list A) (d : A) :
  st <> [] -> last (pre ++ st) d = last st d.
Proof.
  intros Hne. induction pre as [|x pre IH]; [reflexivity|].
  cbn [app]. destruct (pre ++ st) eqn:E.
  - destruct pre; [cbn in E; contradiction | discriminate].
  - rewrite <- IH. reflexivity.
Qed.

Lemma rooted_suffix (rs pre st : list nat) :
  rooted rs (pre ++ st) -> rooted rs st.
Proof.
  destruct st as [|x st']; [easy|].
  unfold rooted. destruct (pre ++ x :: st') eqn:E.
  - destruct pre; discriminate.
  - rewrite <- E, last_app_nonempty by discriminate. auto.
Qed.

(** The entries of the stack lie below its top, in the heap. *)
Lemma spine_below (h : heap) (st : list nat) : forall top,
  spine h (top :: st) -> Forall (fun p => (p < top)%nat) st.
Proof.
  induction st as [|p st' IH]; intros top H; [constructor|].
  destruct H as (Hlt & _ & H). constructor; [exact Hlt|].
  eapply Forall_impl; [|exact (IH _ H)]. cbn. intros. lia.
Qed.

Lemma spine_agree (h h' : heap) (st : list nat) :
  spine h st ->
  (forall p, In p (tl st) -> subs_at h' p = subs_at h p) ->
  spine h' st.
Proof.
  induction st as [|c st' IH]; [auto|].
  destruct st' as [|p st'']; [auto|].
  intros (Hlt & Hl & H) Hsub. split; [exact Hlt|]. split.
  - rewrite Hsub by (cbn; auto). exact Hl.
  - apply IH; [exact H|]. intros q Hq. apply Hsub. cbn. now right.
Qed.

(** On a sorted stack, what the pop loop keeps is the lower part of the
    stack. *)
Lemma filter_sorted_suffix (h : heap) (level : Z) (st : list nat) :
  stack_sorted h st ->
  exists pre, st = pre ++ filter (fun r => lvl h r <? level) st.
Proof.
  induction 1 as [|a l Hs [pre IH] Hall]; [now exists []|].
  cbn [filter]. destruct (Z.ltb_spec (lvl h a) level) as [Hlt|Hge].
  - exists []. cbn [app]. f_equal. symmetry. apply forallb_filter_id.
    apply forallb_forall. intros r Hr.
    rewrite Forall_forall in Hall. specialize (Hall r Hr).
    apply Z.ltb_lt. lia.
  - exists (a :: pre). cbn [app]. now f_equal.
Qed.

Section Extension.

(** The heap before and after a section [n] is attached below [top]. *)
Variables (h h' : heap) (top n : nat).
Hypothesis Hn : length h = n.
Hypothesis Hn' : length h' = S n.
Hypothesis Htop : (top < n)%nat.
Hypothesis Hsub :
  forall r, subs_at h' r
            = if (r =? top)%nat then subs_at h r ++ [n] else subs_at h r.

Lemma new_block : spans h' n [n] (S n).
Proof.
  apply spans_cons with (m := S n); [lia| |constructor].
  rewrite Hsub. destruct (Nat.eqb_spec n top); [lia|].
  rewrite subs_at_dangling by lia. constructor.
Qed.

Lemma old_block (lo e : nat) (refs : list nat) :
  spans h lo refs e -> (e <= top \/ top < lo)%nat -> spans h' lo refs e.
Proof.
  intros H Hr. apply spans_agree with (h := h); [exact H | lia|].
  intros i Hi. rewrite Hsub. destruct (Nat.eqb_spec i top); [lia | reflexivity].
Qed.

Lemma top_block : spans h top [top] n -> spans h' top [top] (S n).
Proof.
  intros H. apply spans_one_inv in H.
  apply spans_cons with (m := S n); [lia| |constructor].
  rewrite Hsub, Nat.eqb_refl.
  eapply spans_app; [|exact new_block].
  apply old_block; [exact H | lia].
Qed.

(** The block of every entry of the stack grows by the new section. *)
Lemma spine_blocks (st : list nat) : forall q,
  spine h (q :: st) ->
  (q <= top)%nat ->
  (spans h q [q] n -> spans h' q [q] (S n)) ->
  spans h (last (q :: st) O) [last (q :: st) O] n ->
  spans h' (last (q :: st) O) [last (q :: st) O] (S n)
  /\ (last (q :: st) O <= top)%nat.
Proof.
  induction st as [|p st' IH]; intros q Hsp Hq Hb Hlast.
  - cbn [last] in *. auto.
  - destruct Hsp as (Hlt & [l Hl] & Hsp).
    change (last (q :: p :: st') O) with (last (p :: st') O) in *.
    apply IH; [exact Hsp | lia | | exact Hlast].
    intros Hp. apply spans_one_inv in Hp. rewrite Hl in Hp.
    apply spans_snoc_inv in Hp as [Hp1 Hp2].
    apply spans_cons with (m := S n); [lia| |constructor].
    rewrite Hsub. destruct (Nat.eqb_spec p top); [lia|].
    rewrite Hl. eapply spans_app; [|exact (Hb Hp2)].
    apply old_block; [exact Hp1 | lia].
Qed.

End Extension.

End LayoutFacts.

Section TiledFacts.

Variable text : str.

Lemma build_init_tiled : tiled build_init.
Proof. repeat split; constructor. Qed.

Lemma build_step_tiled (marker : Marker.t) (end_ : Z) (s : build_state) :
  build_inv s -> tiled s -> tiled (build_step text marker end_ s).
Proof.
  intros Hinv (Hspans & Hspine & Hrooted).
  pose proof (build_step_spec text marker end_ Hinv)
    as (Hst & Hlen & _ & Hk).
  destruct Hinv as (Hv & Hs & _).
  destruct (filter_sorted_suffix (Marker.level marker) Hs) as [pre Hpre].
  set (s' := build_step text marker end_ s) in *.
  set (n := length (objs s)) in *.
  destruct (filter _ (stack s)) as [|top kept] eqn:Ek.
  - destruct Hk as [Hroots Hsub].
    unfold tiled. rewrite Hst, Hroots, Hlen. split; [|split].
    + eapply spans_app.
      * apply spans_agree with (h := objs s); [exact Hspans | lia|].
        intros i _. apply Hsub.
      * apply spans_cons with (m := S n); [lia| |constructor].
        rewrite Hsub, subs_at_dangling by (fold n; lia). constructor.
    + exact I.
    + cbn. now exists (roots s).
  - destruct Hk as (Hroots & _ & Hsub).
    assert (Htop : (top < n)%nat).
    { rewrite Forall_forall in Hv. apply Hv. rewrite Hpre.
      apply in_or_app. right. now left. }
    rewrite Hpre in Hspine, Hrooted.
    apply spine_suffix in Hspine. apply rooted_suffix in Hrooted.
    destruct Hrooted as [l Hl].
    unfold tiled. rewrite Hst, Hroots, Hlen. split; [|split].
    + rewrite Hl in Hspans |- *.
      apply spans_snoc_inv in Hspans as [H1 H2].
      destruct (@spine_blocks (objs s) (objs s') top n eq_refl Hlen Htop Hsub
                  kept top Hspine (Nat.le_refl _)
                  (@top_block (objs s) (objs s') top n eq_refl Hlen Htop Hsub)
                  H2) as [Hb Hle].
      eapply spans_app; [|exact Hb].
      apply (@old_block (objs s) (objs s') top n eq_refl Hlen Htop Hsub);
        [exact H1 | now left].
    + change ((top < n)%nat
              /\ (exists l0, subs_at (objs s') top = l0 ++ [n])
              /\ spine (objs s') (top :: kept)).
      split; [exact Htop|]. split.
      * exists (subs_at (objs s) top). now rewrite Hsub, Nat.eqb_refl.
      * apply spine_agree with (h := objs s); [exact Hspine|].
        intros p Hp. cbn [tl] in Hp. rewrite Hsub.
        pose proof Hspine as Hb. apply spine_below in Hb.
        rewrite Forall_forall in Hb. specialize (Hb p Hp).
        destruct (Nat.eqb_spec p top); [lia | reflexivity].
    + exists l. rewrite Hl. reflexivity.
Qed.

Lemma reachable_tiled (s : build_state) : reachable text s -> tiled s.
Proof.
  induction 1 as [|marker end_ s Hs IH]; [apply build_init_tiled|].
  apply build_step_tiled; [|exact IH].
  now apply (reachable_inv (text := text)).
Qed.

End TiledFacts.

Section HeapContents.

Lemma map_fst_append_subsection (h : heap) : forall r c,
  map fst (append_subsection h r c) = map fst h.
Proof.
  induction h as [|[f subs] h' IH]; intros [|r] c; cbn; auto.
  now rewrite IH.
Qed.

Lemma build_step_objs (text : str) (marker : Marker.t) (end_ : Z)
    (s : build_state) :
  map fst (objs (build_step text marker end_ s))
  = map fst (objs s) ++ [section_of text marker end_].
Proof.
  unfold build_step.
  destruct (pop_stack _ _ _); cbn [objs];
    [|rewrite map_fst_append_subsection]; now rewrite map_app.
Qed.

Lemma build_loop_objs (text : str) (markers : list Marker.t) : forall s,
  map fst (objs (build_loop text markers s))
  = map fst (objs s) ++ sections_of text markers.
Proof.
  induction markers as [|m rest IH]; intros s; cbn [build_loop sections_of].
  - now rewrite app_nil_r.
  - rewrite IH, build_step_objs, <- app_assoc. reflexivity.
Qed.

Lemma firstn_split {A} (l : list A) (a m e : nat) :
  (a <= m <= e)%nat ->
  firstn (e - a) (skipn a l)
  = firstn (m - a) (skipn a l) ++ firstn (e - m) (skipn m l).
Proof.
  intros H. replace (e - a)%nat with ((m - a) + (e - m))%nat by lia.
  rewrite firstn_add, skipn_skipn. do 3 f_equal. lia.
Qed.

(** In a block, the trees of the references list the objects of the block
    in heap order. *)
Lemma spans_nodes (h : heap) (lo e : nat) (refs : list nat) :
  spans h lo refs e ->
  (lo <= length h)%nat ->
  forall ts,
    Forall2 (represents h) refs ts ->
    (e <= length h)%nat
    /\ flat_map nodes ts = map fst (firstn (e - lo) (skipn lo h)).
Proof.
  induction 1 as [lo|lo m e cs Hlo H1 IH1 H2 IH2]; intros Hlen ts Hts.
  - inversion Hts; subst. rewrite Nat.sub_diag. split; [lia | reflexivity].
  - inversion Hts as [|? t ? ts' Ht Hts']; subst.
    inversion Ht as [? f subs tsub Hobj Hsub]; subst.
    assert (Es : subs_at h lo = subs) by (unfold subs_at; now rewrite Hobj).
    rewrite Es in IH1.
    destruct (IH1 ltac:(lia) tsub Hsub) as [Hm E1].
    destruct (IH2 Hm ts' Hts') as [He E2].
    pose proof (spans_le H1). pose proof (spans_le H2).
    split; [exact He|].
    cbn [flat_map nodes]. rewrite E1, E2.
    rewrite (skipn_nth_error _ _ Hobj).
    replace (e - lo)%nat with (S (e - S lo)) by lia.
    cbn [firstn map fst]. f_equal.
    rewrite (@firstn_split _ h (S lo) m e) by lia.
    now rewrite map_app.
Qed.

End HeapContents.

(** The forest [_build_section_tree] returns, read in document order, is
    the list of the sections of the markers. *)
Lemma build_section_tree_nodes (markers : list Marker.t) (text : str) :
  flat_map nodes (_build_section_tree markers text)
  = sections_of text markers.
Proof.
  pose proof (build_section_tree_represents text markers) as Hrep.
  cbn zeta in Hrep.
  set (s := build_loop text markers build_init) in *.
  assert (Hreach : reachable text s)
    by (apply build_loop_reachable; constructor).
  destruct (reachable_tiled Hreach) as (Hspans & _ & _).
  destruct (spans_nodes Hspans (Nat.le_0_l _) Hrep) as [_ E].
  rewrite E, Nat.sub_0_r. cbn [skipn]. rewrite firstn_all.
  unfold s. rewrite build_loop_objs. reflexivity.
Qed.

(** X11. [_build_section_tree] keeps every marker, once and in order: for
    any marker list, the sections of the forest it returns, read in
    document order (each section before its subsections), are the sections
    of the markers in marker order, the text range of each ending where the
    next marker starts and the last at the end of the text. *)
Theorem section_tree_lists_markers (markers : list Marker.t) (text : str) :
  flat_map nodes (_build_section_tree markers text)
  = sections_of text markers.
Proof. apply build_section_tree_nodes. Qed.

(* ===================================================================== *)
(** ** The section tree, section by section *)
(* ===================================================================== *)

Section AttachFacts.

Lemma on_last_snoc {A} (g : A -> list A) (d : list A) (l : list A) (x : A) :
  on_last g d (l ++ [x]) = l ++ g x.
Proof.
  induction l as [|a l IH]; [reflexivity|].
  cbn [app on_last]. destruct (l ++ [x]) eqn:E.
  - now destruct l.
  - now rewrite IH.
Qed.

Lemma attach_section_snoc (f : Sec.fields) (forest : list Sec.tree)
    (t : Sec.tree) :
  attach_section f (forest ++ [t]) = forest ++ attach f t.
Proof. apply on_last_snoc. Qed.

Lemma attach_below (f g : Sec.fields) (subs : list Sec.tree) :
  Sec.level g < Sec.level f ->
  attach f (Sec.Node g subs) = [Sec.Node g (attach_section f subs)].
Proof.
  intros H. cbn [attach].
  destruct (Z.ltb_spec (Sec.level g) (Sec.level f)); [reflexivity | lia].
Qed.

Lemma attach_after (f : Sec.fields) (t : Sec.tree) :
  Sec.level f <= Sec.level (Sec.data t) ->
  attach f t = [t; Sec.Node f []].
Proof.
  destruct t as [g subs]. cbn [Sec.data attach]. intros H.
  destruct (Z.ltb_spec (Sec.level g) (Sec.level f)); [lia | reflexivity].
Qed.

(** An object is its fields and its subsections. *)
Lemma nth_error_obj (h : heap) (i : nat) :
  nth_error h i
  = match nth_error (map fst h) i with
    | Some f => Some (f, subs_at h i)
    | None => None
    end.
Proof.
  unfold subs_at. revert i.
  induction h as [|[f subs] h' IH]; intros [|i];
    cbn [map nth_error fst snd]; try reflexivity.
  apply IH.
Qed.

Lemma represents_lvl (h : heap) (r : nat) (t : Sec.tree) :
  represents h r t -> lvl h r = Sec.level (Sec.data t).
Proof.
  intros H. inversion H as [? f subs ts Hobj _]; subst.
  unfold lvl. now rewrite Hobj.
Qed.

(** A reference stands for one tree only. *)
Lemma represents_fun (h : heap) (t : Sec.tree) : forall r t',
  represents h r t -> represents h r t' -> t = t'.
Proof.
  induction t as [f ts IH] using tree_induction. intros r t' H1 H2.
  inversion H1 as [? f1 subs1 ts1 Hobj1 Hsub1]; subst.
  inversion H2 as [? f2 subs2 ts2 Hobj2 Hsub2]; subst.
  rewrite Hobj1 in Hobj2. injection Hobj2 as <- <-. f_equal.
  clear Hobj1 H1 H2. revert ts2 Hsub2.
  induction Hsub1 as [|x t l ts' Hx _ IHl]; intros ts2 Hsub2;
    inversion Hsub2 as [|? t2 ? l2 Hx2 Hl2]; subst; [reflexivity|].
  inversion IH as [|? ? IHt IHts]; subst.
  f_equal; [exact (IHt _ _ Hx Hx2) | now apply IHl].
Qed.

Lemma forest_fun (h : heap) (rs : list nat) (F F' : list Sec.tree) :
  Forall2 (represents h) rs F -> Forall2 (represents h) rs F' -> F = F'.
Proof.
  intros H. revert F'.
  induction H as [|r t rs' F0 Hr _ IH]; intros F' H';
    inversion H' as [|? t' ? F1 Hr' Hrs']; subst; [reflexivity|].
  f_equal; [exact (represents_fun Hr Hr') | now apply IH].
Qed.

(** The trees of a block only depend on the objects inside it. *)
Lemma represents_agree (h h' : heap) (lo e : nat) (refs : list nat) :
  spans h lo refs e ->
  (forall i, (lo <= i < e)%nat -> nth_error h' i = nth_error h i) ->
  forall ts,
    Forall2 (represents h) refs ts -> Forall2 (represents h') refs ts.
Proof.
  induction 1 as [lo|lo m e cs Hlo H1 IH1 H2 IH2]; intros Hobj ts Hts.
  - inversion Hts; subst. constructor.
  - inversion Hts as [|? t ? ts' Ht Hts']; subst.
    inversion Ht as [? f subs tsub Hf Hsub]; subst.
    assert (Es : subs_at h lo = subs) by (unfold subs_at; now rewrite Hf).
    rewrite Es in IH1.
    pose proof (spans_le H1). pose proof (spans_le H2).
    constructor.
    + apply represents_node with (subs := subs).
      * rewrite Hobj by lia. exact Hf.
      * apply IH1; [|exact Hsub]. intros i Hi. apply Hobj. lia.
    + apply IH2; [|exact Hts']. intros i Hi. apply Hobj. lia.
Qed.

(** The open sections of a block lie in the block. *)
Lemma open_chain_bounds (h : heap) (path : list nat) : forall rs lo e,
  open_chain h rs path ->
  spans h lo rs e ->
  Forall (fun q => (lo <= q < e)%nat) path.
Proof.
  induction path as [|r path' IH]; intros rs lo e Hc Hs; [constructor|].
  destruct Hc as ([l ->] & Hc).
  apply spans_snoc_inv in Hs as [H1 H2].
  pose proof (spans_le H1) as Hlo.
  pose proof (spans_one_inv H2) as H3.
  pose proof (spans_le H3) as Hr.
  constructor; [lia|].
  eapply Forall_impl; [|exact (IH _ _ _ Hc H3)]. cbn. intros. lia.
Qed.

Lemma represents_inv (h : heap) (r : nat) (g : Sec.fields)
    (ts : list Sec.tree) :
  represents h r (Sec.Node g ts) ->
  exists subs,
    nth_error h r = Some (g, subs) /\ Forall2 (represents h) subs ts.
Proof.
  intros H. inversion H as [? f subs ts' Hobj Hts]; subst. now exists subs.
Qed.

Lemma Forall2_snoc_inv {A B} (R : A -> B -> Prop) (l : list A) (x : A)
    (l' : list B) :
  Forall2 R (l ++ [x]) l' ->
  exists k y, l' = k ++ [y] /\ Forall2 R l k /\ R x y.
Proof.
  intros H. apply Forall2_app_inv_l in H as (k & k' & Hk & Hx & ->).
  inversion Hx as [|? y ? ? Hy Hnil]; subst. inversion Hnil; subst.
  now exists k, y.
Qed.

Section AttachStep.

(** The heap before and after the section [f], object number [n], is
    appended to the subsections of [target], if any. *)
Variables (h h' : heap) (n : nat) (f : Sec.fields) (target : option nat).
Hypothesis Hn : length h = n.
Hypothesis Hfst : map fst h' = map fst h ++ [f].
Hypothesis Hsub : forall r,
  subs_at h' r = match target with
                 | Some top =>
                     if (r =? top)%nat then subs_at h r ++ [n]
                     else subs_at h r
                 | None => subs_at h r
                 end.
Hypothesis Htarget : forall top, target = Some top -> (top < n)%nat.

Lemma length_fields : length (map fst h) = n.
Proof. rewrite length_map. exact Hn. Qed.

Lemma obj_new : nth_error h' n = Some (f, []).
Proof.
  rewrite nth_error_obj, Hfst.
  rewrite nth_error_app2 by (rewrite length_fields; lia).
  rewrite length_fields, Nat.sub_diag. cbn [nth_error]. rewrite Hsub.
  rewrite (subs_at_dangling h) by lia.
  destruct target as [top|]; [|reflexivity].
  specialize (Htarget eq_refl).
  destruct (Nat.eqb_spec n top); [lia | reflexivity].
Qed.

Lemma obj_old (i : nat) :
  (i < n)%nat -> subs_at h' i = subs_at h i ->
  nth_error h' i = nth_error h i.
Proof.
  intros Hi Hs. rewrite (nth_error_obj h'), (nth_error_obj h), Hfst, Hs.
  rewrite nth_error_app1 by (rewrite length_fields; lia). reflexivity.
Qed.

Lemma obj_fields (i : nat) (g : Sec.fields) (subs : list nat) :
  nth_error h i = Some (g, subs) ->
  nth_error h' i = Some (g, subs_at h' i).
Proof.
  intros Hobj.
  assert (Hi : (i < n)%nat).
  { rewrite <- Hn. apply nth_error_Some. now rewrite Hobj. }
  rewrite nth_error_obj, Hfst.
  rewrite nth_error_app1 by (rewrite length_fields; lia).
  assert (E : nth_error (map fst h) i = Some g)
    by exact (map_nth_error fst _ _ Hobj).
  now rewrite E.
Qed.

(** The new section goes down the open sections [pk] of strictly lower
    level, and stops before the open sections [popped]. *)
Lemma attach_step (pk : list nat) : forall popped rs rs' F lo,
  open_chain h rs (pk ++ popped) ->
  spans h lo rs n ->
  Forall2 (represents h) rs F ->
  Forall (fun r => lvl h r < Sec.level f) pk ->
  match popped with
  | [] => True
  | r :: _ => Sec.level f <= lvl h r
  end ->
  (pk = [] /\ rs' = rs ++ [n]
   /\ forall top, target = Some top -> (top < lo)%nat)
  \/ (pk <> [] /\ rs' = rs /\ target = Some (last pk O)) ->
  Forall2 (represents h') rs' (attach_section f F)
  /\ open_chain h' rs' (pk ++ [n]).
Proof.
  induction pk as [|r pk' IH]; intros popped rs rs' F lo Hc Hs HF Hlv Hpop Ht.
  - destruct Ht as [(_ & -> & Ht)|(Hne & _)]; [|contradiction].
    assert (Hagree : forall i, (lo <= i < n)%nat ->
                               nth_error h' i = nth_error h i).
    { intros i Hi. apply obj_old; [lia|]. rewrite Hsub.
      destruct target as [top|]; [|reflexivity].
      specialize (Ht top eq_refl).
      destruct (Nat.eqb_spec i top); [lia | reflexivity]. }
    pose proof (@represents_agree h h' _ _ _ Hs Hagree _ HF) as Hold.
    assert (Hnew : represents h' n (Sec.Node f [])).
    { apply represents_node with (subs := []); [exact obj_new|constructor]. }
    split.
    + assert (E : attach_section f F = F ++ [Sec.Node f []]).
      { cbn [app] in Hc. destruct popped as [|r popped'].
        - cbn in Hc. rewrite Hc in HF.
          destruct F; [reflexivity | inversion HF].
        - destruct Hc as ([l ->] & _).
          apply Forall2_snoc_inv in HF as (Fl & t & -> & _ & Hrt).
          rewrite attach_section_snoc, attach_after, <- app_assoc;
            [reflexivity|].
          now rewrite <- (represents_lvl Hrt). }
      rewrite E. apply Forall2_app; [exact Hold|].
      constructor; [exact Hnew | constructor].
    + cbn [app open_chain]. split; [now exists rs|].
      unfold subs_at. now rewrite obj_new.
  - destruct Ht as [(Hnil & _)|(_ & -> & Ht)]; [discriminate|].
    cbn [app] in Hc. destruct Hc as ([l ->] & Hc).
    apply spans_snoc_inv in Hs as [H1 H2].
    pose proof (spans_le H1) as Hlo.
    pose proof (spans_one_inv H2) as H3.
    pose proof (spans_le H3) as Hrn.
    apply Forall2_snoc_inv in HF as (Fl & [g ts] & -> & HFl & Hrt).
    destruct (represents_inv Hrt) as (subs & Hobj & Hts).
    assert (Es : subs_at h r = subs) by (unfold subs_at; now rewrite Hobj).
    pose proof (Forall_inv Hlv) as Hlr. cbv beta in Hlr.
    pose proof (Forall_inv_tail Hlv) as Hlv'.
    rewrite (represents_lvl Hrt) in Hlr. cbn [Sec.data] in Hlr.
    pose proof (@open_chain_bounds h _ _ _ _ Hc H3) as Hb.
    apply Forall_app in Hb as [Hb _].
    set (top := last (r :: pk') O) in *.
    assert (Htop : (r <= top)%nat
                   /\ (pk' = [] -> top = r) /\ (pk' <> [] -> (r < top)%nat
                                                /\ top = last pk' O)).
    { unfold top. destruct pk' as [|q pk''].
      - cbn [last]. split; [lia|]. split; [reflexivity|].
        intros H. now contradiction H.
      - change (last (r :: q :: pk'') O) with (last (q :: pk'') O).
        assert (Hin : In (last (q :: pk'') O) (q :: pk'')).
        { destruct (exists_last (l := q :: pk'') ltac:(discriminate))
            as (l0 & a & E).
          rewrite E, last_last. apply in_or_app. right. now left. }
        rewrite Forall_forall in Hb. specialize (Hb _ Hin).
        split; [lia|]. split; [discriminate|]. intros _. split; [lia|].
        reflexivity. }
    destruct Htop as (Hle & Htop0 & Htop1).
    set (subs' := match pk' with
                  | [] => subs_at h r ++ [n]
                  | _ :: _ => subs_at h r
                  end).
    assert (Es' : subs_at h' r = subs').
    { rewrite Hsub, Ht. unfold subs'. destruct pk' as [|q pk''].
      - rewrite (Htop0 eq_refl), Nat.eqb_refl. reflexivity.
      - destruct (Htop1 ltac:(discriminate)) as [Hlt _].
        destruct (Nat.eqb_spec r top); [lia | reflexivity]. }
    destruct (IH popped (subs_at h r) subs' ts (S r)) as [IH1 IH2];
      [exact Hc | exact H3 | now rewrite Es | exact Hlv' | exact Hpop | |].
    { unfold subs'. destruct pk' as [|q pk''].
      - left. split; [reflexivity|]. split; [reflexivity|].
        intros top' E. rewrite Ht in E.
        injection E as <-. rewrite (Htop0 eq_refl). lia.
      - right. split; [discriminate|]. split; [reflexivity|].
        rewrite Ht. reflexivity. }
    split.
    + rewrite attach_section_snoc, attach_below by exact Hlr.
      apply Forall2_app.
      * apply (@represents_agree h h' _ _ _ H1); [|exact HFl].
        intros i Hi. apply obj_old; [lia|]. rewrite Hsub, Ht.
        destruct (Nat.eqb_spec i top); [lia | reflexivity].
      * constructor; [|constructor].
        apply represents_node with (subs := subs').
        -- rewrite <- Es'. exact (obj_fields _ Hobj).
        -- exact IH1.
    + cbn [app open_chain]. split; [now exists l|].
      rewrite Es'. exact IH2.
Qed.

End AttachStep.

(** On a sorted stack the pop loop splits the stack at the new level. *)
Lemma filter_sorted_split (h : heap) (level : Z) (st : list nat) :
  stack_sorted h st ->
  exists pre, st = pre ++ filter (fun r => lvl h r <? level) st
              /\ Forall (fun r => level <= lvl h r) pre.
Proof.
  induction 1 as [|a l Hs (pre & IH & Hpre) Hall]; [now exists []|].
  cbn [filter]. destruct (Z.ltb_spec (lvl h a) level) as [Hlt|Hge].
  - exists []. split; [|constructor]. cbn [app]. f_equal. symmetry.
    apply forallb_filter_id. apply forallb_forall. intros r Hr.
    rewrite Forall_forall in Hall. specialize (Hall r Hr).
    apply Z.ltb_lt. lia.
  - exists (a :: pre). split; [|now constructor].
    cbn [app]. now f_equal.
Qed.

Variable text : str.

(** The forest of the roots of a state. *)
Let forest (s : build_state) : list Sec.tree :=
  flat_map (deref (objs s)) (roots s).

Lemma forest_represents (s : build_state) :
  reachable text s -> Forall2 (represents (objs s)) (roots s) (forest s).
Proof.
  intros Hreach. unfold forest.
  pose proof (reachable_inv Hreach) as (_ & _ & HL).
  pose proof (reachable_roots Hreach) as Hroots.
  induction Hroots as [|r rs Hr _ IH]; cbn [flat_map]; [constructor|].
  destruct (deref_represents HL Hr) as (t & -> & Ht).
  cbn [app]. now constructor.
Qed.

(** One iteration of the loop attaches the new section by the rule, and
    the stack remains the chain of the open sections. *)
Lemma build_step_forest (marker : Marker.t) (end_ : Z) (s : build_state) :
  reachable text s ->
  open_chain (objs s) (roots s) (rev (stack s)) ->
  let s' := build_step text marker end_ s in
  open_chain (objs s') (roots s') (rev (stack s'))
  /\ forest s' = attach_section (section_of text marker end_) (forest s).
Proof.
  intros Hreach Hchain s'.
  pose proof (reachable_inv Hreach) as Hinv.
  destruct (reachable_tiled Hreach) as (Hspans & _ & _).
  pose proof (build_step_spec text marker end_ Hinv)
    as (Hst & Hlen & _ & Hk).
  pose proof (build_step_objs text marker end_ s) as Hfst.
  destruct Hinv as (Hv & Hs & _).
  destruct (filter_sorted_split (Marker.level marker) Hs)
    as (pre & Hpre & Hge).
  fold s' in Hst, Hlen, Hk, Hfst.
  set (n := length (objs s)) in *.
  set (kept := filter (fun r => lvl (objs s) r <? Marker.level marker)
                 (stack s)) in *.
  set (f := section_of text marker end_) in *.
  set (target := match kept with
                 | top :: _ => Some top
                 | [] => None
                 end).
  assert (Hkept : Forall (fun r => lvl (objs s) r < Sec.level f) (rev kept)).
  { apply Forall_rev, Forall_forall. intros r Hr.
    apply filter_In in Hr as [_ Hr]. now apply Z.ltb_lt. }
  assert (Hsub : forall r,
             subs_at (objs s') r
             = match target with
               | Some top =>
                   if (r =? top)%nat then subs_at (objs s) r ++ [n]
                   else subs_at (objs s) r
               | None => subs_at (objs s) r
               end).
  { unfold target. destruct kept as [|top k']; [apply Hk|].
    now destruct Hk as (_ & _ & Hk). }
  assert (Htarget : forall top, target = Some top -> (top < n)%nat).
  { unfold target. intros top Ht.
    assert (Hin : In top kept) by (destruct kept; [discriminate|];
                                   injection Ht as ->; now left).
    apply filter_In in Hin as [Hin _].
    rewrite Forall_forall in Hv. now apply Hv. }
  assert (Hroots : roots s' = match kept with
                              | [] => roots s ++ [n]
                              | _ :: _ => roots s
                              end).
  { destruct kept; now destruct Hk. }
  destruct (@attach_step (objs s) (objs s') n f target eq_refl Hfst Hsub
              Htarget (rev kept) (rev pre) (roots s) (roots s') (forest s)
              0%nat) as [HF Hc'].
  - rewrite <- rev_app_distr, <- Hpre. exact Hchain.
  - exact Hspans.
  - now apply forest_represents.
  - exact Hkept.
  - destruct (rev pre) as [|r l] eqn:E; [exact I|].
    assert (Hin : In r pre).
    { apply in_rev. rewrite E. now left. }
    rewrite Forall_forall in Hge. now apply Hge.
  - rewrite Hroots. unfold target. destruct kept as [|top k'].
    + left. repeat split. discriminate.
    + right. cbn [rev]. rewrite last_last. repeat split.
      intros E. now apply app_eq_nil in E as [_ E].
  - split.
    + rewrite Hst. cbn [rev]. exact Hc'.
    + eapply forest_fun; [|exact HF].
      apply forest_represents. now constructor.
Qed.

Lemma build_loop_forest (markers : list Marker.t) : forall s,
  reachable text s ->
  open_chain (objs s) (roots s) (rev (stack s)) ->
  forest (build_loop text markers s)
  = fold_left (fun F f => attach_section f F) (sections_of text markers)
      (forest s).
Proof.
  induction markers as [|m rest IH]; intros s Hreach Hchain;
    cbn [build_loop sections_of fold_left]; [reflexivity|].
  destruct (build_step_forest m
              (match rest with
               | next :: _ => Marker.position next
               | [] => len text
               end) Hreach Hchain) as [Hc' E].
  rewrite IH; [|now constructor | exact Hc'].
  now rewrite E.
Qed.

(** The forest [_build_section_tree] returns is the one the rule gives. *)
Lemma build_section_tree_attach (markers : list Marker.t) :
  _build_section_tree markers text = attach_all (sections_of text markers).
Proof.
  unfold _build_section_tree, attach_all. cbn zeta.
  change (forest (build_loop text markers build_init)
          = fold_left (fun F f => attach_section f F)
              (sections_of text markers) (forest build_init)).
  apply build_loop_forest; [constructor | reflexivity].
Qed.

End AttachFacts.

(** C6.  For every marker list, the forest [_build_section_tree] returns
    has every subsection at a level strictly greater than its parent's.
    At every iteration of its loop the builder pops exactly the stack
    entries whose level is greater than or equal to the new marker's
    level, pushes the new section, and attaches it as the last subsection
    of the entry then on top of the stack, the deepest open section of
    strictly lower level, or as the last root when none is left; no other
    section changes.  The forest it returns is the forest of the roots of
    the final heap, with every subsection that was attached; and it is the
    forest one gets by attaching the sections of the markers one after
    the other, each as the last subsection of the deepest open section of
    strictly lower level, or as the last root when there is none. *)
Theorem tree_levels_and_attachment (text : str) :
  (forall markers,
      Forall levels_increase (_build_section_tree markers text))
  /\ (forall markers, reachable text (build_loop text markers build_init))
  /\ (forall s marker end_,
         reachable text s ->
         let s' := build_step text marker end_ s in
         let ref := length (objs s) in
         let kept := filter (fun r => lvl (objs s) r <? Marker.level marker)
                       (stack s) in
         stack s' = ref :: kept
         /\ length (objs s') = S ref
         /\ (forall r, lvl (objs s') r
                       = if (r =? ref)%nat then Marker.level marker
                         else lvl (objs s) r)
         /\ match kept with
            | top :: _ =>
                roots s' = roots s
                /\ lvl (objs s) top < Marker.level marker
                /\ forall r, subs_at (objs s') r
                             = if (r =? top)%nat
                               then subs_at (objs s) r ++ [ref]
                               else subs_at (objs s) r
            | [] =>
                roots s' = roots s ++ [ref]
                /\ forall r, subs_at (objs s') r = subs_at (objs s) r
            end)
  /\ (forall markers,
         let s := build_loop text markers build_init in
         Forall2 (represents (objs s)) (roots s)
           (_build_section_tree markers text))
  /\ (forall markers,
         _build_section_tree markers text
         = attach_all (sections_of text markers)).
Proof.
  split; [|split; [|split; [|split]]].
  - intros markers. unfold _build_section_tree. cbn zeta.
    set (s := build_loop text markers build_init).
    assert (Hinv : build_inv s).
    { apply (reachable_inv (text := text)), build_loop_reachable. constructor. }
    destruct Hinv as (_ & _ & HL).
    apply Forall_flat_map, Forall_forall. intros r _. unfold deref.
    destruct (nth_error (trees_from 0 (objs s)) r) as [t|] eqn:Et;
      [|constructor].
    constructor; [|constructor].
    pose proof (@trees_levels (objs s) HL (objs s) 0 eq_refl) as Hall.
    rewrite Forall_forall in Hall. apply Hall.
    eapply nth_error_In; eauto.
  - intros markers. apply build_loop_reachable. constructor.
  - intros s marker end_ Hs. apply build_step_spec.
    now apply (reachable_inv (text := text)).
  - intros markers. apply build_section_tree_represents.
  - intros markers. apply build_section_tree_attach.
Qed.

(* ===================================================================== *)
(** ** What the marker scanner finds *)
(* ===================================================================== *)

Section SolidFacts.

(** A match of a pattern with a solid atom holds a character that is
    neither whitespace nor a dot. *)
Lemma match_has_solid (p : Re.pattern) :
  Exists solid_atom p ->
  forall prev s n,
    Re.match_here p prev s = Some n ->
    exists c, In c (firstn n s) /\ isspace c = false /\ c <> DOT.
Proof.
  induction p as [|a p' IH]; intros Hex prev s n Hm.
  - inversion Hex.
  - destruct a as [| |cls lo hi]; cbn [Re.match_here] in Hm.
    + inversion Hex as [? ? Ha|? ? Hp]; subst; [destruct Ha|].
      destruct (Re.at_bol prev); [eauto | discriminate].
    + inversion Hex as [? ? Ha|? ? Hp]; subst; [destruct Ha|].
      destruct (Re.at_eol s); [eauto | discriminate].
    + apply rep_inv in Hm
        as (a0 & b & prev' & -> & Hlo & Hlen & Hcls & Hk).
      inversion Hex as [? ? Ha|? ? Hp]; subst.
      * destruct lo as [|lo]; [destruct Ha|]. cbn in Ha.
        destruct a0 as [|a0]; [lia|].
        destruct s as [|c s']; [cbn in Hlen; lia|].
        cbn [firstn] in Hcls. inversion Hcls as [|? ? Hc _]; subst.
        exists c. split; [now left | now apply Ha].
      * destruct (IH Hp _ _ _ Hk) as (c & Hin & Hc).
        exists c. split; [|exact Hc].
        rewrite firstn_add. apply in_or_app. now right.
Qed.

Lemma lit_solid (c : char) :
  isspace c = false -> c <> DOT -> solid_atom (Re.Lit c).
Proof.
  intros Hs Hd x Hx. apply N.eqb_eq in Hx. now subst.
Qed.

(** Each of the five patterns has a solid atom: a letter of its heading
    word, or the letter before the final dot. *)
Lemma table_solid :
  Forall (fun e : str * Z * Re.pattern => Exists solid_atom (snd e))
         pattern_table.
Proof.
  unfold pattern_table, pat_perek, pat_siman, pat_seif, pat_halacha,
    pat_siman_katan, word_perek, word_siman, word_seif.
  cbn [app map].
  constructor; [|constructor; [|constructor; [|constructor;
    [|constructor; [|constructor]]]]]; cbn [snd].
  - do 2 apply Exists_cons_tl. apply Exists_cons_hd.
    apply lit_solid; [reflexivity | discriminate].
  - do 2 apply Exists_cons_tl. apply Exists_cons_hd.
    apply lit_solid; [reflexivity | discriminate].
  - do 2 apply Exists_cons_tl. apply Exists_cons_hd.
    apply lit_solid; [reflexivity | discriminate].
  - do 3 apply Exists_cons_tl. apply Exists_cons_hd.
    intros c Hc. unfold heb, in_range in Hc.
    apply andb_true_iff in Hc as [H1 H2].
    apply N.leb_le in H1, H2. split.
    + unfold isspace, in_range.
      repeat match goal with
             | |- context [(?a <=? ?b)%N] =>
                 destruct (N.leb_spec a b); try lia
             | |- context [(?a =? ?b)%N] =>
                 destruct (N.eqb_spec a b); try lia
             end.
    + unfold DOT. lia.
  - apply Exists_cons_hd. apply lit_solid; [reflexivity | discriminate].
Qed.

Lemma In_lstrip_by (p : char -> bool) (c : char) (s : str) :
  In c s -> p c = false -> In c (lstrip_by p s).
Proof.
  intros Hin Hc. induction s as [|x s' IH]; [easy|].
  cbn [lstrip_by]. destruct (p x) eqn:Hx; [|exact Hin].
  destruct Hin as [->|Hin]; [congruence | auto].
Qed.

Lemma In_rstrip_by (p : char -> bool) (c : char) (s : str) :
  In c s -> p c = false -> In c (rstrip_by p s).
Proof.
  intros Hin Hc. induction s as [|x s' IH]; [easy|].
  cbn [rstrip_by]. destruct Hin as [->|Hin].
  - destruct (rstrip_by p s'); [rewrite Hc|]; now left.
  - specialize (IH Hin). destruct (rstrip_by p s'); [easy | now right].
Qed.

Lemma In_strip (c : char) (s : str) :
  In c s -> isspace c = false -> In c (strip s).
Proof.
  intros Hin Hc. unfold strip.
  apply In_rstrip_by; [|exact Hc]. now apply In_lstrip_by.
Qed.

Lemma In_marker_title (c : char) (g : str) :
  In c g -> isspace c = false -> c <> DOT -> In c (marker_title g).
Proof.
  intros Hin Hs Hd. unfold marker_title.
  assert (Hdot : Re.chr DOT c = false) by (now apply N.eqb_neq).
  apply In_strip; [|exact Hs]. apply In_lstrip_by; [|exact Hdot].
  apply In_rstrip_by; [|exact Hdot]. now apply In_strip.
Qed.

Lemma In_nonspace_split (c : char) (s : str) :
  In c s -> isspace c = false -> split s <> [].
Proof.
  intros Hin Hc Hs. apply split_nil_all_space in Hs.
  rewrite Forall_forall in Hs. specialize (Hs c Hin). congruence.
Qed.

End SolidFacts.

Section DetectedMarkers.

Variable text : str.

(** The markers found in the text, in the order [_detect_sections] hands
    them to the tree builder. *)
Let found : list Marker.t :=
  sort_markers
    (flat_map (fun '(ty, lv, pat) =>
                 map (marker_of text ty lv) (Re.finditer pat text))
              pattern_table).

Lemma detect_sections_eq :
  _detect_sections text
  = Ok (match found with
        | [] => []
        | _ :: _ => _build_section_tree found text
        end).
Proof.
  unfold _detect_sections, found. rewrite detect_markers_eq. cbn [bind].
  set (ms := flat_map _ pattern_table).
  destruct ms as [|m ms']; [reflexivity|].
  destruct (sort_markers (m :: ms')) as [|x l] eqn:E; [|reflexivity].
  exfalso. assert (Hin : In m (sort_markers (m :: ms')))
    by (apply In_sort_markers; now left).
  now rewrite E in Hin.
Qed.

(** Every marker comes from a match of one of the five patterns. *)
Lemma found_match (m : Marker.t) :
  In m found ->
  exists ty lv pat st n,
    In (ty, lv, pat) pattern_table
    /\ (st < length text)%nat
    /\ match_at pat text st = Some n
    /\ m = marker_of text ty lv (st, n).
Proof.
  unfold found. rewrite In_sort_markers, in_flat_map.
  intros ([[ty lv] pat] & Hin & Hm).
  apply in_map_iff in Hm as ([st n] & <- & Hm).
  apply finditer_sound in Hm as [Hst Hm].
  exists ty, lv, pat, st, n. auto.
Qed.

Lemma insert_ascending (m : Marker.t) (l : list Marker.t) :
  ascending l -> ascending (insert_marker m l).
Proof.
  induction l as [|x l' IH]; intros Hl; [exact I|].
  cbn [insert_marker].
  destruct (Z.leb_spec (Marker.position m) (Marker.position x)).
  - split; [lia | exact Hl].
  - destruct l' as [|y l'']; cbn [insert_marker].
    + split; [lia | exact I].
    + destruct Hl as [Hxy Hl]. specialize (IH Hl).
      cbn [insert_marker] in IH.
      destruct (Z.leb_spec (Marker.position m) (Marker.position y)).
      * split; [lia | exact IH].
      * split; [lia | exact IH].
Qed.

Lemma sort_ascending (l : list Marker.t) : ascending (sort_markers l).
Proof.
  induction l as [|m l' IH]; [exact I|]. cbn. now apply insert_ascending.
Qed.

Lemma found_ascending : ascending found.
Proof. apply sort_ascending. Qed.

Lemma sort_markers_nil (l : list Marker.t) : sort_markers l = [] -> l = [].
Proof.
  destruct l as [|m l']; [reflexivity|]. intros E.
  assert (Hin : In m (sort_markers (m :: l')))
    by (apply In_sort_markers; now left).
  rewrite E in Hin. destruct Hin.
Qed.

(** No marker is found exactly when no pattern matches. *)
Lemma found_nil_iff :
  found = []
  <-> Forall (fun e => Re.finditer (snd e) text = []) STRUCTURE_PATTERNS.
Proof.
  unfold found, pattern_table, STRUCTURE_PATTERNS. cbn [flat_map snd].
  split.
  - intros E. apply sort_markers_nil in E.
    repeat (apply app_eq_nil in E; destruct E as [?E E]).
    repeat match goal with
           | H : map _ _ = [] |- _ => apply map_eq_nil in H
           end.
    repeat constructor; assumption.
  - intros Hall.
    repeat match goal with
           | H : Forall _ (_ :: _) |- _ => inversion H; clear H; subst
           end.
    cbn [snd] in *.
    repeat match goal with
           | H : Re.finditer _ text = [] |- _ => rewrite H; clear H
           end.
    reflexivity.
Qed.

End DetectedMarkers.

Section SectionsOf.

Variable text : str.

Lemma sections_of_tiles (ms : list Marker.t) :
  tiles (sections_of text ms) (len text).
Proof.
  induction ms as [|m rest IH]; [exact I|].
  cbn [sections_of tiles].
  destruct rest as [|m' rest']; [reflexivity|].
  split; [reflexivity | exact IH].
Qed.

Lemma sections_of_In (ms : list Marker.t) (f : Sec.fields) :
  In f (sections_of text ms) ->
  exists m end_, In m ms /\ f = section_of text m end_.
Proof.
  induction ms as [|m rest IH]; [easy|].
  cbn [sections_of]. intros [<-|Hin].
  - eexists _, _. split; [now left | reflexivity].
  - destruct (IH Hin) as (m' & e & Hm & ->). exists m', e. split; auto.
    now right.
Qed.

(** With positions in the text that do not decrease, every range is a
    range of the text. *)
Lemma sections_of_ranges (ms : list Marker.t) :
  ascending ms ->
  Forall (fun m => 0 <= Marker.position m <= len text) ms ->
  Forall (fun f => 0 <= Sec.char_start f <= Sec.char_end f
                   /\ Sec.char_end f <= len text)
         (sections_of text ms).
Proof.
  induction ms as [|m rest IH]; intros Ha Hp; [constructor|].
  inversion Hp as [|? ? Hm Hrest]; subst.
  cbn [sections_of]. constructor.
  - cbn. destruct rest as [|m' rest']; [lia|].
    destruct Ha as [Hle _]. inversion Hrest; subst. lia.
  - apply IH; [|exact Hrest]. destruct rest; [exact I|]. now destruct Ha.
Qed.

Lemma sections_of_last (ms : list Marker.t) (d : Marker.t) :
  ms <> [] ->
  last (sections_of text ms) (section_of text d 0)
  = section_of text (last ms d) (len text).
Proof.
  induction ms as [|m rest IH]; [easy|]. intros _.
  destruct rest as [|m' rest']; [reflexivity|].
  change (sections_of text (m :: m' :: rest'))
    with (section_of text m (Marker.position m')
          :: sections_of text (m' :: rest')).
  change (last (m :: m' :: rest') d) with (last (m' :: rest') d).
  rewrite <- IH by discriminate. reflexivity.
Qed.

End SectionsOf.

Section LastLeaf.

Lemma nodes_nonempty (s : Sec.tree) : nodes s <> [].
Proof. destruct s. discriminate. Qed.

Lemma last_flat_map {A B} (f : A -> list B) (l : list A) (d : B) (x : A) :
  (forall y, f y <> []) ->
  l <> [] ->
  last (flat_map f l) d = last (f (last l x)) d.
Proof.
  intros Hf. induction l as [|a l' IH]; [easy|]. intros _.
  cbn [flat_map]. destruct l' as [|b l''].
  - cbn. now rewrite app_nil_r.
  - rewrite last_app_nonempty.
    + now rewrite IH.
    + cbn [flat_map]. intros E. apply app_eq_nil in E as [E _].
      now apply Hf in E.
Qed.

(** The last section of a tree in document order is a leaf. *)
Lemma last_node_leaf (d : Sec.fields) (s : Sec.tree) :
  In (last (nodes s) d) (leaves s).
Proof.
  induction s as [f subs IH] using tree_induction.
  destruct subs as [|s1 subs'].
  - cbn. now left.
  - change (nodes (Sec.Node f (s1 :: subs')))
      with (f :: flat_map nodes (s1 :: subs')).
    change (leaves (Sec.Node f (s1 :: subs')))
      with (flat_map leaves (s1 :: subs')).
    assert (Hne : flat_map nodes (s1 :: subs') <> []).
    { cbn [flat_map]. intros E. apply app_eq_nil in E as [E _].
      now apply nodes_nonempty in E. }
    change (f :: flat_map nodes (s1 :: subs'))
      with ([f] ++ flat_map nodes (s1 :: subs')).
    rewrite last_app_nonempty by exact Hne.
    rewrite (@last_flat_map _ _ nodes (s1 :: subs') d s1)
      by (auto using nodes_nonempty; discriminate).
    apply in_flat_map. exists (last (s1 :: subs') s1). split.
      destruct (@exists_last _ (s1 :: subs')) as (l0 & x & E);
        [discriminate|].
      rewrite E, last_last. apply in_or_app. right. now left.
    + rewrite Forall_forall in IH. apply IH.
      destruct (@exists_last _ (s1 :: subs')) as (l0 & x & E);
        [discriminate|].
      rewrite E, last_last. apply in_or_app. right. now left.
Qed.

Lemma last_nodes_leaf (d : Sec.fields) (forest : list Sec.tree) :
  forest <> [] ->
  In (last (flat_map nodes forest) d) (flat_map leaves forest).
Proof.
  intros Hne. destruct forest as [|s0 rest]; [easy|].
  rewrite (@last_flat_map _ _ nodes (s0 :: rest) d s0)
    by (auto using nodes_nonempty).
  apply in_flat_map. exists (last (s0 :: rest) s0). split.
  - destruct (@exists_last _ (s0 :: rest)) as (l0 & x & E); [discriminate|].
    rewrite E, last_last. apply in_or_app. right. now left.
  - apply last_node_leaf.
Qed.

End LastLeaf.


(** The sections [_detect_sections] returns, in document order, are the
    sections of the markers found. *)
Lemma detected_nodes (text : str) (forest : list Sec.tree) :
  _detect_sections text = Ok forest ->
  exists found,
    flat_map nodes forest = sections_of text found
    /\ (found <> [] -> forest = _build_section_tree found text)
    /\ (forest = [] <-> found = [])
    /\ (found = []
        <-> Forall (fun e => Re.finditer (snd e) text = [])
                   STRUCTURE_PATTERNS)
    /\ ascending found
    /\ (forall m, In m found ->
          exists ty lv pat st n,
            In (ty, lv, pat) pattern_table
            /\ (st < length text)%nat
            /\ match_at pat text st = Some n
            /\ m = marker_of text ty lv (st, n)).
Proof.
  rewrite detect_sections_eq. intros [= <-].
  pose proof (found_nil_iff text) as Hnil.
  pose proof (@found_match text) as Hmatch.
  cbv zeta in Hnil, Hmatch.
  set (found := sort_markers _) in *.
  assert (Ha : ascending found) by apply sort_ascending.
  clearbody found.
  exists found. split; [|split; [|split; [|split; [|split]]]]; auto.
  - destruct found; [reflexivity | apply build_section_tree_nodes].
  - destruct found; [easy | reflexivity].
  - destruct found as [|m ms] eqn:E; [easy|].
    split; [|discriminate]. intros Hf.
    pose proof (build_section_tree_nodes (m :: ms) text) as Hn.
    rewrite Hf in Hn. discriminate.
Qed.

Lemma table_levels :
  Forall (fun e : str * Z * Re.pattern =>
            In (fst (fst e), snd (fst e)) HIERARCHY_LEVELS) pattern_table.
Proof. repeat constructor; cbn; tauto. Qed.

(** The facts about one section of the detected forest. *)
Lemma detected_section (text : str) (found : list Marker.t) (f : Sec.fields) :
  (forall m, In m found ->
     exists ty lv pat st n,
       In (ty, lv, pat) pattern_table
       /\ (st < length text)%nat
       /\ match_at pat text st = Some n
       /\ m = marker_of text ty lv (st, n)) ->
  In f (sections_of text found) ->
  Sec.text f = strip (slice text (Sec.char_start f) (Sec.char_end f))
  /\ In (Sec.section_type f, Sec.level f) HIERARCHY_LEVELS
  /\ Sec.title f <> [].
Proof.
  intros Hm Hf.
  apply sections_of_In in Hf as (m & e & Hin & ->).
  destruct (Hm m Hin) as (ty & lv & pat & st & n & Ht & Hst & Hmt & ->).
  split; [reflexivity|]. split.
  - pose proof table_levels as Hl. rewrite Forall_forall in Hl.
    exact (Hl _ Ht).
  - unfold section_of, marker_of. cbn [Sec.title Marker.title].
    pose proof table_solid as Hs. rewrite Forall_forall in Hs.
    specialize (Hs _ Ht). cbn [snd] in Hs. unfold match_at in Hmt.
    eapply match_has_solid in Hmt as (c & Hc & Hsp & Hdot); [|exact Hs].
    intros E. pose proof Hc as Hin'.
    apply In_marker_title in Hin'; [|exact Hsp | exact Hdot].
    unfold Re.group in E. cbn [fst snd] in E. rewrite E in Hin'.
    destruct Hin'.
Qed.

(** X12. The layout of the sections [_detect_sections] returns.  Read in
    document order, their text ranges follow one another without gap or
    overlap up to the end of the text; every range lies in the text, and
    the section text is the stripped text of the range; the kind and the
    level of every section form an entry of [HIERARCHY_LEVELS]; no title is
    empty.  No section is returned exactly when none of the five patterns
    matches. *)
Theorem detect_sections_layout (text : str) (forest : list Sec.tree) :
  _detect_sections text = Ok forest ->
  tiles (flat_map nodes forest) (len text)
  /\ Forall (fun f =>
               0 <= Sec.char_start f <= Sec.char_end f
               /\ Sec.char_end f <= len text
               /\ Sec.text f
                  = strip (slice text (Sec.char_start f) (Sec.char_end f))
               /\ In (Sec.section_type f, Sec.level f) HIERARCHY_LEVELS
               /\ Sec.title f <> [])
            (flat_map nodes forest)
  /\ (forest = []
      <-> Forall (fun e => Re.finditer (snd e) text = [])
                 STRUCTURE_PATTERNS).
Proof.
  intros Hd.
  destruct (@detected_nodes text forest Hd)
    as (found & Hn & _ & He & Hnil & Ha & Hm).
  rewrite Hn. split; [apply sections_of_tiles|]. split.
  - assert (Hpos : Forall (fun m => 0 <= Marker.position m <= len text)
                     found).
    { apply Forall_forall. intros m Hin.
      destruct (Hm m Hin) as (ty & lv & pat & st & n & _ & Hst & _ & ->).
      cbn. unfold len. lia. }
    pose proof (@sections_of_ranges text found Ha Hpos) as Hr.
    rewrite Forall_forall in *. intros f Hf.
    destruct (Hr f Hf) as [H1 H2].
    destruct (@detected_section text found f Hm Hf) as (H3 & H4 & H5).
    tauto.
  - rewrite He. exact Hnil.
Qed.

(* ===================================================================== *)
(** ** A text with words gives chunks *)
(* ===================================================================== *)

Section NonEmpty.

Context {host : Host}.
Variable _config : ChunkingConfig.
Variables book_id book_title book_author language : str.

Lemma sliding_nonempty (text path type : str) (offset : Z)
    (cs : list Chunk.t) :
  split text <> [] ->
  _sliding_window_chunks _config book_id book_title book_author language
    text path type offset = Ok cs ->
  cs <> [].
Proof.
  intros Hne. unfold _sliding_window_chunks.
  destruct (split text) as [|w ws] eqn:Ew; [easy|].
  destruct (_ <=? _); [intros [= <-]; discriminate|].
  intros H ->. eapply window_loop_nonempty; [|exact H]. cbn [length]. lia.
Qed.

Lemma leaf_nonempty (path : str) (f : Sec.fields) (cs : list Chunk.t) :
  split (Sec.text f) <> [] ->
  leaf_chunks _config book_id book_title book_author language path f
  = Ok cs ->
  cs <> [].
Proof.
  intros Hne. unfold leaf_chunks. destruct (_ <=? _).
  - destruct (strip (Sec.text f)) eqn:Es.
    + apply strip_nil_split in Es. contradiction.
    + intros [= <-]. discriminate.
  - now apply sliding_nonempty.
Qed.

Lemma concat_nonempty {A} (ls : list (list A)) :
  Exists (fun l => l <> []) ls -> concat ls <> [].
Proof.
  induction 1 as [l ls' Hl|l ls' _ IH]; cbn [concat]; intros E;
    apply app_eq_nil in E as [E1 E2]; auto.
Qed.

Lemma section_nonempty (s : Sec.tree) :
  forall path cs,
    chunk_section _config book_id book_title book_author language path s
    = Ok cs ->
    Exists (fun f => split (Sec.text f) <> []) (leaves s) ->
    cs <> [].
Proof.
  induction s as [f subs IH] using tree_induction.
  intros path cs. rewrite section_unfold.
  destruct subs as [|s1 subs'].
  - intros Hcs Hex. cbn in Hex.
    inversion Hex as [? ? Hf|? ? Hf]; subst; [|inversion Hf].
    eapply leaf_nonempty; eauto.
  - set (sp := _build_section_path path f). clearbody sp.
    destruct (map_exc _ (s1 :: subs')) as [r|] eqn:Er; [|discriminate].
    intros [= <-]. apply map_exc_inv in Er.
    change (leaves (Sec.Node f (s1 :: subs')))
      with (flat_map leaves (s1 :: subs')).
    revert IH Er. generalize (s1 :: subs') as l. intros l IH Er Hex.
    apply concat_nonempty. revert IH Hex.
    induction Er as [|x y l' r' Hx _ IHr]; intros IH Hex;
      cbn [flat_map] in Hex; [inversion Hex|].
    inversion IH as [|? ? IHx IHl]; subst.
    apply Exists_app in Hex as [Hex|Hex].
    + apply Exists_cons_hd. eapply IHx; eauto.
    + apply Exists_cons_tl. now apply IHr.
Qed.

Lemma sections_nonempty (sections : list Sec.tree) (path : str)
    (cs : list Chunk.t) :
  _chunk_sections _config book_id book_title book_author language
    sections path = Ok cs ->
  Exists (fun f => split (Sec.text f) <> []) (flat_map leaves sections) ->
  cs <> [].
Proof.
  rewrite sections_unfold.
  destruct (map_exc _ sections) as [r|] eqn:Er; [|discriminate].
  intros [= <-] Hex. apply map_exc_inv in Er.
  apply concat_nonempty. revert Hex.
  induction Er as [|x y l' r' Hx _ IHr]; intros Hex;
    cbn [flat_map] in Hex; [inversion Hex|].
  apply Exists_app in Hex as [Hex|Hex].
  - apply Exists_cons_hd. eapply section_nonempty; eauto.
  - apply Exists_cons_tl. now apply IHr.
Qed.

Lemma paragraphs_nonempty (text path : str) (offset : Z) :
  forall paras pos cs,
    paragraph_loop _config book_id book_title book_author language text
      path offset paras pos = Ok cs ->
    concat (map split paras) <> [] ->
    cs <> [].
Proof.
  induction paras as [|para rest IH]; intros pos cs; cbn [paragraph_loop].
  - intros _ H. now cbn in H.
  - cbn [map concat].
    destruct (strip para) as [|c0 sp] eqn:Es.
    + apply strip_nil_split in Es. rewrite Es. apply IH.
    + destruct (_ >? _).
      * destruct (_sliding_window_chunks _ _ _ _ _ _ _ _ _) as [w|] eqn:Ew;
          [|discriminate]. cbn [bind].
        destruct (paragraph_loop _ _ _ _ _ _ _ _ _ _) as [more|] eqn:Em;
          [|discriminate]. cbn [bind].
        intros [= <-] _ E. apply app_eq_nil in E as [E _].
        assert (Hw : w <> []); [|contradiction].
        eapply sliding_nonempty; [|exact Ew].
        rewrite <- Es, split_strip. intros E'.
        apply strip_nil_split in E'. congruence.
      * cbn [bind].
        destruct (paragraph_loop _ _ _ _ _ _ _ _ _ _) as [more|] eqn:Em;
          [|discriminate]. cbn [bind].
        intros [= <-]. discriminate.
Qed.

End NonEmpty.

Lemma merge_loop_nonempty (_config : ChunkingConfig) (chunks : list Chunk.t) :
  forall prev, merge_loop _config prev chunks <> [].
Proof.
  induction chunks as [|c rest IH]; intros prev; cbn [merge_loop];
    [discriminate|].
  destruct (mergeable _config prev c); [apply IH | discriminate].
Qed.

(** The last section of the detected forest is a leaf with words: its
    range runs from the last marker to the end of the text and holds the
    match of the marker. *)
Lemma detected_leaf_with_words (text : str) (forest : list Sec.tree) :
  _detect_sections text = Ok forest ->
  forest <> [] ->
  Exists (fun f => split (Sec.text f) <> []) (flat_map leaves forest).
Proof.
  intros Hd Hne.
  destruct (@detected_nodes text forest Hd)
    as (found & Hn & _ & He & _ & _ & Hm).
  destruct found as [|m0 ms]; [exfalso; apply Hne, He; reflexivity|].
  apply Exists_exists.
  exists (last (flat_map nodes forest) (section_of text m0 0)).
  split; [now apply last_nodes_leaf|].
  rewrite Hn, sections_of_last by discriminate.
  assert (Hin : In (last (m0 :: ms) m0) (m0 :: ms)).
  { destruct (@exists_last _ (m0 :: ms)) as (l0 & x & E); [discriminate|].
    rewrite E, last_last. apply in_or_app. right. now left. }
  destruct (Hm _ Hin) as (ty & lv & pat & st & n & Ht & Hst & Hmt & ->).
  unfold section_of, marker_of.
  cbn [Sec.text Marker.position fst]. unfold len.
  rewrite slice_to_end by lia. rewrite Nat2Z.id, split_strip.
  pose proof table_solid as Hs. rewrite Forall_forall in Hs.
  specialize (Hs _ Ht). cbn [snd] in Hs. unfold match_at in Hmt.
  eapply match_has_solid in Hmt as (c & Hc & Hsp & _); [|exact Hs].
  apply In_nonspace_split with (c := c); [|exact Hsp].
  rewrite <- (firstn_skipn n (skipn st text)). apply in_or_app. now left.
Qed.

(** X13. [chunk] returns no chunk exactly when the text is blank: whatever
    the configuration, a call that returns on a text with at least one word
    returns at least one chunk. *)
Theorem chunk_empty_iff_blank {host : Host} (_config : ChunkingConfig)
    (parsed_book : ParsedBook) (book_id : option str) (out : list Chunk.t) :
  chunk _config parsed_book book_id = Ok out ->
  (out = [] <-> strip (raw_text parsed_book) = []).
Proof.
  intros Hout. split.
  2:{ intros Hs. unfold chunk in Hout. rewrite Hs in Hout. congruence. }
  intros ->.
  destruct (strip (raw_text parsed_book)) as [|c0 t0] eqn:Es; [reflexivity|].
  exfalso.
  apply chunk_inv in Hout as [[Hs _]|Hout]; [congruence|].
  destruct Hout as (sections & pre & Hd & Hpre & Hout).
  assert (Hne : pre <> []).
  { destruct sections as [|s ss].
    - unfold _chunk_by_paragraphs in Hpre.
      eapply paragraphs_nonempty; [exact Hpre|].
      rewrite paragraphs_words. intros E.
      apply strip_nil_split in E. congruence.
    - eapply sections_nonempty; [exact Hpre|].
      now apply detected_leaf_with_words with (text := raw_text parsed_book). }
  symmetry in Hout. rewrite assign_in_place_numbered in Hout.
  apply (f_equal (@length Chunk.t)) in Hout.
  rewrite length_numbered in Hout. cbn [length] in Hout.
  destruct pre as [|c pre']; [easy|]. cbn [_merge_small_chunks] in Hout.
  pose proof (merge_loop_nonempty _config pre' c) as Hm.
  destruct (merge_loop _config c pre'); [easy | discriminate].
Qed.

(* ===================================================================== *)
(** ** Section paths *)
(* ===================================================================== *)

Section PathFacts.

Context {host : Host}.
Variable _config : ChunkingConfig.
Variables book_id book_title book_author language : str.

Let sep : str := lit " > ".

(** The chunk carries the path and the kind of one of the listed leaves. *)
Let at_leaf (l : list (list str * Sec.fields)) (c : Chunk.t) : Prop :=
  exists titles f,
    In (titles, f) l
    /\ Chunk.section_path c = join sep titles
    /\ Chunk.section_type c = Sec.section_type f.

Lemma join_nonempty (titles : list str) :
  Forall (fun t => t <> []) titles -> titles <> [] -> join sep titles <> [].
Proof.
  intros Hall Hne. destruct titles as [|t ts]; [easy|].
  inversion Hall as [|? ? Ht _]; subst.
  destruct ts; cbn [join]; [exact Ht|].
  intros E. apply app_eq_nil in E as [E _]. contradiction.
Qed.

Lemma build_path_join (titles : list str) (f : Sec.fields) :
  Forall (fun t => t <> []) titles ->
  _build_section_path (join sep titles) f
  = join sep (titles ++ [Sec.title f]).
Proof.
  intros Hall. destruct titles as [|t ts]; [reflexivity|].
  pose proof (join_nonempty Hall) as Hne.
  rewrite join_snoc by discriminate.
  unfold _build_section_path.
  destruct (join sep (t :: ts)); [now destruct Hne | reflexivity].
Qed.

Lemma leaf_path_type (path : str) (f : Sec.fields) (cs : list Chunk.t) :
  leaf_chunks _config book_id book_title book_author language path f
  = Ok cs ->
  Forall (fun c => Chunk.section_path c = path
                   /\ Chunk.section_type c = Sec.section_type f) cs.
Proof.
  unfold leaf_chunks. destruct (_ <=? _).
  - destruct (strip (Sec.text f)); intros [= <-]; repeat constructor.
  - intros Hcs. apply sliding_counted in Hcs.
    eapply Forall_impl; [|exact Hcs]. cbn. tauto.
Qed.

Lemma section_paths (s : Sec.tree) :
  forall titles cs,
    Forall (fun t => t <> []) titles ->
    Forall (fun f => Sec.title f <> []) (nodes s) ->
    chunk_section _config book_id book_title book_author language
      (join sep titles) s = Ok cs ->
    Forall (at_leaf (leaf_paths titles s)) cs.
Proof.
  induction s as [f subs IH] using tree_induction.
  intros titles cs Ht Hn. rewrite section_unfold.
  cbn [nodes] in Hn. inversion Hn as [|? ? Hf Hsubs]; subst.
  rewrite build_path_join by exact Ht.
  assert (Ht' : Forall (fun t => t <> []) (titles ++ [Sec.title f])).
  { apply Forall_app. split; [exact Ht | now constructor]. }
  destruct subs as [|s1 subs'].
  - intros Hcs. apply leaf_path_type in Hcs.
    eapply Forall_impl; [|exact Hcs]. cbn. intros c [Hp Hty].
    exists (titles ++ [Sec.title f]), f. split; [now left | auto].
  - destruct (map_exc _ (s1 :: subs')) as [r|] eqn:Er; [|discriminate].
    intros [= <-]. apply map_exc_inv in Er.
    change (leaf_paths titles (Sec.Node f (s1 :: subs')))
      with (flat_map (leaf_paths (titles ++ [Sec.title f])) (s1 :: subs')).
    revert IH Hsubs Er. generalize (s1 :: subs') as l.
    intros l IH Hsubs Er. revert IH Hsubs.
    induction Er as [|x y l' r' Hx _ IHr]; intros IH Hsubs;
      cbn [concat flat_map]; [constructor|].
    inversion IH as [|? ? IHx IHl]; subst.
    cbn [flat_map] in Hsubs. apply Forall_app in Hsubs as [Hnx Hnl].
    apply Forall_app. split.
    + specialize (IHx _ _ Ht' Hnx Hx).
      eapply Forall_impl; [|exact IHx]. cbn.
      intros c (ts & g & Hin & Hc). exists ts, g. split; [|exact Hc].
      apply in_or_app. now left.
    + specialize (IHr IHl Hnl).
      eapply Forall_impl; [|exact IHr]. cbn.
      intros c (ts & g & Hin & Hc). exists ts, g. split; [|exact Hc].
      apply in_or_app. now right.
Qed.

Lemma sections_paths (sections : list Sec.tree) (cs : list Chunk.t) :
  Forall (fun f => Sec.title f <> []) (flat_map nodes sections) ->
  _chunk_sections _config book_id book_title book_author language
    sections [] = Ok cs ->
  Forall (at_leaf (flat_map (leaf_paths []) sections)) cs.
Proof.
  intros Hn. rewrite sections_unfold.
  destruct (map_exc _ sections) as [r|] eqn:Er; [|discriminate].
  intros [= <-]. apply map_exc_inv in Er. revert Hn.
  induction Er as [|x y l' r' Hx _ IHr]; intros Hn;
    cbn [concat flat_map]; [constructor|].
  cbn [flat_map] in Hn. apply Forall_app in Hn as [Hnx Hnl].
  apply Forall_app. split.
  - pose proof (@section_paths x [] y (Forall_nil _) Hnx Hx) as H.
    eapply Forall_impl; [|exact H]. cbn.
    intros c (ts & g & Hin & Hc). exists ts, g. split; [|exact Hc].
    apply in_or_app. now left.
  - specialize (IHr Hnl).
    eapply Forall_impl; [|exact IHr]. cbn.
    intros c (ts & g & Hin & Hc). exists ts, g. split; [|exact Hc].
    apply in_or_app. now right.
Qed.

End PathFacts.

(** X14. Section paths.  When the text has structural markers, every chunk
    [chunk] returns carries the kind of a leaf section of the section tree,
    and its section path is the titles of the sections on the way from the
    root to that leaf, joined by " > ". *)
Theorem section_path_titles {host : Host} (_config : ChunkingConfig)
    (parsed_book : ParsedBook) (book_id : option str)
    (sections : list Sec.tree) (out : list Chunk.t) :
  _detect_sections (raw_text parsed_book) = Ok sections ->
  sections <> [] ->
  chunk _config parsed_book book_id = Ok out ->
  Forall (fun c =>
            exists titles f,
              In (titles, f) (flat_map (leaf_paths []) sections)
              /\ Chunk.section_path c = join (lit " > ") titles
              /\ Chunk.section_type c = Sec.section_type f) out.
Proof.
  intros Hd Hne Hout.
  apply chunk_inv in Hout as [[_ ->]|Hout]; [constructor|].
  destruct Hout as (sections' & pre & Hd' & Hpre & ->).
  assert (sections' = sections) by congruence. subst sections'.
  destruct sections as [|s ss]; [easy|].
  assert (Ht : Forall (fun f => Sec.title f <> [])
                 (flat_map nodes (s :: ss))).
  { destruct (@detected_nodes _ _ Hd) as (found & Hn & _ & _ & _ & _ & Hm).
    rewrite Hn. apply Forall_forall. intros f Hf.
    now destruct (@detected_section _ found f Hm Hf) as (_ & _ & H). }
  apply sections_paths in Hpre; [|exact Ht].
  apply assign_in_place_Forall; [now intros c i t|].
  apply merge_Forall; [|exact Hpre].
  intros a b (ts & f & Hin & Hp & Hty) _ _. exists ts, f. auto.
Qed.

(* ===================================================================== *)
(** ** Character ranges *)
(* ===================================================================== *)

Section FindFacts.

Lemma starts_with_prefix (sub : str) : forall s,
  starts_with sub s = true -> firstn (length sub) s = sub.
Proof.
  induction sub as [|a sub' IH]; intros [|b s'] H; cbn in *;
    try reflexivity; try discriminate.
  apply andb_true_iff in H as [Hab H]. apply N.eqb_eq in Hab. subst b.
  now rewrite IH.
Qed.

Lemma prefix_starts_with (sub : str) : forall s,
  firstn (length sub) s = sub -> starts_with sub s = true.
Proof.
  induction sub as [|a sub' IH]; intros [|b s'] H; cbn in *;
    try reflexivity; try discriminate.
  injection H as -> H. rewrite N.eqb_refl. cbn. now apply IH.
Qed.

(** When [sub] occurs at distance [q], the search stops at or before it,
    at an occurrence. *)
Lemma find_at_first (sub : str) (q : nat) : forall s i,
  (q <= length s)%nat ->
  starts_with sub (skipn q s) = true ->
  exists p,
    find_at sub s i = Some p
    /\ (i <= p <= i + q)%nat
    /\ starts_with sub (skipn (p - i) s) = true.
Proof.
  induction q as [|q IH]; intros s i Hq Hs.
  - exists i. cbn [skipn] in Hs. rewrite Nat.sub_diag. cbn [skipn].
    destruct s; cbn [find_at]; rewrite Hs; repeat split; auto; lia.
  - destruct s as [|c s']; [cbn in Hq; lia|].
    cbn [find_at]. destruct (starts_with sub (c :: s')) eqn:E.
    + exists i. rewrite Nat.sub_diag. cbn [skipn]. repeat split; auto; lia.
    + cbn [skipn length] in *.
      destruct (IH s' (S i) ltac:(lia) Hs) as (p & Hp & Hr & Hsw).
      exists p. split; [exact Hp|]. split; [lia|].
      replace (p - i)%nat with (S (p - S i)) by lia. exact Hsw.
Qed.

(** [s.find(sub, start)] when [sub] occurs at [q], at or after [start]:
    the result is an occurrence between [start] and [q]. *)
Lemma find_located (s sub : str) (start : Z) (q : nat) :
  0 <= start <= Z.of_nat q ->
  (q + length sub <= length s)%nat ->
  firstn (length sub) (skipn q s) = sub ->
  start <= find s sub start <= Z.of_nat q
  /\ slice s (find s sub start) (find s sub start + len sub) = sub.
Proof.
  intros Hst Hq Hocc. unfold find.
  destruct (Z.ltb_spec start 0); [lia|].
  destruct (Z.ltb_spec (Z.of_nat (length s)) start); [lia|].
  set (a := Z.to_nat start).
  destruct (@find_at_first sub (q - a) (skipn a s) a) as (p & -> & Hr & Hsw).
  - rewrite length_skipn. lia.
  - rewrite skipn_skipn. replace (q - a + a)%nat with q by lia.
    now apply prefix_starts_with.
  - rewrite skipn_skipn in Hsw.
    replace (p - a + a)%nat with p in Hsw by lia.
    apply starts_with_prefix in Hsw.
    split; [lia|]. unfold len.
    rewrite slice_within by lia.
    rewrite Nat2Z.id.
    replace (Z.to_nat (Z.of_nat p + Z.of_nat (length sub)) - p)%nat
      with (length sub) by lia.
    exact Hsw.
Qed.

End FindFacts.

Section ParagraphOffsets.

Context {host : Host}.
Variable _config : ChunkingConfig.
Variables book_id book_title book_author language : str.
Variables (text section_path : str) (char_offset : Z).

(** The loop over the pieces of [re.split], with the cursor at or before
    the place of the next piece: every paragraph is found where it is, or
    at an earlier occurrence. *)
Lemma paragraph_loop_located (ms : list (nat * nat)) : forall last pos cs,
  chain pat_blank_line text last ms ->
  0 <= pos <= Z.of_nat last ->
  (last <= length text)%nat ->
  Forall (fun para => estimate_tokens para <= max_tokens _config)
         (Re.pieces text last ms) ->
  paragraph_loop _config book_id book_title book_author language text
    section_path char_offset (Re.pieces text last ms) pos = Ok cs ->
  Forall (located text char_offset) cs.
Proof.
  induction ms as [|[st n] ms' IH]; intros last pos cs Hc Hpos Hlast Hmax;
    cbn [Re.pieces] in Hmax; cbn [Re.pieces paragraph_loop].
  - pose proof (Forall_inv Hmax) as Hp. cbv beta in Hp.
    set (para := skipn last text) in *.
    destruct (strip para) as [|c0 sp] eqn:Es; [intros [= <-]; constructor|].
    rewrite <- Es, estimate_strip.
    destruct (Z.gtb_spec (estimate_tokens para) (max_tokens _config));
      [lia|].
    cbn [bind]. intros [= <-]. constructor; [|constructor].
    assert (Hocc : firstn (length para) (skipn last text) = para)
      by apply firstn_all.
    assert (Hlen : (last + length para <= length text)%nat)
      by (unfold para; rewrite length_skipn; lia).
    destruct (@find_located text para pos last Hpos Hlen Hocc) as [Hr Hs].
    destruct (Z.eqb_spec (find text para pos) (-1)); [lia|].
    unfold located. cbn [Chunk.char_start Chunk.char_end Chunk.text Chunk.new].
    replace (char_offset + find text para pos - char_offset)
      with (find text para pos) by lia.
    replace (char_offset + (find text para pos + len para) - char_offset)
      with (find text para pos + len para) by lia.
    rewrite Hs. unfold len in *. repeat split; try lia.
  - destruct Hc as (Hle & Hst & Hm & Hc).
    apply blank_line_match in Hm as (Hn & Hnlen & _).
    rewrite length_skipn in Hnlen.
    pose proof (Forall_inv Hmax) as Hp. cbv beta in Hp.
    pose proof (Forall_inv_tail Hmax) as Hrest.
    set (para := firstn (st - last) (skipn last text)) in *.
    assert (Hplen : length para = (st - last)%nat).
    { unfold para. rewrite length_firstn, length_skipn. lia. }
    destruct (strip para) as [|c0 sp] eqn:Es.
    + apply IH; auto; unfold len; lia.
    + rewrite <- Es, estimate_strip.
      destruct (Z.gtb_spec (estimate_tokens para) (max_tokens _config));
        [lia|].
      cbn [bind].
      assert (Hocc : firstn (length para) (skipn last text) = para)
        by (now rewrite Hplen).
      assert (Hlen : (last + length para <= length text)%nat) by lia.
      destruct (@find_located text para pos last Hpos Hlen Hocc) as [Hr Hs].
      destruct (Z.eqb_spec (find text para pos) (-1)); [lia|].
      destruct (paragraph_loop _ _ _ _ _ _ _ _ _ _) as [more|] eqn:Em;
        [|discriminate].
      cbn [bind]. intros [= <-]. constructor.
      * unfold located.
        cbn [Chunk.char_start Chunk.char_end Chunk.text Chunk.new].
        replace (char_offset + find text para pos - char_offset)
          with (find text para pos) by lia.
        replace (char_offset + (find text para pos + len para)
                 - char_offset)
          with (find text para pos + len para) by lia.
        rewrite Hs. unfold len in *. repeat split; try lia.
      * eapply IH; [exact Hc | | | exact Hrest | exact Em];
          unfold len; lia.
Qed.

End ParagraphOffsets.

(** X15. Character ranges of the paragraph fallback.  When no paragraph has
    more than [max_tokens] words, every chunk [_chunk_by_paragraphs] builds
    carries a range of the text, relative to [char_offset], and its text is
    the stripped text of that range. *)
Theorem paragraph_chunks_located {host : Host} (_config : ChunkingConfig)
    (book_id book_title book_author language text section_path : str)
    (char_offset : Z) (cs : list Chunk.t) :
  Forall (fun para => estimate_tokens para <= max_tokens _config)
         (Re.split pat_blank_line text) ->
  _chunk_by_paragraphs _config book_id book_title book_author language
    text section_path char_offset = Ok cs ->
  Forall (located text char_offset) cs.
Proof.
  unfold _chunk_by_paragraphs, Re.split. intros Hmax Hcs.
  eapply paragraph_loop_located; [| | |exact Hmax|exact Hcs].
  - apply finditer_chain.
  - cbn. lia.
  - cbn. lia.
Qed.

Section LeafOffsets.

Context {host : Host}.
Variable _config : ChunkingConfig.
Variables book_id book_title book_author language : str.

Lemma leaves_nodes (s : Sec.tree) (f : Sec.fields) :
  In f (leaves s) -> In f (nodes s).
Proof.
  induction s as [g subs IH] using tree_induction.
  destruct subs as [|s1 subs'].
  - cbn. tauto.
  - change (leaves (Sec.Node g (s1 :: subs')))
      with (flat_map leaves (s1 :: subs')).
    cbn [nodes]. intros Hin. right.
    apply in_flat_map in Hin as (x & Hx & Hf). apply in_flat_map.
    exists x. split; [exact Hx|]. rewrite Forall_forall in IH. auto.
Qed.

(** A property of the chunks of every leaf of a tree holds for the chunks
    of the tree. *)
Lemma section_Forall_leaves (P : Chunk.t -> Prop) (s : Sec.tree) :
  (forall path f cs,
      In f (leaves s) ->
      leaf_chunks _config book_id book_title book_author language path f
      = Ok cs -> Forall P cs) ->
  forall path cs,
    chunk_section _config book_id book_title book_author language path s
    = Ok cs ->
    Forall P cs.
Proof.
  induction s as [f subs IH] using tree_induction.
  intros Hleaf path cs. rewrite section_unfold.
  destruct subs as [|s1 subs'].
  - apply Hleaf. now left.
  - set (sp := _build_section_path path f). clearbody sp.
    destruct (map_exc _ (s1 :: subs')) as [r|] eqn:Er; [|discriminate].
    intros [= <-]. apply Forall_concat. apply map_exc_inv in Er.
    change (leaves (Sec.Node f (s1 :: subs')))
      with (flat_map leaves (s1 :: subs')) in Hleaf.
    revert IH Hleaf Er. generalize (s1 :: subs') as l.
    intros l IH Hleaf Er. revert IH Hleaf.
    induction Er as [|x y l' r' Hx _ IHr]; intros IH Hleaf; constructor.
    + inversion IH as [|? ? IHx IHl]; subst.
      eapply IHx; [|exact Hx].
      intros p g cs Hg. apply Hleaf. cbn [flat_map].
      apply in_or_app. now left.
    + inversion IH as [|? ? IHx IHl]; subst.
      apply IHr; [exact IHl|].
      intros p g cs Hg. apply Hleaf. cbn [flat_map].
      apply in_or_app. now right.
Qed.

Lemma sections_Forall_leaves (P : Chunk.t -> Prop)
    (sections : list Sec.tree) :
  (forall path f cs,
      In f (flat_map leaves sections) ->
      leaf_chunks _config book_id book_title book_author language path f
      = Ok cs -> Forall P cs) ->
  forall path cs,
    _chunk_sections _config book_id book_title book_author language
      sections path = Ok cs ->
    Forall P cs.
Proof.
  intros Hleaf path cs. rewrite sections_unfold.
  destruct (map_exc _ sections) as [r|] eqn:Er; [|discriminate].
  intros [= <-]. apply Forall_concat. apply map_exc_inv in Er.
  revert Hleaf.
  induction Er as [|x y l' r' Hx _ IHr]; intros Hleaf; constructor.
  - eapply section_Forall_leaves; [|exact Hx].
    intros p g cs Hg. apply Hleaf. cbn [flat_map].
    apply in_or_app. now left.
  - apply IHr. intros p g cs Hg. apply Hleaf. cbn [flat_map].
    apply in_or_app. now right.
Qed.

(** A relation between every leaf with text and its chunks holds between
    the leaves of the tree and the chunks of the tree, in order. *)
Lemma section_Forall2_leaves (R : Sec.fields -> Chunk.t -> Prop)
    (s : Sec.tree) :
  (forall path f cs,
      In f (leaves s) ->
      leaf_chunks _config book_id book_title book_author language path f
      = Ok cs -> Forall2 R (filter has_text [f]) cs) ->
  forall path cs,
    chunk_section _config book_id book_title book_author language path s
    = Ok cs ->
    Forall2 R (filter has_text (leaves s)) cs.
Proof.
  induction s as [f subs IH] using tree_induction.
  intros Hleaf path cs. rewrite section_unfold.
  destruct subs as [|s1 subs'].
  - apply Hleaf. now left.
  - set (sp := _build_section_path path f). clearbody sp.
    destruct (map_exc _ (s1 :: subs')) as [r|] eqn:Er; [|discriminate].
    intros [= <-]. apply map_exc_inv in Er.
    change (leaves (Sec.Node f (s1 :: subs')))
      with (flat_map leaves (s1 :: subs')) in *.
    revert IH Hleaf Er. generalize (s1 :: subs') as l.
    intros l IH Hleaf Er. revert IH Hleaf.
    induction Er as [|x y l' r' Hx _ IHr]; intros IH Hleaf;
      cbn [flat_map concat]; [constructor|].
    rewrite filter_app. apply Forall2_app.
    + inversion IH as [|? ? IHx IHl]; subst.
      eapply IHx; [|exact Hx].
      intros p g cs Hg. apply Hleaf. cbn [flat_map].
      apply in_or_app. now left.
    + inversion IH as [|? ? IHx IHl]; subst.
      apply IHr; [exact IHl|].
      intros p g cs Hg. apply Hleaf. cbn [flat_map].
      apply in_or_app. now right.
Qed.

Lemma sections_Forall2_leaves (R : Sec.fields -> Chunk.t -> Prop)
    (sections : list Sec.tree) :
  (forall path f cs,
      In f (flat_map leaves sections) ->
      leaf_chunks _config book_id book_title book_author language path f
      = Ok cs -> Forall2 R (filter has_text [f]) cs) ->
  forall path cs,
    _chunk_sections _config book_id book_title book_author language
      sections path = Ok cs ->
    Forall2 R (filter has_text (flat_map leaves sections)) cs.
Proof.
  intros Hleaf path cs. rewrite sections_unfold.
  destruct (map_exc _ sections) as [r|] eqn:Er; [|discriminate].
  intros [= <-]. apply map_exc_inv in Er.
  revert Hleaf.
  induction Er as [|x y l' r' Hx _ IHr]; intros Hleaf;
    cbn [flat_map concat]; [constructor|].
  rewrite filter_app. apply Forall2_app.
  - eapply section_Forall2_leaves; [|exact Hx].
    intros p g cs Hg. apply Hleaf. cbn [flat_map].
    apply in_or_app. now left.
  - apply IHr. intros p g cs Hg. apply Hleaf. cbn [flat_map].
    apply in_or_app. now right.
Qed.

End LeafOffsets.

Lemma section_chunks_ranges {host : Host} (_config : ChunkingConfig)
    (book_id book_title book_author language text : str)
    (sections : list Sec.tree) (cs : list Chunk.t) :
  _detect_sections text = Ok sections ->
  Forall (fun f => estimate_tokens (Sec.text f) <= max_tokens _config)
         (flat_map leaves sections) ->
  _chunk_sections _config book_id book_title book_author language
    sections [] = Ok cs ->
  Forall (located text 0) cs.
Proof.
  intros Hd Hmax.
  destruct (@detected_nodes text sections Hd)
    as (found & Hn & _ & _ & _ & Ha & Hm).
  assert (Hpos : Forall (fun m => 0 <= Marker.position m <= len text) found).
  { apply Forall_forall. intros m Hin.
    destruct (Hm m Hin) as (ty & lv & pat & st & n & _ & Hst & _ & ->).
    cbn. unfold len. lia. }
  pose proof (@sections_of_ranges text found Ha Hpos) as Hr.
  apply sections_Forall_leaves. intros path f cs' Hf.
  assert (Hnode : In f (sections_of text found)).
  { rewrite <- Hn. apply in_flat_map in Hf as (s & Hs & Hf).
    apply in_flat_map. exists s. split; [exact Hs|].
    now apply leaves_nodes. }
  rewrite Forall_forall in Hr, Hmax.
  specialize (Hr f Hnode). specialize (Hmax f Hf).
  destruct (@detected_section text found f Hm Hnode) as (Ht & _).
  unfold leaf_chunks.
  destruct (Z.leb_spec (estimate_tokens (Sec.text f)) (max_tokens _config));
    [|lia].
  destruct (strip (Sec.text f)); intros [= <-]; constructor; [|constructor].
  unfold located. cbn [Chunk.char_start Chunk.char_end Chunk.text Chunk.new].
  rewrite !Z.sub_0_r. repeat split; try lia. exact Ht.
Qed.

(** X16. Character ranges of the structural path.  When no leaf section of
    the detected tree has more than [max_tokens] words, [_chunk_sections]
    builds one chunk for every leaf section whose text is not blank, in
    document order, and no other chunk; the chunk carries the character
    range, the text and the kind of its leaf section.  That range is a
    range of the text, and the chunk text is the stripped text of the
    range. *)
Theorem section_chunks_located {host : Host} (_config : ChunkingConfig)
    (book_id book_title book_author language text : str)
    (sections : list Sec.tree) (cs : list Chunk.t) :
  _detect_sections text = Ok sections ->
  Forall (fun f => estimate_tokens (Sec.text f) <= max_tokens _config)
         (flat_map leaves sections) ->
  _chunk_sections _config book_id book_title book_author language
    sections [] = Ok cs ->
  Forall2 chunk_of_section (filter has_text (flat_map leaves sections)) cs
  /\ Forall (located text 0) cs.
Proof.
  intros Hd Hmax Hcs. split.
  - revert Hcs. apply sections_Forall2_leaves. intros path f cs' Hf.
    rewrite Forall_forall in Hmax. specialize (Hmax f Hf).
    unfold leaf_chunks, has_text. cbn [filter].
    destruct (Z.leb_spec (estimate_tokens (Sec.text f)) (max_tokens _config));
      [|lia].
    destruct (strip (Sec.text f)); intros [= <-]; constructor;
      [|constructor].
    unfold chunk_of_section. cbn. tauto.
  - eapply section_chunks_ranges; eauto.
Qed.

(* ===================================================================== *)
(** ** Division and comparison of doubles *)
(* ===================================================================== *)

Section RoundingFacts.

Variables n d : Z.
Hypothesis Hd : 0 < d.

Lemma div_mod_pos : n = d * (n / d) + n mod d /\ 0 <= n mod d < d.
Proof.
  split; [apply Z.div_mod; lia | apply Z.mod_pos_bound; lia].
Qed.

(** Rounding is monotone at the integers. *)
Lemma round_lower (z : Z) : z * d <= n -> z <= Float.round_half_even n d.
Proof.
  intros Hz. unfold Float.round_half_even.
  destruct div_mod_pos as [E Hr].
  assert (z <= n / d) by nia.
  destruct (2 * (n mod d) ?= d); [destruct (Z.even (n / d))| |]; lia.
Qed.

Lemma round_upper (z : Z) : n <= z * d -> Float.round_half_even n d <= z.
Proof.
  intros Hz. unfold Float.round_half_even.
  destruct div_mod_pos as [E Hr].
  set (q := n / d) in *. set (r := n mod d) in *.
  destruct (Z.compare_spec (2 * r) d) as [He|Hl|Hg].
  - assert (q < z) by nia. destruct (Z.even q); lia.
  - assert (q <= z) by nia. lia.
  - assert (q < z) by nia. lia.
Qed.

(** The result is above [z] exactly when the quotient is above
    [z + 1/2], or equal to it with [z] odd. *)
Lemma round_above (z : Z) :
  z + 1 <= Float.round_half_even n d
  <-> (2 * z + 1) * d < 2 * n
      \/ ((2 * z + 1) * d = 2 * n /\ Z.odd z = true).
Proof.
  unfold Float.round_half_even.
  destruct div_mod_pos as [E Hr].
  set (q := n / d) in *. set (r := n mod d) in *.
  destruct (Z.compare_spec (2 * r) d) as [He|Hl|Hg].
  - destruct (Z.even q) eqn:Hq.
    + split.
      * intros H. left. nia.
      * intros [H|[H Ho]].
        -- assert (z < q) by nia. lia.
        -- assert (z = q) by nia. subst z.
           rewrite <- Z.negb_even, Hq in Ho. discriminate.
    + split.
      * intros H. destruct (Z.eq_dec z q) as [->|Hne].
        -- right. split; [nia|]. now rewrite <- Z.negb_even, Hq.
        -- left. nia.
      * intros [H|[H Ho]]; [assert (z <= q) by nia | assert (z = q) by nia];
          lia.
  - split.
    + intros H. left. nia.
    + intros [H|[H Ho]]; [assert (z < q) by nia | assert (z = q) by nia].
      * lia.
      * subst z. nia.
  - split.
    + intros H. left. nia.
    + intros [H|[H Ho]]; [assert (z <= q) by nia | assert (z <= q) by nia];
        lia.
Qed.

End RoundingFacts.

Section DivisionFacts.

(** For [0 < a <= b] the quotient lies in a binade at or below 1. *)
Lemma binade_spec (a b : Z) :
  0 < a -> a <= b ->
  exists k, 0 <= k /\ Float.binade a b = - k
            /\ b <= a * 2 ^ k /\ a * 2 ^ k < 2 * b.
Proof.
  intros Ha Hab. unfold Float.binade.
  pose proof (Z.log2_spec a Ha) as [Ha1 Ha2].
  pose proof (Z.log2_spec b ltac:(lia)) as [Hb1 Hb2].
  pose proof (Z.log2_le_mono a b Hab) as Hl.
  pose proof (Z.log2_nonneg a) as Hla.
  rewrite Z.pow_succ_r in Ha2, Hb2 by (auto using Z.log2_nonneg).
  generalize dependent (Z.log2 a). generalize dependent (Z.log2 b).
  intros lb Hb1 Hb2 la Ha1 Ha2 Hl Hla.
  destruct (Z.leb_spec 0 (la - lb)) as [Hk|Hk].
  - assert (E : la - lb = 0) by lia. rewrite E.
    assert (lb = la) by lia. subst lb. rewrite Z.pow_0_r.
    destruct (Z.leb_spec (b * 1) a).
    + exists 0. rewrite Z.pow_0_r. repeat split; lia.
    + exists 1. rewrite Z.pow_1_r. repeat split; lia.
  - remember (lb - la) as j eqn:Ej.
    replace (- (la - lb)) with j by lia.
    assert (Hj : 0 < j) by lia.
    assert (HP : 0 < 2 ^ j) by (apply Z.pow_pos_nonneg; lia).
    assert (Hpow : 2 ^ lb = 2 ^ la * 2 ^ j).
    { rewrite <- Z.pow_add_r by lia. f_equal. lia. }
    rewrite Hpow in Hb1, Hb2.
    assert (HL : 0 < 2 ^ la) by (apply Z.pow_pos_nonneg; lia).
    remember (2 ^ j) as P eqn:EP. remember (2 ^ la) as L eqn:EL.
    destruct (Z.leb_spec b (a * P)).
    + exists j. rewrite <- EP. repeat split; try lia. nia.
    + exists (j + 1). rewrite Z.pow_add_r, Z.pow_1_r, <- EP by lia.
      repeat split; try lia. nia.
Qed.

Lemma pow2_small (k : Z) : 0 <= k -> 2 ^ k < 2 ^ 54 -> k <= 53.
Proof.
  intros Hk H. destruct (Z.le_gt_cases k 53) as [|Hgt]; [assumption|].
  assert (2 ^ 54 <= 2 ^ k) by (apply Z.pow_le_mono_r; lia). lia.
Qed.

(** The quotient of [0 < a <= b < 2^53]: a mantissa of 53 bits at the
    exponent of the binade. *)
Lemma true_divide_small (a b : Z) :
  0 < a -> a <= b -> b < 2 ^ 53 ->
  exists k m,
    0 <= k <= 53
    /\ b <= a * 2 ^ k /\ a * 2 ^ k < 2 * b
    /\ m = Float.round_half_even (a * 2 ^ (k + 52)) b
    /\ 2 ^ 52 <= m <= 2 ^ 53
    /\ Float.true_divide a b
       = Float.Val {| Float.mant := m; Float.exp := - (k + 52) |}.
Proof.
  intros Ha Hab Hb.
  destruct (binade_spec Ha Hab) as (k & Hk & Hbin & Hlo & Hhi).
  assert (Hpk : 0 < 2 ^ k) by (apply Z.pow_pos_nonneg; lia).
  assert (Hk53 : k <= 53).
  { apply pow2_small; [exact Hk|].
    change (2 ^ 54) with (2 * 2 ^ 53). nia. }
  exists k, (Float.round_half_even (a * 2 ^ (k + 52)) b).
  assert (Hp : a * 2 ^ (k + 52) = a * 2 ^ k * 2 ^ 52).
  { rewrite Z.pow_add_r by lia. ring. }
  split; [lia|]. split; [exact Hlo|]. split; [exact Hhi|].
  split; [reflexivity|]. split.
  - split.
    + apply round_lower; [lia|]. rewrite Hp. nia.
    + apply round_upper; [lia|]. rewrite Hp.
      change (2 ^ 53) with (2 * 2 ^ 52). nia.
  - unfold Float.true_divide.
    destruct (Z.eqb_spec b 0); [lia|]. destruct (Z.eqb_spec a 0); [lia|].
    rewrite !Z.abs_eq by lia. rewrite Hbin.
    rewrite Z.max_l by lia.
    destruct (Z.leb_spec 0 (- k - 52)); [lia|]. cbn [andb].
    rewrite !Z.sgn_pos by lia.
    replace (- (- k - 52)) with (k + 52) by lia.
    replace (- k - 52) with (- (k + 52)) by lia.
    now rewrite !Z.mul_1_l.
Qed.

Lemma gtb_eq (x y : Float.t) :
  Float.gtb x y
  = (Float.mant y * 2 ^ (Float.exp y - Z.min (Float.exp x) (Float.exp y))
     <? Float.mant x * 2 ^ (Float.exp x - Z.min (Float.exp x) (Float.exp y))).
Proof.
  unfold Float.gtb, Float.compare. cbv zeta.
  match goal with
  | |- context [?u ?= ?v] =>
      destruct (Z.compare_spec u v); destruct (Z.ltb_spec v u); auto; lia
  end.
Qed.

Lemma ltb_eq (x y : Float.t) :
  Float.ltb x y
  = (Float.mant x * 2 ^ (Float.exp x - Z.min (Float.exp x) (Float.exp y))
     <? Float.mant y * 2 ^ (Float.exp y - Z.min (Float.exp x) (Float.exp y))).
Proof.
  unfold Float.ltb, Float.compare. cbv zeta.
  match goal with
  | |- context [?u ?= ?v] =>
      destruct (Z.compare_spec u v); destruct (Z.ltb_spec u v); auto; lia
  end.
Qed.

Lemma bool_eq_iff (x y : bool) : (x = true <-> y = true) -> x = y.
Proof. destruct x, y; intuition congruence. Qed.

(** For [0 < a <= b < 2^52], comparing the double [a / b] with the
    literals 0.6, 0.4 and 0.5 is comparing the fraction with 3/5, 2/5 and
    1/2. *)
Lemma divide_compare (a b : Z) :
  0 < a -> a <= b -> b < 2 ^ 52 ->
  exists x,
    Float.true_divide a b = Float.Val x
    /\ Float.gtb x Float.lit_0_6 = (3 * b <? 5 * a)
    /\ Float.ltb x Float.lit_0_4 = (5 * a <? 2 * b)
    /\ Float.gtb x Float.lit_0_5 = (b <? 2 * a).
Proof.
  intros Ha Hab Hb.
  destruct (@true_divide_small a b Ha Hab ltac:(lia))
    as (k & m & Hk & Hlo & Hhi & Hm & Hmb & ->).
  eexists. split; [reflexivity|].
  rewrite !gtb_eq, ltb_eq.
  cbn [Float.mant Float.exp Float.lit_0_6 Float.lit_0_4 Float.lit_0_5].
  change (2 ^ 52) with 4503599627370496 in *.
  change (2 ^ 53) with 9007199254740992 in *.
  pose proof (@round_above (a * 2 ^ (k + 52)) b ltac:(lia)) as Habove. rewrite <- Hm in Habove.
  destruct (Z.eq_dec k 0) as [->|Hk0];
    [|destruct (Z.eq_dec k 1) as [->|Hk1];
      [|destruct (Z.eq_dec k 2) as [->|Hk2]]].
  - (* the quotient is 1 *)
    rewrite Z.pow_0_r in *. assert (a = b) by lia. subst b.
    replace (Z.min (- (0 + 52)) (-53)) with (-53) by lia.
    replace (Z.min (- (0 + 52)) (-54)) with (-54) by lia.
    replace (Z.min (- (0 + 52)) (-1)) with (-52) by lia.
    replace (- (0 + 52) - -53) with 1 by lia.
    replace (- (0 + 52) - -54) with 2 by lia.
    replace (- (0 + 52) - -52) with 0 by lia.
    replace (-53 - -53) with 0 by lia.
    replace (-54 - -54) with 0 by lia.
    replace (-1 - -52) with 51 by lia.
    change (2 ^ 0) with 1. change (2 ^ 1) with 2. change (2 ^ 2) with 4.
    change (2 ^ 51) with 2251799813685248.
    repeat split; apply bool_eq_iff;
      rewrite ?Z.ltb_lt; split; intros; lia.
  - (* half to 1 *)
    change (2 ^ (1 + 52)) with 9007199254740992 in *.
    rewrite Z.pow_1_r in *.
    replace (Z.min (- (1 + 52)) (-53)) with (-53) by lia.
    replace (Z.min (- (1 + 52)) (-54)) with (-54) by lia.
    replace (Z.min (- (1 + 52)) (-1)) with (-53) by lia.
    replace (- (1 + 52) - -53) with 0 by lia.
    replace (- (1 + 52) - -54) with 1 by lia.
    replace (-53 - -53) with 0 by lia.
    replace (-54 - -54) with 0 by lia.
    replace (-1 - -53) with 52 by lia.
    change (2 ^ 0) with 1. change (2 ^ 1) with 2.
    change (2 ^ 52) with 4503599627370496.
    pose proof (Habove 5404319552844595) as H6.
    pose proof (Habove 4503599627370496) as H5.
    cbn [Z.odd] in H6, H5.
    repeat split; apply bool_eq_iff; rewrite ?Z.ltb_lt; split; intros H;
      try lia.
  - (* a quarter to half *)
    change (2 ^ (2 + 52)) with 18014398509481984 in *.
    change (2 ^ 2) with 4 in *.
    replace (Z.min (- (2 + 52)) (-53)) with (-54) by lia.
    replace (Z.min (- (2 + 52)) (-54)) with (-54) by lia.
    replace (Z.min (- (2 + 52)) (-1)) with (-54) by lia.
    replace (- (2 + 52) - -54) with 0 by lia.
    replace (-53 - -54) with 1 by lia.
    replace (-54 - -54) with 0 by lia.
    replace (-1 - -54) with 53 by lia.
    change (2 ^ 0) with 1. change (2 ^ 1) with 2.
    change (2 ^ 53) with 9007199254740992.
    pose proof (Habove 7205759403792793) as H4.
    cbn [Z.odd] in H4.
    repeat split; apply bool_eq_iff; rewrite ?Z.ltb_lt; split; intros H;
      try lia.
  - (* below a quarter *)
    assert (Hk3 : 3 <= k) by lia.
    assert (Hp8 : 2 ^ 3 <= 2 ^ k) by (apply Z.pow_le_mono_r; lia).
    change (2 ^ 3) with 8 in Hp8.
    replace (Z.min (- (k + 52)) (-53)) with (- (k + 52)) by lia.
    replace (Z.min (- (k + 52)) (-54)) with (- (k + 52)) by lia.
    replace (Z.min (- (k + 52)) (-1)) with (- (k + 52)) by lia.
    replace (- (k + 52) - - (k + 52)) with 0 by lia.
    replace (-53 - - (k + 52)) with (k - 1) by lia.
    replace (-54 - - (k + 52)) with (k - 2) by lia.
    replace (-1 - - (k + 52)) with (k + 51) by lia.
    change (2 ^ 0) with 1.
    assert (H1 : 4 <= 2 ^ (k - 1))
      by (change 4 with (2 ^ 2); apply Z.pow_le_mono_r; lia).
    assert (H2 : 2 <= 2 ^ (k - 2))
      by (change 2 with (2 ^ 1) at 1; apply Z.pow_le_mono_r; lia).
    assert (H3 : 2 ^ 54 <= 2 ^ (k + 51))
      by (apply Z.pow_le_mono_r; lia).
    change (2 ^ 54) with 18014398509481984 in H3.
    repeat split; apply bool_eq_iff; rewrite ?Z.ltb_lt; split; intros H;
      try nia.
Qed.

(** A quotient at or below 1 never overflows. *)
Lemma true_divide_total (a b : Z) :
  0 <= a -> a <= b -> 0 < b ->
  exists x, Float.true_divide a b = Float.Val x.
Proof.
  intros Ha Hab Hb. unfold Float.true_divide.
  destruct (Z.eqb_spec b 0); [lia|].
  destruct (Z.eqb_spec a 0); [now eexists|].
  rewrite !Z.abs_eq by lia.
  destruct (@binade_spec a b ltac:(lia) Hab) as (k & Hk & -> & _).
  destruct (Z.leb_spec 0 (Z.max (- k - 52) (-1074))); [lia|].
  cbn [andb]. now eexists.
Qed.

End DivisionFacts.

(* ===================================================================== *)
(** ** The language detector and the title extractor *)
(* ===================================================================== *)

Section CountFacts.

Lemma rep_zero (cls : char -> bool) (k : option char -> str -> option nat)
    (prev : option char) (s : str) :
  Re.rep cls 0 (Some 0%nat) k prev s = k prev s.
Proof.
  destruct s as [|c s']; cbn; [reflexivity|].
  now rewrite andb_false_r.
Qed.

Lemma scan_one_of (cls : char -> bool) (s : str) : forall prev pos,
  length (Re.scan (one_of cls) prev pos 0 s) = length (filter cls s).
Proof.
  induction s as [|c s' IH]; intros prev pos; [reflexivity|].
  cbn [Re.scan one_of Re.match_here Re.rep Re.more Re.dec pred filter].
  destruct (cls c); cbn [andb].
  - rewrite rep_zero. cbn [length pred]. now rewrite IH.
  - apply IH.
Qed.

(** [len(re.findall(cls, text))] counts the characters of the class. *)
Lemma findall_count (cls : char -> bool) (text : str) :
  Z.of_nat (length (findall (one_of cls) text)) = count cls text.
Proof.
  unfold findall, count, Re.finditer.
  now rewrite length_map, scan_one_of.
Qed.

Lemma count_bounds (cls : char -> bool) (s : str) :
  0 <= count cls s <= len s.
Proof.
  unfold count, len. pose proof (filter_length_le cls s). lia.
Qed.

Lemma space_not_alpha (c : char) :
  isspace c = true -> hebrew_block c = false /\ latin c = false.
Proof.
  unfold isspace, hebrew_block, latin, in_range. intros H.
  repeat match goal with
         | |- context [(?a <=? ?b)%N] => destruct (N.leb_spec a b)
         end; cbn; auto;
  repeat match type of H with
         | context [(?a <=? ?b)%N] => destruct (N.leb_spec a b); try lia
         | context [(?a =? ?b)%N] => destruct (N.eqb_spec a b); try lia
         end; cbn in H; discriminate.
Qed.

Lemma blank_no_letters (text : str) :
  strip text = [] ->
  count hebrew_block text = 0 /\ count latin text = 0.
Proof.
  intros Hs. apply strip_nil_split, split_nil_all_space in Hs.
  unfold count. induction Hs as [|c s Hc _ [IH1 IH2]]; [easy|].
  destruct (space_not_alpha _ Hc) as [H1 H2].
  cbn [filter]. now rewrite H1, H2.
Qed.

End CountFacts.

(** X17. The language detector never raises, and its thresholds are exact:
    for a text with fewer than [2^52] Hebrew and Latin letters it answers
    by the share of Hebrew letters among them, "he" above three fifths (and
    when there is no letter at all), "en" below two fifths, "mixed" in
    between.  The rounding of the double division does not move either
    threshold. *)
Theorem detect_language_exact (text : str) :
  count hebrew_block text + count latin text < 2 ^ 52 ->
  _detect_language text
  = Float.Val (language_of_counts (count hebrew_block text)
                 (count latin text)).
Proof.
  intros Hsmall. unfold _detect_language, language_of_counts.
  rewrite !findall_count.
  destruct (strip text) as [|c0 t0] eqn:Es.
  { destruct (blank_no_letters _ Es) as [-> ->]. reflexivity. }
  pose proof (count_bounds hebrew_block text) as [Hh _].
  pose proof (count_bounds latin text) as [Hl _].
  set (h := count hebrew_block text) in *.
  set (l := count latin text) in *.
  destruct (Z.eqb_spec (h + l) 0); [reflexivity|].
  destruct (Z.eq_dec h 0) as [E|Hh0].
  - rewrite E. cbn [Z.add].
    unfold Float.true_divide. destruct (Z.eqb_spec l 0); [lia|].
    cbn [Z.eqb Float.bind].
    destruct (Z.ltb_spec (3 * l) (5 * 0)); [lia|].
    destruct (Z.ltb_spec (5 * 0) (2 * l)); [|lia]. reflexivity.
  - destruct (@divide_compare h (h + l) ltac:(lia) ltac:(lia) Hsmall)
      as (x & -> & H6 & H4 & _).
    cbn [Float.bind]. rewrite H6, H4.
    destruct (3 * (h + l) <? 5 * h); [reflexivity|].
    destruct (5 * h <? 2 * (h + l)); reflexivity.
Qed.

(** A number divided by itself is the double 1. *)
Lemma true_divide_self (a : Z) :
  0 < a ->
  Float.true_divide a a
  = Float.Val {| Float.mant := 2 ^ 52; Float.exp := -52 |}.
Proof.
  intros Ha. unfold Float.true_divide.
  destruct (Z.eqb_spec a 0); [lia|].
  rewrite !Z.abs_eq by lia.
  destruct (@binade_spec a a Ha (Z.le_refl a)) as (k & Hk & -> & Hlo & Hhi).
  assert (k = 0).
  { destruct (Z.eq_dec k 0); [assumption|].
    assert (2 ^ 1 <= 2 ^ k) by (apply Z.pow_le_mono_r; lia).
    change (2 ^ 1) with 2 in *. nia. }
  subst k. replace (- 0 - 52) with (-52) by lia. rewrite Z.max_l by lia.
  destruct (Z.leb_spec 0 (-52)); [lia|]. cbn [andb].
  replace (- -52) with 52 by lia.
  assert (E : Float.round_half_even (a * 2 ^ 52) a = 2 ^ 52).
  { apply Z.le_antisymm.
    - apply round_upper; lia.
    - apply round_lower; lia. }
  rewrite E, !Z.sgn_pos by lia. reflexivity.
Qed.

(** X18. Whatever the size of the text, the language detector returns one
    of "he", "en" and "mixed": "he" for a text without Latin letters, "en"
    for a text with Latin letters and no Hebrew one. *)
Theorem detect_language_total (text : str) :
  exists r,
    _detect_language text = Float.Val r
    /\ (r = s_he \/ r = s_en \/ r = s_mixed)
    /\ (count latin text = 0 -> r = s_he)
    /\ (count hebrew_block text = 0 -> 0 < count latin text -> r = s_en).
Proof.
  unfold _detect_language. rewrite !findall_count.
  destruct (strip text) as [|c0 t0] eqn:Es.
  { destruct (blank_no_letters _ Es) as [E1 E2].
    exists s_he. repeat split; auto. lia. }
  pose proof (count_bounds hebrew_block text) as [Hh _].
  pose proof (count_bounds latin text) as [Hl _].
  set (h := count hebrew_block text) in *.
  set (l := count latin text) in *.
  destruct (Z.eqb_spec (h + l) 0).
  { exists s_he. repeat split; auto. lia. }
  destruct (Z.eq_dec l 0) as [El|Hl0];
    [|destruct (Z.eq_dec h 0) as [Eh|Hh0]].
  - rewrite El, Z.add_0_r, true_divide_self by lia.
    exists s_he. repeat split; auto. lia.
  - rewrite Eh. cbn [Z.add]. unfold Float.true_divide.
    destruct (Z.eqb_spec l 0); [lia|].
    exists s_en. repeat split; auto. lia.
  - destruct (@true_divide_total h (h + l) Hh ltac:(lia) ltac:(lia))
      as [x ->].
    cbn [Float.bind].
    destruct (Float.gtb x Float.lit_0_6);
      [|destruct (Float.ltb x Float.lit_0_4)];
      eexists; (split; [reflexivity|]); (split; [tauto|]); split; lia.
Qed.

Section TitleFacts.

Lemma title_loop_find (lines : list str) :
  title_loop lines = Float.Val (option_map strip (List.find title_line lines)).
Proof.
  induction lines as [|line rest IH]; [reflexivity|].
  cbn [title_loop List.find]. unfold title_line.
  destruct (strip line) as [|c s] eqn:Es; [exact IH|].
  set (t := c :: s) in *.
  assert (Hlen : 1 <= len t) by (unfold len, t; cbn [length]; lia).
  destruct (Z.leb_spec (len t) 100) as [Hle|Hgt]; [|exact IH].
  cbn [andb]. rewrite findall_count.
  pose proof (count_bounds alpha t) as [Hc0 Hc].
  destruct (Z.gtb_spec (count alpha t) 0) as [Hpos|Hzero].
  - rewrite Z.max_l by lia.
    destruct (@divide_compare (count alpha t) (len t) Hpos Hc ltac:(lia))
      as (x & -> & _ & _ & H5).
    cbn [Float.bind]. rewrite H5.
    destruct (len t <? 2 * count alpha t); [|exact IH].
    cbn [option_map]. now rewrite Es.
  - destruct (Z.ltb_spec (len t) (2 * count alpha t)); [lia | exact IH].
Qed.

Lemma slice_prefix {A} (l : list A) (n : Z) :
  0 <= n -> slice l 0 n = firstn (Z.to_nat n) l.
Proof.
  intros Hn. unfold slice, norm_index.
  destruct (Z.ltb_spec n 0); [lia|]. cbn [Z.ltb Z.compare].
  replace (Z.min 0 (Z.of_nat (length l))) with 0 by lia.
  cbn [Z.to_nat skipn]. rewrite Nat.sub_0_r.
  destruct (Z.le_ge_cases n (Z.of_nat (length l))).
  - now rewrite Z.min_l by lia.
  - rewrite Z.min_r by lia. rewrite Nat2Z.id.
    rewrite firstn_all. symmetry. apply firstn_all2. lia.
Qed.

End TitleFacts.

(** X19. The title extractor never raises, and its letter test is exact:
    the title is the first of the first five lines of the stripped text
    that, stripped, is not empty, has at most 100 characters and has more
    than half of them Hebrew or Latin letters; it is returned stripped.
    Without such a line, and for a blank text, the title is the stem of the
    file name. *)
Theorem extract_title_exact (text : str) (file_path : Path.t) :
  _extract_title_from_text text file_path
  = Float.Val
      match List.find title_line (firstn 5 (split_on NL (strip text))) with
      | Some line => strip line
      | None => Path.stem file_path
      end.
Proof.
  unfold _extract_title_from_text.
  destruct (strip text) as [|c0 t0] eqn:Es; [reflexivity|].
  rewrite slice_prefix by lia. change (Z.to_nat 5) with 5%nat.
  rewrite title_loop_find. cbn [Float.bind].
  now destruct (List.find title_line _).
Qed.

(* ===================================================================== *)
(** ** The theorems at concrete inputs *)
(* ===================================================================== *)

(** The offsets of the example host are those of the double expression:
    three elevenths of 55 come out as 14 and seven tenths of 90 as 62 (the
    exact quotients are 15 and 63), and the integer part is taken towards
    zero. *)
Example offsets_in_doubles :
  float_offset (Host := example_host) 3 11 55 = 14
  /\ float_offset (Host := example_host) 7 10 90 = 62
  /\ float_offset (Host := example_host) 5 10 90 = 45
  /\ Float.int_of_scaled (-3) 2 1 = Float.Val (-1)
  /\ Float.int_of_scaled 1 0 5 = Float.Err Float.ZeroDivisionError.
Proof. vm_compute. repeat split. Qed.

Lemma token_ceiling_witness :
  valid_config small_config
  /\ exists out,
       chunk (host := example_host) small_config
         (example_book (lit "a b c d e f g h i")) None = Ok out
       /\ Forall (fun c => Chunk.token_count c <= max_tokens small_config) out.
Proof.
  assert (Hv : valid_config small_config) by (unfold valid_config; cbn; lia).
  split; [exact Hv|].
  exact (@token_ceiling example_host small_config
           (example_book (lit "a b c d e f g h i")) None Hv).
Defined.

Lemma leaf_coverage_witness :
  exists sections out,
    valid_config default_config
    /\ strip siman_text <> []
    /\ _detect_sections siman_text = Ok sections
    /\ chunk (host := example_host) default_config (example_book siman_text)
         None = Ok out
    /\ (sections = [] -> subseq (split siman_text) (chunk_words out))
    /\ subseq (leaf_words (flat_map leaves sections)) (chunk_words out)
    /\ (forall leaf,
           In leaf (flat_map leaves sections) ->
           incl (split (Sec.text leaf)) (chunk_words out)).
Proof.
  assert (Hv : valid_config default_config) by (unfold valid_config; cbn; lia).
  assert (Hne : strip (raw_text (example_book siman_text)) <> [])
    by (vm_compute; discriminate).
  do 2 eexists.
  split; [exact Hv|]. split; [exact Hne|].
  assert (Hs : _detect_sections (raw_text (example_book siman_text))
               = Ok (match _detect_sections siman_text with
                     | Ok s => s
                     | Raise _ => []
                     end))
    by (vm_compute; reflexivity).
  assert (Hout : chunk (host := example_host) default_config
                   (example_book siman_text) None
                 = Ok (match chunk (host := example_host) default_config
                               (example_book siman_text) None with
                       | Ok o => o
                       | Raise _ => []
                       end))
    by (vm_compute; reflexivity).
  split; [exact Hs|]. split; [exact Hout|].
  exact (@leaf_coverage example_host default_config
           (example_book siman_text) None _ _ Hv Hne Hs Hout).
Defined.

Lemma config_not_validated_witness :
  let c := {| target_tokens := 3; max_tokens := 2; min_tokens := 5;
              overlap_tokens := -1 |} in
  ChunkingConfig_init (Some 3) (Some 2) (Some 5) (Some (-1)) = Ok c
  /\ 0 < target_tokens c
  /\ exists out,
       chunk (host := example_host) c (example_book (lit "a b c d e f g"))
         None = Ok out.
Proof.
  cbn zeta. split; [reflexivity|]. split; [cbn; lia|].
  destruct (config_not_validated (host := example_host)
              (Some 3) (Some 2) (Some 5) (Some (-1))) as [_ H].
  apply H; [reflexivity | cbn; lia].
Defined.

Lemma paragraph_rule_witness :
  let para := lit " a b " in
  strip para <> []
  /\ estimate_tokens (strip para) <= max_tokens small_config
  /\ exists c,
       Chunk.section_type c = s_paragraph
       /\ Chunk.section_path c = []
       /\ Chunk.text c = lit "a b"
       /\ paragraph_loop (host := example_host) small_config (lit "id")
            (lit "Book") (lit "Author") (lit "he") (lit " a b ") [] 0
            [para] 0
          = Ok [c].
Proof.
  cbn zeta.
  assert (Hne : strip (lit " a b ") <> []) by (vm_compute; discriminate).
  assert (Hle : estimate_tokens (strip (lit " a b "))
                <= max_tokens small_config) by (vm_compute; discriminate).
  split; [exact Hne|]. split; [exact Hle|].
  destruct (paragraph_rule (host := example_host) small_config (lit "id")
              (lit "Book") (lit "Author") (lit "he") (lit " a b "))
    as [Hrule _].
  destruct (Hrule (lit " a b ") [] 0) as (_ & Hdirect & _).
  destruct (Hdirect Hne Hle) as (c & Hty & Hp & Htx & _ & _ & _ & Hloop).
  exists c. repeat split; auto.
Defined.


Lemma tree_levels_and_attachment_witness :
  let marker i lv :=
    {| Marker.type := s_siman; Marker.title := lit "title";
       Marker.position := i; Marker.level := lv |} in
  let text := lit "abcdef" in
  let s := build_loop text [marker 0 1; marker 2 3] build_init in
  let s' := build_step text (marker 4 3) 6 s in
  reachable text s
  /\ stack s = [1; 0]%nat
  /\ stack s' = [2; 0]%nat
  /\ roots s' = roots s
  /\ subs_at (objs s') 0 = [1; 2]%nat
  /\ map (fun t => (Sec.char_start (Sec.data t),
                    map (fun x => Sec.char_start (Sec.data x))
                      (Sec.subsections t)))
       (_build_section_tree [marker 0 1; marker 2 3; marker 4 3] text)
     = [(0, [2; 4])].
Proof.
  cbn zeta.
  destruct (tree_levels_and_attachment (lit "abcdef"))
    as (_ & Hreach & Hstep & _ & Hattach).
  pose proof (Hreach [{| Marker.type := s_siman; Marker.title := lit "title";
                         Marker.position := 0; Marker.level := 1 |};
                      {| Marker.type := s_siman; Marker.title := lit "title";
                         Marker.position := 2; Marker.level := 3 |}]) as Hr.
  destruct (Hstep _ {| Marker.type := s_siman; Marker.title := lit "title";
                       Marker.position := 4; Marker.level := 3 |} 6 Hr)
    as (Hst & _ & _ & Hroots & _ & Hsub).
  split; [exact Hr|]. split; [reflexivity|]. split; [exact Hst|].
  split; [exact Hroots|]. split; [exact (Hsub 0%nat)|].
  rewrite Hattach. reflexivity.
Defined.

Lemma token_count_is_word_count_witness :
  valid_config small_config
  /\ exists out,
       chunk (host := example_host) small_config
         (example_book (lit "a b c d e f g h i")) None = Ok out
       /\ Forall (fun c => Chunk.token_count c
                           = Z.of_nat (length (split (Chunk.text c)))) out.
Proof.
  assert (Hv : valid_config small_config) by (unfold valid_config; cbn; lia).
  split; [exact Hv|].
  destruct (token_count_is_word_count (host := example_host) small_config
              (example_book (lit "a b c d e f g h i")) None) as [Htot Hcnt].
  destruct (Htot Hv) as [out Hout].
  exists out. split; [exact Hout | exact (Hcnt out Hout)].
Defined.

Lemma merge_idempotent_witness :
  let chunks := [plain_chunk (lit "a") [] 1; plain_chunk (lit "b") [] 1;
                 plain_chunk (lit "c d e") [] 3] in
  Forall (fun c => 0 <= Chunk.token_count c) chunks
  /\ _merge_small_chunks small_config
       (_merge_small_chunks small_config chunks)
     = _merge_small_chunks small_config chunks.
Proof.
  cbn zeta.
  assert (Hall : Forall (fun c => 0 <= Chunk.token_count c)
                   [plain_chunk (lit "a") [] 1; plain_chunk (lit "b") [] 1;
                    plain_chunk (lit "c d e") [] 3])
    by (repeat constructor; cbn; lia).
  split; [exact Hall|].
  exact (proj1 (@merge_idempotent small_config _ Hall)).
Defined.

Lemma merge_without_small_chunks_witness :
  Forall (fun c => min_tokens small_config <= Chunk.token_count c)
         [plain_chunk (lit "a b") [] 2; plain_chunk (lit "c d e") [] 3]
  /\ _merge_small_chunks small_config
       [plain_chunk (lit "a b") [] 2; plain_chunk (lit "c d e") [] 3]
     = [plain_chunk (lit "a b") [] 2; plain_chunk (lit "c d e") [] 3].
Proof.
  assert (H : Forall (fun c => min_tokens small_config <= Chunk.token_count c)
                [plain_chunk (lit "a b") [] 2;
                 plain_chunk (lit "c d e") [] 3])
    by (repeat constructor; cbn; lia).
  split; [exact H | exact (@merge_without_small_chunks small_config _ H)].
Defined.

Lemma merge_keeps_total_witness :
  [plain_chunk (lit "a") [] 1] <> []
  /\ _merge_small_chunks small_config [plain_chunk (lit "a") [] 1] <> [].
Proof.
  assert (H : [plain_chunk (lit "a") [] 1] <> []) by discriminate.
  split; [exact H|].
  exact (proj2 (proj2 (merge_keeps_total small_config
                         [plain_chunk (lit "a") [] 1])) H).
Defined.

Lemma chunk_metadata_witness :
  (exists out,
      chunk (host := example_host) small_config (example_book siman_text)
        (Some (lit "id")) = Ok out
      /\ Forall (carries (lit "id") (example_book siman_text)) out)
  /\ (exists out,
         chunk (host := example_host) small_config (example_book siman_text)
           (Some []) = Ok out
         /\ Forall (carries (lit "00000000-0000-4000-8000-000000000000")
                      (example_book siman_text)) out).
Proof.
  assert (H : chunk (host := example_host) small_config
                (example_book siman_text) (Some (lit "id"))
              = Ok (returned (chunk (host := example_host) small_config
                                (example_book siman_text)
                                (Some (lit "id")))))
    by (vm_compute; reflexivity).
  assert (H' : chunk (host := example_host) small_config
                 (example_book siman_text) (Some [])
               = Ok (returned (chunk (host := example_host) small_config
                                 (example_book siman_text) (Some []))))
    by (vm_compute; reflexivity).
  split; eexists.
  - split; [exact H|].
    apply (proj1 (@chunk_metadata example_host _ _ _ _ H) (lit "id"));
      [reflexivity | discriminate].
  - split; [exact H'|].
    apply (proj2 (@chunk_metadata example_host _ _ _ _ H')). now right.
Defined.

Lemma chunk_never_blank_witness :
  exists out,
    chunk (host := example_host) small_config (example_book siman_text)
      (Some (lit "id")) = Ok out
    /\ Forall (fun c => strip (Chunk.text c) <> []
                        /\ 1 <= Chunk.token_count c) out.
Proof.
  assert (H : chunk (host := example_host) small_config
                (example_book siman_text) (Some (lit "id"))
              = Ok (returned (chunk (host := example_host) small_config
                                (example_book siman_text)
                                (Some (lit "id")))))
    by (vm_compute; reflexivity).
  eexists. split; [exact H|].
  exact (@chunk_never_blank example_host _ _ _ _ H).
Defined.

Lemma chunk_empty_iff_blank_witness :
  exists out,
    chunk (host := example_host) small_config (example_book siman_text)
      (Some (lit "id")) = Ok out
    /\ (out = [] <-> strip siman_text = []).
Proof.
  assert (H : chunk (host := example_host) small_config
                (example_book siman_text) (Some (lit "id"))
              = Ok (returned (chunk (host := example_host) small_config
                                (example_book siman_text)
                                (Some (lit "id")))))
    by (vm_compute; reflexivity).
  eexists. split; [exact H|].
  exact (@chunk_empty_iff_blank example_host _ _ _ _ H).
Defined.

Lemma fallback_numbering_witness :
  _detect_sections plain_text = Ok []
  /\ exists out,
       chunk (host := example_host) small_config (example_book plain_text)
         (Some (lit "id")) = Ok out
       /\ forall k c,
            nth_error out k = Some c ->
            Chunk.section_type c = s_paragraph
            /\ Chunk.section_path c = []
            /\ Chunk.chunk_index c = Z.of_nat k
            /\ Chunk.total_chunks_in_section c = Z.of_nat (length out).
Proof.
  assert (Hd : _detect_sections (raw_text (example_book plain_text)) = Ok [])
    by (vm_compute; reflexivity).
  assert (H : chunk (host := example_host) small_config
                (example_book plain_text) (Some (lit "id"))
              = Ok (returned (chunk (host := example_host) small_config
                                (example_book plain_text)
                                (Some (lit "id")))))
    by (vm_compute; reflexivity).
  split; [exact Hd|]. eexists. split; [exact H|].
  exact (@fallback_numbering example_host _ _ _ _ Hd H).
Defined.

Lemma sliding_windows_witness :
  0 < target_tokens small_config
  /\ 0 <= overlap_tokens small_config
  /\ max_tokens small_config < Z.of_nat (length (split seven_words))
  /\ exists cs,
       _sliding_window_chunks (host := example_host) small_config
         (lit "id") (lit "Book") (lit "Author") (lit "he") seven_words []
         s_paragraph 0 = Ok cs
       /\ (split seven_words <> [] -> cs <> []).
Proof.
  assert (Ht : 0 < target_tokens small_config) by (cbn; lia).
  assert (Ho : 0 <= overlap_tokens small_config) by (cbn; lia).
  assert (Hm : max_tokens small_config
               < Z.of_nat (length (split seven_words)))
    by (vm_compute; reflexivity).
  assert (H : _sliding_window_chunks (host := example_host) small_config
                (lit "id") (lit "Book") (lit "Author") (lit "he")
                seven_words [] s_paragraph 0
              = Ok (returned
                      (_sliding_window_chunks (host := example_host)
                         small_config (lit "id") (lit "Book")
                         (lit "Author") (lit "he") seven_words []
                         s_paragraph 0)))
    by (vm_compute; reflexivity).
  split; [exact Ht|]. split; [exact Ho|]. split; [exact Hm|].
  eexists. split; [exact H|].
  exact (proj1 (@sliding_windows example_host _ _ _ _ _ _ _ _ _ _
                  Ht Ho Hm H)).
Defined.

Lemma windows_overlap_witness :
  0 <= overlap_tokens small_config < target_tokens small_config
  /\ max_tokens small_config < Z.of_nat (length (split seven_words))
  /\ exists cs,
       _sliding_window_chunks (host := example_host) small_config
         (lit "id") (lit "Book") (lit "Author") (lit "he") seven_words []
         s_paragraph 0 = Ok cs
       /\ nth_error cs 0 = Some (chunk_at cs 0)
       /\ nth_error cs 1 = Some (chunk_at cs 1)
       /\ skipn (Z.to_nat (target_tokens small_config
                           - overlap_tokens small_config))
            (split (Chunk.text (chunk_at cs 0)))
          = firstn (Z.to_nat (overlap_tokens small_config))
              (split (Chunk.text (chunk_at cs 1))).
Proof.
  assert (Ho : 0 <= overlap_tokens small_config < target_tokens small_config)
    by (cbn; lia).
  assert (Hm : max_tokens small_config
               < Z.of_nat (length (split seven_words)))
    by (vm_compute; reflexivity).
  set (cs := returned
               (_sliding_window_chunks (host := example_host) small_config
                  (lit "id") (lit "Book") (lit "Author") (lit "he")
                  seven_words [] s_paragraph 0)).
  assert (H : _sliding_window_chunks (host := example_host) small_config
                (lit "id") (lit "Book") (lit "Author") (lit "he")
                seven_words [] s_paragraph 0 = Ok cs)
    by (vm_compute; reflexivity).
  assert (H0 : nth_error cs 0 = Some (chunk_at cs 0))
    by (vm_compute; reflexivity).
  assert (H1 : nth_error cs 1 = Some (chunk_at cs 1))
    by (vm_compute; reflexivity).
  split; [exact Ho|]. split; [exact Hm|].
  exists cs. split; [exact H|]. split; [exact H0|]. split; [exact H1|].
  exact (proj2 (@windows_overlap example_host _ _ _ _ _ _ _ _ _ _
                  Ho Hm H 0%nat _ _ H0 H1)).
Defined.

Lemma sliding_zero_target_witness :
  target_tokens zero_target_config = 0
  /\ split (lit "a b c") <> []
  /\ max_tokens zero_target_config
     < Z.of_nat (length (split (lit "a b c")))
  /\ _sliding_window_chunks (host := example_host) zero_target_config
       (lit "id") (lit "Book") (lit "Author") (lit "he") (lit "a b c") []
       s_paragraph 0 = Raise IndexError.
Proof.
  assert (Ht : target_tokens zero_target_config = 0) by reflexivity.
  assert (Hne : split (lit "a b c") <> []) by (vm_compute; discriminate).
  assert (Hm : max_tokens zero_target_config
               < Z.of_nat (length (split (lit "a b c"))))
    by (vm_compute; reflexivity).
  split; [exact Ht|]. split; [exact Hne|]. split; [exact Hm|].
  exact (@sliding_zero_target example_host _ _ _ _ _ _ _ _ _ Ht Hne Hm).
Defined.

Lemma detect_sections_layout_witness :
  exists forest,
    _detect_sections siman_text = Ok forest
    /\ tiles (flat_map nodes forest) (len siman_text).
Proof.
  assert (H : _detect_sections siman_text
              = Ok (returned (_detect_sections siman_text)))
    by (vm_compute; reflexivity).
  eexists. split; [exact H|].
  exact (proj1 (@detect_sections_layout _ _ H)).
Defined.

Lemma section_path_titles_witness :
  exists sections out,
    _detect_sections siman_text = Ok sections
    /\ sections <> []
    /\ chunk (host := example_host) small_config (example_book siman_text)
         (Some (lit "id")) = Ok out
    /\ Forall (fun c =>
                 exists titles f,
                   In (titles, f) (flat_map (leaf_paths []) sections)
                   /\ Chunk.section_path c = join (lit " > ") titles
                   /\ Chunk.section_type c = Sec.section_type f) out.
Proof.
  assert (Hd : _detect_sections (raw_text (example_book siman_text))
               = Ok (returned (_detect_sections siman_text)))
    by (vm_compute; reflexivity).
  assert (Hne : returned (_detect_sections siman_text) <> [])
    by (vm_compute; discriminate).
  assert (H : chunk (host := example_host) small_config
                (example_book siman_text) (Some (lit "id"))
              = Ok (returned (chunk (host := example_host) small_config
                                (example_book siman_text)
                                (Some (lit "id")))))
    by (vm_compute; reflexivity).
  do 2 eexists. split; [exact Hd|]. split; [exact Hne|]. split; [exact H|].
  exact (@section_path_titles example_host _ _ _ _ _ Hd Hne H).
Defined.

Lemma section_chunks_located_witness :
  exists sections cs,
    _detect_sections siman_text = Ok sections
    /\ Forall (fun f => estimate_tokens (Sec.text f)
                        <= max_tokens default_config)
         (flat_map leaves sections)
    /\ _chunk_sections (host := example_host) default_config (lit "id")
         (lit "Book") (lit "Author") (lit "he") sections [] = Ok cs
    /\ Forall2 chunk_of_section
         (filter has_text (flat_map leaves sections)) cs
    /\ Forall (located siman_text 0) cs.
Proof.
  set (sections := returned (_detect_sections siman_text)).
  assert (Hd : _detect_sections siman_text = Ok sections)
    by (vm_compute; reflexivity).
  assert (Hmax : Forall (fun f => estimate_tokens (Sec.text f)
                                  <= max_tokens default_config)
                   (flat_map leaves sections)).
  { apply Forall_forall. intros f Hf. vm_compute in Hf.
    destruct Hf as [<-|[]]. vm_compute. discriminate. }
  assert (H : _chunk_sections (host := example_host) default_config
                (lit "id") (lit "Book") (lit "Author") (lit "he")
                sections []
              = Ok (returned
                      (_chunk_sections (host := example_host)
                         default_config (lit "id") (lit "Book")
                         (lit "Author") (lit "he") sections [])))
    by (vm_compute; reflexivity).
  exists sections. eexists. split; [exact Hd|]. split; [exact Hmax|].
  split; [exact H|].
  exact (@section_chunks_located example_host _ _ _ _ _ _ _ _ Hd Hmax H).
Defined.

Lemma paragraph_chunks_located_witness :
  Forall (fun para => estimate_tokens para <= max_tokens default_config)
         (Re.split pat_blank_line plain_text)
  /\ exists cs,
       _chunk_by_paragraphs (host := example_host) default_config
         (lit "id") (lit "Book") (lit "Author") (lit "he") plain_text [] 0
       = Ok cs
       /\ Forall (located plain_text 0) cs.
Proof.
  assert (Hmax : Forall (fun para => estimate_tokens para
                                     <= max_tokens default_config)
                   (Re.split pat_blank_line plain_text)).
  { apply Forall_forall. intros para Hp. vm_compute in Hp.
    destruct Hp as [<-|[<-|[]]]; vm_compute; discriminate. }
  assert (H : _chunk_by_paragraphs (host := example_host) default_config
                (lit "id") (lit "Book") (lit "Author") (lit "he")
                plain_text [] 0
              = Ok (returned
                      (_chunk_by_paragraphs (host := example_host)
                         default_config (lit "id") (lit "Book")
                         (lit "Author") (lit "he") plain_text [] 0)))
    by (vm_compute; reflexivity).
  split; [exact Hmax|]. eexists. split; [exact H|].
  exact (@paragraph_chunks_located example_host _ _ _ _ _ _ _ _ _ Hmax H).
Defined.

Lemma detect_language_exact_witness :
  count hebrew_block t_lang_mixed + count latin t_lang_mixed < 2 ^ 52
  /\ _detect_language t_lang_mixed
     = Float.Val (language_of_counts (count hebrew_block t_lang_mixed)
                    (count latin t_lang_mixed)).
Proof.
  assert (H : count hebrew_block t_lang_mixed + count latin t_lang_mixed
              < 2 ^ 52)
    by (vm_compute; reflexivity).
  split; [exact H | exact (@detect_language_exact t_lang_mixed H)].
Defined.

Lemma detect_language_total_witness :
  count latin t_lang_hebrew = 0
  /\ exists r, _detect_language t_lang_hebrew = Float.Val r /\ r = s_he.
Proof.
  assert (H : count latin t_lang_hebrew = 0) by (vm_compute; reflexivity).
  split; [exact H|].
  destruct (detect_language_total t_lang_hebrew) as (r & Hr & _ & Hhe & _).
  exists r. split; [exact Hr | exact (Hhe H)].
Defined.

(* ===================================================================== *)
(** ** The tests of [tests/test_chunker.py], replayed on the embedding *)
(* ===================================================================== *)

Module Tests.

(** class TestEstimateTokens *)

Example test_empty_string : estimate_tokens [] = 0.
Proof. reflexivity. Qed.

Example test_single_word : estimate_tokens t_shalom = 1.
Proof. reflexivity. Qed.

Example test_hebrew_sentence : estimate_tokens t_sentence = 6.
Proof. reflexivity. Qed.

Example test_mixed_language : estimate_tokens t_mixed = 4.
Proof. reflexivity. Qed.

(** class TestHalachicChunkerStructural *)

Example test_detects_siman_boundaries :
  let r := test_chunk (times t_unit_siman_seif_1 10
                       ++ times t_unit_siman_seif_2 10) in
  any_chunk (path_has t_siman_a) r && any_chunk (path_has t_siman_b) r = true.
Proof. vm_compute. reflexivity. Qed.

Example test_detects_seif_within_siman :
  let r := test_chunk (times t_unit_seif_a 5 ++ times t_unit_seif_b 5) in
  any_chunk (path_has t_seif_a) r && any_chunk (path_has t_seif_b) r = true.
Proof. vm_compute. reflexivity. Qed.

Example test_section_path_hierarchy :
  any_chunk (path_has t_path_siman_seif) (test_chunk (times t_unit_hierarchy 5))
  = true.
Proof. vm_compute. reflexivity. Qed.

Example test_siman_katan_detection :
  let r := test_chunk (times t_unit_katan_a 5 ++ times t_unit_katan_b 5) in
  any_chunk (fun c => path_has t_katan c || path_has t_qof_alef c) r = true.
Proof. vm_compute. reflexivity. Qed.

Example test_perek_as_top_level :
  let r := test_chunk (times t_unit_perek_a 10 ++ times t_unit_perek_b 10) in
  any_chunk (path_has t_perek_a) r && any_chunk (path_has t_perek_b) r = true.
Proof. vm_compute. reflexivity. Qed.

Example test_chunk_respects_max_tokens :
  all_chunks (fun c => Chunk.token_count c <=? max_tokens default_config)
    (test_chunk (t_siman_a ++ [NL] ++ times t_word 2000))
  = true.
Proof. vm_compute. reflexivity. Qed.

Example test_token_count_populated :
  all_chunks (fun c => 0 <? Chunk.token_count c)
    (test_chunk (times t_unit_injected 10))
  = true.
Proof. vm_compute. reflexivity. Qed.

(** class TestHalachicChunkerParagraph *)

Example test_splits_on_double_newline :
  2 <= count_chunks (test_chunk (times t_unit_para_1 10 ++ [NL; NL]
                                 ++ times t_unit_para_2 10)).
Proof. vm_compute. discriminate. Qed.

Example test_merges_small_paragraphs :
  0 <= count_chunks (test_chunk t_small_paragraphs) <= 2.
Proof. vm_compute. split; discriminate. Qed.

Example test_splits_large_paragraphs :
  let config := {| target_tokens := 50; max_tokens := 100; min_tokens := 50;
                   overlap_tokens := 10 |} in
  let r := chunk (host := example_host) config
             (example_book (times t_word 500)) None in
  1 < count_chunks r
  /\ all_chunks (fun c => Chunk.token_count c <=? max_tokens config) r = true.
Proof. vm_compute. split; reflexivity. Qed.

(** class TestHalachicChunkerEdgeCases *)

Example test_empty_text : test_chunk [] = Ok [].
Proof. reflexivity. Qed.

Example test_whitespace_only : test_chunk t_whitespace = Ok [].
Proof. reflexivity. Qed.

Example test_single_short_section :
  1 <= count_chunks (test_chunk t_short_section).
Proof. vm_compute. discriminate. Qed.

Example test_chunk_index_and_total :
  all_chunks (fun c => (0 <=? Chunk.chunk_index c)
                       && (0 <? Chunk.total_chunks_in_section c)
                       && (Chunk.chunk_index c
                           <? Chunk.total_chunks_in_section c))
    (test_chunk (t_siman_a ++ [NL] ++ times t_word 2000))
  = true.
Proof. vm_compute. reflexivity. Qed.

Example test_book_id_can_be_injected :
  all_chunks (fun c => str_eqb (Chunk.book_id c) (lit "custom-id-123"))
    (chunk (host := example_host) default_config
       (example_book (times t_unit_injected 10)) (Some (lit "custom-id-123")))
  = true.
Proof. vm_compute. reflexivity. Qed.

End Tests.

(* ===================================================================== *)
(** ** The tests of [tests/test_parser.py], replayed on the embedding *)
(* ===================================================================== *)

Module ParserTests.

(** The float literals are the doubles nearest to the decimal fractions. *)
Example literals_nearest :
  Float.true_divide 6 10 = Float.Val Float.lit_0_6
  /\ Float.true_divide 4 10 = Float.Val Float.lit_0_4
  /\ match Float.true_divide 1 2 with
     | Float.Val x => Float.compare x Float.lit_0_5
     | Float.Err _ => Lt
     end = Eq.
Proof. vm_compute. repeat split. Qed.

(** class TestDetectLanguage *)

Example test_language_hebrew :
  _detect_language t_lang_hebrew = Float.Val s_he.
Proof. vm_compute. reflexivity. Qed.

Example test_language_english :
  _detect_language (lit "Hello world this is English text")
  = Float.Val s_en.
Proof. vm_compute. reflexivity. Qed.

Example test_language_mixed :
  _detect_language t_lang_mixed = Float.Val s_mixed.
Proof. vm_compute. reflexivity. Qed.

Example test_language_empty :
  _detect_language [] = Float.Val s_he
  /\ _detect_language (lit "   ") = Float.Val s_he.
Proof. vm_compute. split; reflexivity. Qed.

(** class TestExtractTitle *)

Example test_title_from_first_line :
  _extract_title_from_text t_title_text {| Path.stem := lit "book" |}
  = Float.Val t_title_line.
Proof. vm_compute. reflexivity. Qed.

Example test_title_fallback_to_filename :
  _extract_title_from_text [] {| Path.stem := lit "my_book" |}
  = Float.Val (lit "my_book").
Proof. vm_compute. reflexivity. Qed.

End ParserTests.
